(** * A shallow embedding of the Nix expression evaluator (src/libexpr/eval.cc)

    The evaluator works on a mutable graph of [Value] cells, [Bindings]
    maps and [Env] frames.  We model the graph as an explicit store and the
    evaluator as state-passing functions in a small state/exception monad.
    Recursion through [eval], [callFunction], [forceValue],
    [coerceToString] and [eqValues] is bounded by a fuel argument (the host
    stack of the C++ program).

    Not modelled: the statistics counters ([nrValues], [nrEnvs],
    [nrEvaluated], [deepestStack]), [checkInterrupt], logging, and the
    truncation of C strings at NUL bytes. *)

From Stdlib Require Import ZArith NArith List String Ascii Bool Lia DecimalString.
From stdpp Require Import base list.
Import ListNotations.

Local Open Scope Z_scope.
Local Open Scope nat_scope.
Set Warnings "-register-all".

(** ** Symbols and the abstract syntax tree

    Symbols are interned terms in the source; a symbol is identified here
    with its name.  The expression constructors are the term constructors
    that the [match...] predicates of the source recognise. *)

Definition Sym := string.

Definition sWith : Sym := "<with>"%string.
Definition sNoAlias : Sym := "<no-alias>"%string.

Inductive DefaultValue (E : Type) : Type :=
| NoDefaultValue
| DefaultValue_ (def : E).
Arguments NoDefaultValue {E}.
Arguments DefaultValue_ {E} def.

Inductive Pattern (E : Type) : Type :=
| VarPat (name : Sym)
| AttrsPat (formals : list (Sym * DefaultValue E)) (ellipsis : bool) (name : Sym).
Arguments VarPat {E} name.
Arguments AttrsPat {E} formals ellipsis name.

Inductive Expr : Type :=
| Var (name : Sym)
| Int (n : Z)
| Str (s : string) (context : list string)
| Path (s : string)
| Attrs (es : list (Sym * Expr))
| Rec (rbnds nrbnds : list (Sym * Expr))
| Select (e : Expr) (name : Sym)
| Function (pat : Pattern Expr) (body : Expr)
| Call (fn arg : Expr)
| With (attrs body : Expr)
| List (es : list Expr)
| OpEq (e1 e2 : Expr)
| OpNEq (e1 e2 : Expr)
| OpConcat (e1 e2 : Expr)
| ConcatStrings (es : list Expr)
| If (e1 e2 e3 : Expr)
| Assert (e1 e2 : Expr) (pos : string)
| OpNot (e1 : Expr)
| OpImpl (e1 e2 : Expr)
| OpAnd (e1 e2 : Expr)
| OpOr (e1 e2 : Expr)
| OpUpdate (e1 e2 : Expr)
| OpHasAttr (e1 : Expr) (name : Sym)
| Unsupported.

(** ** Values

    Modelled from the spec: the declaration of [Value] lives in eval.hh, not
    in eval.cc.  A value is a type tag together with a union of
    per-tag payloads; the source writes the tag ([v.type = ...]) and the
    members ([v.thunk.env], [v.attrs], ...) separately, so the tag and the
    active union member are kept apart here as well.  Reading a member that
    is not the active one is undefined behaviour in the source and a
    [Crash] in the model. *)

Definition addr := nat.   (* Value *  *)
Definition baddr := nat.  (* Bindings * *)
Definition eaddr := nat.  (* Env * *)
Definition PrimOp := string. (* the identity of a built-in's function pointer *)

Inductive ValueType : Type :=
| tInt | tBool | tString | tPath | tNull | tAttrs | tList
| tThunk | tApp | tLambda | tCopy | tBlackhole | tPrimOp | tPrimOpApp.

Inductive Payload : Type :=
| uNone
| uInteger (integer : Z)
| uBoolean (boolean : bool)
| uString (s : string) (context : list string)
| uPath (path : string)
| uAttrs (attrs : baddr)
| uList (length : nat) (elems : addr)
| uThunk (env : eaddr) (expr : Expr)
| uApp (left right : addr)
| uLambda (env : eaddr) (pat : Pattern Expr) (body : Expr)
| uVal (val : addr)
| uPrimOp (fn : PrimOp) (arity : N)
| uPrimOpApp (left right : addr) (argsLeft : N).

Record Value : Type := mkValue { type : ValueType; payload : Payload }.

#[global] Instance ValueType_eq_dec : EqDecision ValueType.
Proof. solve_decision. Defined.

(** What the evaluator takes from declarations that are not in [eval.cc] and
    that it does not reach through the host.  A symbol is an interned term,
    and the maps of the evaluator ([std::map<Sym, Value>]) are ordered by
    the addresses of their keys: [symCompare] is that order, fixed by the
    term library and not by the names.  The tags of the values are the
    enumerators of [ValueType], declared in [eval.hh]: [tagNumber] is the
    number of an enumerator, which [showType] prints for a tag it does not
    know.  Nothing is assumed about either of them. *)
Class Layout : Type := mkLayout {
  symCompare : Sym -> Sym -> comparison;
  tagNumber : ValueType -> Z
}.

(** A cell that was allocated but not written yet. *)
Definition fresh : Value := mkValue tInt uNone.

(** [Bindings] is an ordered map from symbols to values; iteration follows
    the order of the keys, which is the order [symCompare] of the symbols.
    Each slot of the map is a cell of the store. *)
Definition Bindings := list (Sym * addr).

Fixpoint find (name : Sym) (b : Bindings) : option addr :=
  match b with
  | [] => None
  | (k, a) :: r => if String.eqb k name then Some a else find name r
  end.

Fixpoint insert_slot {Ly : Layout} (name : Sym) (a : addr) (b : Bindings) : Bindings :=
  match b with
  | [] => [(name, a)]
  | (k, x) :: r =>
      match symCompare name k with
      | Lt => (name, a) :: (k, x) :: r
      | _ => (k, x) :: insert_slot name a r
      end
  end.

Record Env : Type := mkEnv { up : option eaddr; bindings : baddr }.

(** [PathSet]: an ordered set of strings. *)
Definition PathSet := list string.

Fixpoint set_insert (p : string) (s : PathSet) : PathSet :=
  match s with
  | [] => [p]
  | q :: r =>
      match String.compare p q with
      | Lt => p :: q :: r
      | Eq => q :: r
      | Gt => q :: set_insert p r
      end
  end.

(** ** The store and the evaluation monad *)

Record State : Type := mkState {
  values : list Value;
  maps : list Bindings;
  envs : list Env;
  srcToStore : list (string * string)
}.

Inductive ErrorClass : Type := cError | cEvalError | cTypeError | cAssertionError.

Record Error : Type := mkError { err_class : ErrorClass; err_msg : string }.

Definition addPrefix (s : string) (e : Error) : Error :=
  mkError (err_class e) (s ++ err_msg e)%string.

(** The outcome of running a piece of the evaluator: a result, a thrown
    exception (with the store as the handler will see it), a crash
    ([abort()], a failed [assert], or undefined behaviour), or exhaustion of
    the recursion bound. *)
Inductive Result (A : Type) : Type :=
| Ok (a : A) (st : State)
| Throw (e : Error) (st : State)
| Crash
| OutOfFuel.
Arguments Ok {A} a st.
Arguments Throw {A} e st.
Arguments Crash {A}.
Arguments OutOfFuel {A}.

Definition M (A : Type) : Type := State -> Result A.

Definition ret {A} (a : A) : M A := fun st => Ok a st.

Definition bind {A B} (m : M A) (f : A -> M B) : M B :=
  fun st =>
    match m st with
    | Ok a st' => f a st'
    | Throw e st' => Throw e st'
    | Crash => Crash
    | OutOfFuel => OutOfFuel
    end.

Definition throw {A} (e : Error) : M A := fun st => Throw e st.
Definition crash {A} : M A := fun _ => Crash.
Definition out_of_fuel {A} : M A := fun _ => OutOfFuel.

Definition try_catch {A} (m : M A) (h : Error -> M A) : M A :=
  fun st =>
    match m st with
    | Throw e st' => h e st'
    | r => r
    end.

Declare Scope eval_scope.
Delimit Scope eval_scope with eval.
Notation "x <- c1 ;; c2" := (bind c1 (fun x => c2))
  (at level 100, c1 at next level, right associativity) : eval_scope.
Notation "c1 ;; c2" := (bind c1 (fun _ => c2))
  (at level 100, right associativity) : eval_scope.
Local Open Scope eval_scope.

Section WithLayout.
Context {Ly : Layout}.

Fixpoint forM {A} (l : list A) (f : A -> M unit) : M unit :=
  match l with
  | [] => ret tt
  | x :: r => f x ;; forM r f
  end.

(** *** Cells *)

Definition deref (a : addr) : M Value :=
  fun st => match values st !! a with
            | Some v => Ok v st
            | None => Crash
            end.

Definition assign (a : addr) (v : Value) : M unit :=
  fun st =>
    if decide (a < length (values st))
    then Ok tt (mkState (<[a:=v]> (values st)) (maps st) (envs st) (srcToStore st))
    else Crash.

Definition set_type (a : addr) (t : ValueType) : M unit :=
  v <- deref a ;; assign a (mkValue t (payload v)).

Definition allocValues (count : nat) : M addr :=
  fun st => Ok (length (values st))
               (mkState (values st ++ replicate count fresh) (maps st) (envs st)
                        (srcToStore st)).

(** A [Value] declared as a local variable of the source. *)
Definition local : M addr := allocValues 1.

(** *** Union members *)

Definition get_integer (v : Value) : M Z :=
  match payload v with uInteger z => ret z | _ => crash end.
Definition get_boolean (v : Value) : M bool :=
  match payload v with uBoolean b => ret b | _ => crash end.
Definition get_string (v : Value) : M (string * list string) :=
  match payload v with uString s c => ret (s, c) | _ => crash end.
Definition get_path (v : Value) : M string :=
  match payload v with uPath p => ret p | _ => crash end.
Definition get_attrs (v : Value) : M baddr :=
  match payload v with uAttrs b => ret b | _ => crash end.
Definition get_list (v : Value) : M (nat * addr) :=
  match payload v with uList n e => ret (n, e) | _ => crash end.
Definition get_thunk (v : Value) : M (eaddr * Expr) :=
  match payload v with uThunk env e => ret (env, e) | _ => crash end.
Definition get_app (v : Value) : M (addr * addr) :=
  match payload v with uApp l r => ret (l, r) | _ => crash end.
Definition get_lambda (v : Value) : M (eaddr * Pattern Expr * Expr) :=
  match payload v with uLambda env p b => ret (env, p, b) | _ => crash end.
Definition get_val (v : Value) : M addr :=
  match payload v with uVal a => ret a | _ => crash end.
Definition get_primOp (v : Value) : M (PrimOp * N) :=
  match payload v with uPrimOp f n => ret (f, n) | _ => crash end.
Definition get_primOpApp (v : Value) : M (addr * addr * N) :=
  match payload v with uPrimOpApp l r n => ret (l, r, n) | _ => crash end.

(** *** Bindings and environments *)

Definition newBindings : M baddr :=
  fun st => Ok (length (maps st))
               (mkState (values st) (maps st ++ [[]]) (envs st) (srcToStore st)).

Definition readBindings (b : baddr) : M Bindings :=
  fun st => match maps st !! b with
            | Some bs => Ok bs st
            | None => Crash
            end.

Definition writeBindings (b : baddr) (bs : Bindings) : M unit :=
  fun st =>
    if decide (b < length (maps st))
    then Ok tt (mkState (values st) (<[b:=bs]> (maps st)) (envs st) (srcToStore st))
    else Crash.

(** [m[name]]: the slot of [name], created when absent. *)
Definition slot (b : baddr) (name : Sym) : M addr :=
  bs <- readBindings b ;;
  match find name bs with
  | Some a => ret a
  | None =>
      a <- allocValues 1 ;;
      writeBindings b (insert_slot name a bs) ;;
      ret a
  end.

Definition allocEnv : M eaddr :=
  b <- newBindings ;;
  fun st => Ok (length (envs st))
               (mkState (values st) (maps st) (envs st ++ [mkEnv None b])
                        (srcToStore st)).

Definition readEnv (e : eaddr) : M Env :=
  fun st => match envs st !! e with
            | Some E => Ok E st
            | None => Crash
            end.

Definition set_up (e : eaddr) (u : option eaddr) : M unit :=
  E <- readEnv e ;;
  fun st => Ok tt (mkState (values st) (maps st)
                           (<[e:=mkEnv u (bindings E)]> (envs st)) (srcToStore st)).

(** *** Value constructors

    Modelled from the spec: [mkInt], [mkBool], [mkThunk] and [mkCopy] are
    inline helpers declared in eval.hh, not in eval.cc; each sets the tag
    and the matching union member. *)

Definition mkInt (v : addr) (n : Z) : M unit := assign v (mkValue tInt (uInteger n)).
Definition mkBool (v : addr) (b : bool) : M unit := assign v (mkValue tBool (uBoolean b)).
Definition mkThunk (v : addr) (env : eaddr) (expr : Expr) : M unit :=
  assign v (mkValue tThunk (uThunk env expr)).
Definition mkCopy (v : addr) (src : addr) : M unit :=
  assign v (mkValue tCopy (uVal src)).

Definition mkString (v : addr) (s : string) (context : PathSet) : M unit :=
  assign v (mkValue tString (uString s context)).

Definition mkPath (v : addr) (s : string) : M unit :=
  assign v (mkValue tPath (uPath s)).

Definition mkList (v : addr) (length : nat) : M unit :=
  elems <- allocValues length ;;
  assign v (mkValue tList (uList length elems)).

Definition mkAttrs (v : addr) : M unit :=
  b <- newBindings ;;
  assign v (mkValue tAttrs (uAttrs b)).

(** [v = w] on values: the whole cell is copied. *)
Definition copy (dst src : addr) : M unit :=
  x <- deref src ;; assign dst x.

(** *** Errors *)

Definition throwEvalError {A} (s : string) : M A := throw (mkError cEvalError s).
Definition throwTypeError {A} (s : string) : M A := throw (mkError cTypeError s).
Definition throwError {A} (s : string) : M A := throw (mkError cError s).

(** [int2String] of libutil: the decimal representation. *)
Definition int2String (n : Z) : string := NilZero.string_of_int (Z.to_int n).

Definition showType (v : Value) : M string :=
  match type v with
  | tInt => ret "an integer"
  | tBool => ret "a boolean"
  | tString => ret "a string"
  | tPath => ret "a path"
  | tAttrs => ret "an attribute set"
  | tList => ret "a list"
  | tNull => ret "null"
  | tLambda => ret "a function"
  | tPrimOp => ret "a built-in function"
  | tPrimOpApp => ret "a partially applied built-in function"
  | t => throwError ("unknown type: " ++ int2String (tagNumber t))
  end%string.

(** The error kinds of the specification, as the source raises them. *)
Definition UndefinedVariable (name : Sym) : Error :=
  mkError cError ("undefined variable `" ++ name ++ "'")%string.
Definition InfiniteRecursion : Error :=
  mkError cEvalError "infinite recursion encountered"%string.
Definition MissingArgument (name : Sym) : Error :=
  mkError cTypeError
    ("the argument named `" ++ name ++ "' required by the function is missing")%string.
Definition UnexpectedArgument : Error :=
  mkError cTypeError "function called with unexpected argument"%string.
Definition AttrMissing (name : Sym) : Error :=
  mkError cEvalError ("attribute `" ++ name ++ "' missing")%string.
Definition PathContextError (s : string) : Error :=
  mkError cEvalError
    ("a string that refers to a store path cannot be appended to a path, in `"
       ++ s ++ "'")%string.

(** ** The recursive knot

    [eval], [callFunction], [forceValue], [coerceToString] and [eqValues]
    call one another.  Each body below takes the functions it calls from a
    record; [funs] ties the knot by recursion on the fuel. *)

Record Funs : Type := mkFuns {
  r_eval : eaddr -> Expr -> addr -> M unit;
  r_callFunction : addr -> addr -> addr -> M unit;
  r_forceValue : addr -> M unit;
  r_coerceToString : addr -> PathSet -> bool -> bool -> M (string * PathSet);
  r_eqValues : addr -> addr -> M bool
}.

(** What the evaluator takes from its collaborators: the path and store
    functions used by [coerceToString], and the table of built-ins (a
    built-in receives the evaluator, its argument vector and the cell for
    its result). *)
Record Host : Type := mkHost {
  canonPath : string -> string;
  isDerivation : string -> bool;
  drvExtension : string;
  readOnlyMode : bool;
  computeStorePathForPath : string -> string;
  addToStore : string -> string;
  primOpFun : PrimOp -> Funs -> list addr -> addr -> M unit
}.


(** *** Name resolution *)

Fixpoint lookupWith (fuel : nat) (env : option eaddr) (name : Sym) : M (option addr) :=
  match fuel with
  | 0 => out_of_fuel
  | S fuel' =>
      match env with
      | None => ret None
      | Some e =>
          E <- readEnv e ;;
          v <- lookupWith fuel' (up E) name ;;
          match v with
          | Some a => ret (Some a)
          | None =>
              bs <- readBindings (bindings E) ;;
              match find sWith bs with
              | None => ret None
              | Some i =>
                  w <- deref i ;;
                  a <- get_attrs w ;;
                  ws <- readBindings a ;;
                  ret (find name ws)
              end
          end
      end
  end.

Fixpoint lookupRegular (fuel : nat) (env2 : option eaddr) (name : Sym) : M (option addr) :=
  match fuel with
  | 0 => out_of_fuel
  | S fuel' =>
      match env2 with
      | None => ret None
      | Some e =>
          E <- readEnv e ;;
          bs <- readBindings (bindings E) ;;
          match find name bs with
          | Some i => ret (Some i)
          | None => lookupRegular fuel' (up E) name
          end
      end
  end.

Definition lookupVar (fuel : nat) (env : eaddr) (name : Sym) : M addr :=
  (* First look for a regular variable binding for [name]. *)
  r <- lookupRegular fuel (Some env) name ;;
  match r with
  | Some i => ret i
  | None =>
      (* Otherwise, look for a `with' attribute set containing [name]. *)
      v <- lookupWith fuel (Some env) name ;;
      match v with
      | Some a => ret a
      | None => throw (UndefinedVariable name)
      end
  end.

(** *** Typed demands *)

Definition typeError_expected {A} (v : Value) (what : string) : M A :=
  t <- showType v ;;
  throwTypeError ("value is " ++ t ++ " while " ++ what ++ " was expected")%string.

Definition forceAttrs (R : Funs) (v : addr) : M unit :=
  r_forceValue R v ;;
  c <- deref v ;;
  if decide (type c = tAttrs) then ret tt else typeError_expected c "an attribute set".

Definition forceList (R : Funs) (v : addr) : M unit :=
  r_forceValue R v ;;
  c <- deref v ;;
  if decide (type c = tList) then ret tt else typeError_expected c "a list".

Definition forceInt (R : Funs) (v : addr) : M Z :=
  r_forceValue R v ;;
  c <- deref v ;;
  if decide (type c = tInt) then get_integer c else typeError_expected c "an integer".

Definition forceBool (R : Funs) (v : addr) : M bool :=
  r_forceValue R v ;;
  c <- deref v ;;
  if decide (type c = tBool) then get_boolean c else typeError_expected c "a Boolean".

Definition evalBool (R : Funs) (env : eaddr) (e : Expr) : M bool :=
  v <- local ;;
  r_eval R env e v ;;
  c <- deref v ;;
  if decide (type c = tBool) then get_boolean c else typeError_expected c "a Boolean".

(** *** Forcing *)

Definition forceValue_ (R : Funs) (v : addr) : M unit :=
  c <- deref v ;;
  match type c with
  | tThunk =>
      let saved := type c in
      try_catch
        (set_type v tBlackhole ;;
         c' <- deref v ;;
         t <- get_thunk c' ;;
         r_eval R (fst t) (snd t) v)
        (fun e => set_type v saved ;; throw e)
  | tCopy =>
      val <- get_val c ;;
      r_forceValue R val ;;
      c' <- deref v ;;
      val' <- get_val c' ;;
      copy v val'
  | tApp =>
      a <- get_app c ;;
      r_callFunction R (fst a) (snd a) v
  | tBlackhole => throw InfiniteRecursion
  | _ => ret tt
  end.

Definition cloneAttrs (src dst : addr) : M unit :=
  mkAttrs dst ;;
  s <- deref src ;;
  sb <- get_attrs s ;;
  bs <- readBindings sb ;;
  forM bs (fun '(k, i) =>
    d <- deref dst ;;
    db <- get_attrs d ;;
    c <- slot db k ;;
    mkCopy c i).

(** Arithmetic on [unsigned int]. *)
Definition uint_pred (n : N) : N :=
  if N.eqb n 0 then 4294967295%N else N.pred n.

Definition string_eq_dec' (a b : string) : {a = b} + {a <> b} := string_dec a b.

Section Evaluator.

Context (H : Host).

(** *** Function application *)

Fixpoint findPrimOp (fuel : nat) (primOp : addr) : M addr :=
  match fuel with
  | 0 => out_of_fuel
  | S fuel' =>
      c <- deref primOp ;;
      if decide (type c = tPrimOpApp)
      then p <- get_primOpApp c ;; findPrimOp fuel' (fst (fst p))
      else ret primOp
  end.

(** [vArgs[n] = a] on the argument array. *)
Definition store_arg (vArgs : list (option addr)) (n : N) (a : addr)
  : M (list (option addr)) :=
  if decide (N.to_nat n < length vArgs)
  then ret (<[N.to_nat n := Some a]> vArgs)
  else crash.

Fixpoint gatherArgs (fuel : nat) (arg : addr) (n : N) (vArgs : list (option addr))
  : M (list (option addr)) :=
  match fuel with
  | 0 => out_of_fuel
  | S fuel' =>
      c <- deref arg ;;
      if decide (type c = tPrimOpApp)
      then p <- get_primOpApp c ;;
           vArgs' <- store_arg vArgs n (snd (fst p)) ;;
           gatherArgs fuel' (fst (fst p)) (uint_pred n) vArgs'
      else ret vArgs
  end.

(** The argument vector handed to the built-in; an entry that was never
    written is an indeterminate pointer. *)
Fixpoint initialised (vArgs : list (option addr)) : M (list addr) :=
  match vArgs with
  | [] => ret []
  | None :: _ => crash
  | Some a :: r => l <- initialised r ;; ret (a :: l)
  end.

Fixpoint bindFormals (R : Funs) (arg : addr) (env2 : eaddr)
    (formals : list (Sym * DefaultValue Expr)) (attrsUsed : nat) : M nat :=
  match formals with
  | [] => ret attrsUsed
  | (name, def2) :: rest =>
      a <- deref arg ;;
      ab <- get_attrs a ;;
      abs <- readBindings ab ;;
      let j := find name abs in
      E2 <- readEnv env2 ;;
      v <- slot (bindings E2) name ;;
      match j with
      | None =>
          match def2 with
          | NoDefaultValue => throw (MissingArgument name)
          | DefaultValue_ def =>
              mkThunk v env2 def ;;
              bindFormals R arg env2 rest attrsUsed
          end
      | Some jv =>
          mkCopy v jv ;;
          bindFormals R arg env2 rest (S attrsUsed)
      end
  end.

Definition callFunction_ (fuel : nat) (R : Funs) (fn arg v : addr) : M unit :=
  f <- deref fn ;;
  if decide (type f = tPrimOp \/ type f = tPrimOpApp) then
    argsLeft <- (if decide (type f = tPrimOp)
                 then p <- get_primOp f ;; ret (snd p)
                 else p <- get_primOpApp f ;; ret (snd p)) ;;
    if N.eqb argsLeft 1 then
      (* We have all the arguments, so call the primop. *)
      primOp <- findPrimOp fuel fn ;;
      p <- deref primOp ;;
      (if decide (type p = tPrimOp) then ret tt else crash) ;;
      pa <- get_primOp p ;;
      let arity := snd pa in
      let n := uint_pred arity in
      vArgs <- store_arg (replicate (N.to_nat arity) None) n arg ;;
      vArgs <- gatherArgs fuel fn (uint_pred n) vArgs ;;
      args <- initialised vArgs ;;
      primOpFun H (fst pa) R args v
    else
      v2 <- allocValues 2 ;;
      copy v2 fn ;;
      copy (v2 + 1) arg ;;
      assign v (mkValue tPrimOpApp (uPrimOpApp v2 (v2 + 1) (uint_pred argsLeft)))
  else if decide (type f <> tLambda) then
    t <- showType f ;;
    throwTypeError
      ("attempt to call something which is neither a function nor a primop (built-in operation) but "
         ++ t)%string
  else
    env2 <- allocEnv ;;
    lam <- get_lambda f ;;
    set_up env2 (Some (fst (fst lam))) ;;
    E2 <- readEnv env2 ;;
    match snd (fst lam) with
    | VarPat name =>
        vArg <- slot (bindings E2) name ;;
        copy vArg arg
    | AttrsPat formals ellipsis name =>
        forceAttrs R arg ;;
        (if string_eq_dec' name sNoAlias then ret tt
         else a <- slot (bindings E2) name ;; copy a arg) ;;
        attrsUsed <- bindFormals R arg env2 formals 0 ;;
        a <- deref arg ;;
        ab <- get_attrs a ;;
        abs <- readBindings ab ;;
        if negb ellipsis && negb (Nat.eqb attrsUsed (length abs))
        then throw UnexpectedArgument
        else ret tt
    end ;;
    r_eval R env2 (snd lam) v.

(** *** Coercion to strings *)

Fixpoint assoc (k : string) (l : list (string * string)) : string :=
  match l with
  | [] => ""
  | (k', x) :: r => if String.eqb k' k then x else assoc k r
  end%string.

Definition srcToStore_get (path : string) : M string :=
  fun st => Ok (assoc path (srcToStore st)) st.

Definition srcToStore_set (path dst : string) : M unit :=
  fun st => Ok tt (mkState (values st) (maps st) (envs st)
                           ((path, dst) :: srcToStore st)).

Fixpoint coerceList (R : Funs) (coerceMore copyToStore : bool)
    (elems length todo n : nat) (result : string) (context : PathSet)
  : M (string * PathSet) :=
  match todo with
  | 0 => ret (result, context)
  | S todo' =>
      r <- r_coerceToString R (elems + n) context coerceMore copyToStore ;;
      sep <- (if decide (n < length - 1) then
                e <- deref (elems + n) ;;
                if decide (type e <> tList) then ret true
                else l <- get_list e ;; ret (negb (Nat.eqb (fst l) 0))
              else ret false) ;;
      coerceList R coerceMore copyToStore elems length todo' (S n)
        (result ++ fst r ++ (if sep : bool then " " else ""))%string (snd r)
  end.

Definition coerceToString_ (R : Funs) (v : addr) (context : PathSet)
    (coerceMore copyToStore : bool) : M (string * PathSet) :=
  r_forceValue R v ;;
  c <- deref v ;;
  if decide (type c = tString) then
    sc <- get_string c ;;
    ret (fst sc, fold_left (fun ctx p => set_insert p ctx) (snd sc) context)
  else if decide (type c = tPath) then
    p <- get_path c ;;
    let path := canonPath H p in
    if negb copyToStore then ret (path, context)
    else if isDerivation H path then
      throwEvalError ("file names are not allowed to end in `" ++ drvExtension H ++ "'")%string
    else
      known <- srcToStore_get path ;;
      dstPath <- (if negb (String.eqb known "") then ret known
                  else
                    let d := if readOnlyMode H then computeStorePathForPath H path
                             else addToStore H path in
                    srcToStore_set path d ;; ret d) ;;
      ret (dstPath, set_insert dstPath context)
  else if decide (type c = tAttrs) then
    b <- get_attrs c ;;
    bs <- readBindings b ;;
    match find "outPath"%string bs with
    | None => throwTypeError "cannot coerce an attribute set (except a derivation) to a string"
    | Some i => r_coerceToString R i context coerceMore copyToStore
    end
  else
    let otherwise : M (string * PathSet) :=
      t <- showType c ;;
      throwTypeError ("cannot coerce " ++ t ++ " to a string")%string in
    if coerceMore then
      match type c with
      | tBool => b <- get_boolean c ;; ret (if b : bool then "1" else "", context)%string
      | tInt => n <- get_integer c ;; ret (int2String n, context)
      | tNull => ret (""%string, context)
      | tList =>
          l <- get_list c ;;
          coerceList R coerceMore copyToStore (snd l) (fst l) (fst l) 0 ""%string context
      | _ => otherwise
      end
    else otherwise.

(** *** Equality *)

Fixpoint eqElems (R : Funs) (e1 e2 : addr) (todo n : nat) : M bool :=
  match todo with
  | 0 => ret true
  | S todo' =>
      b <- r_eqValues R (e1 + n) (e2 + n) ;;
      if b : bool then eqElems R e1 e2 todo' (S n) else ret false
  end.

Fixpoint eqAttrs (R : Funs) (i j : Bindings) : M bool :=
  match i with
  | [] => ret true
  | (_, a) :: i' =>
      match j with
      | [] => crash
      | (_, b) :: j' =>
          r <- r_eqValues R a b ;;
          if r : bool then eqAttrs R i' j' else ret false
      end
  end.

Definition eqValues_ (R : Funs) (v1 v2 : addr) : M bool :=
  r_forceValue R v1 ;;
  r_forceValue R v2 ;;
  c1 <- deref v1 ;;
  c2 <- deref v2 ;;
  if decide (type c1 <> type c2) then ret false
  else
    match type c1 with
    | tInt => a <- get_integer c1 ;; b <- get_integer c2 ;; ret (Z.eqb a b)
    | tBool => a <- get_boolean c1 ;; b <- get_boolean c2 ;; ret (Bool.eqb a b)
    | tString => a <- get_string c1 ;; b <- get_string c2 ;; ret (String.eqb (fst a) (fst b))
    | tPath => a <- get_path c1 ;; b <- get_path c2 ;; ret (String.eqb a b)
    | tNull => ret true
    | tList =>
        l1 <- get_list c1 ;;
        l2 <- get_list c2 ;;
        if negb (Nat.eqb (fst l1) (fst l2)) then ret false
        else eqElems R (snd l1) (snd l2) (fst l1) 0
    | tAttrs =>
        a1 <- get_attrs c1 ;;
        a2 <- get_attrs c2 ;;
        bs1 <- readBindings a1 ;;
        bs2 <- readBindings a2 ;;
        if negb (Nat.eqb (length bs1) (length bs2)) then ret false
        else eqAttrs R bs1 bs2
    (* Functions are incomparable. *)
    | tLambda | tPrimOp | tPrimOpApp => ret false
    | _ =>
        t1 <- showType c1 ;;
        t2 <- showType c2 ;;
        throwError ("cannot compare " ++ t1 ++ " with " ++ t2)%string
    end.

(** *** The expression dispatcher *)

Fixpoint bindThunks (b : baddr) (env : eaddr) (es : list (Sym * Expr)) : M unit :=
  match es with
  | [] => ret tt
  | (name, e2) :: rest =>
      v2 <- slot b name ;;
      mkThunk v2 env e2 ;;
      bindThunks b env rest
  end.

Fixpoint listThunks (elems : addr) (env : eaddr) (n : nat) (es : list Expr) : M unit :=
  match es with
  | [] => ret tt
  | e :: rest => mkThunk (elems + n) env e ;; listThunks elems env (S n) rest
  end.

Fixpoint copyElems (dst src : addr) (todo n : nat) : M unit :=
  match todo with
  | 0 => ret tt
  | S todo' => copy (dst + n) (src + n) ;; copyElems dst src todo' (S n)
  end.

Fixpoint concatLoop (R : Funs) (env : eaddr) (vStr : addr) (es : list Expr)
    (first isPath : bool) (s : string) (context : PathSet)
  : M (bool * string * PathSet) :=
  match es with
  | [] => ret (isPath, s, context)
  | e :: rest =>
      r_eval R env e vStr ;;
      isPath' <- (if first then c <- deref vStr ;; ret (bool_decide (type c = tPath))
                  else ret isPath) ;;
      p <- r_coerceToString R vStr context false (negb isPath') ;;
      concatLoop R env vStr rest false isPath' (s ++ fst p)%string (snd p)
  end.

Definition eval_ (fuel : nat) (R : Funs) (env : eaddr) (e : Expr) (v : addr) : M unit :=
  match e with
  | Var name =>
      v2 <- lookupVar fuel env name ;;
      r_forceValue R v2 ;;
      copy v v2

  | Int n => mkInt v n

  | Str s context =>
      match context with
      | [] => mkString v s []
      | _ :: _ => crash
      end

  | Path s => mkPath v s

  | Attrs es =>
      mkAttrs v ;;
      c <- deref v ;;
      b <- get_attrs c ;;
      bindThunks b env es

  | Rec rbnds nrbnds =>
      (* Create a new environment that contains the attributes in this
         `rec'. *)
      env2 <- allocEnv ;;
      set_up env2 (Some env) ;;
      E2 <- readEnv env2 ;;
      assign v (mkValue tAttrs (uAttrs (bindings E2))) ;;
      (* The recursive attributes are evaluated in the new environment. *)
      bindThunks (bindings E2) env2 rbnds ;;
      (* The non-recursive attributes, on the other hand, are evaluated in
         the original environment. *)
      bindThunks (bindings E2) env nrbnds

  | Select e2 name =>
      v2 <- local ;;
      r_eval R env e2 v2 ;;
      forceAttrs R v2 ;;
      c <- deref v2 ;;
      b <- get_attrs c ;;
      bs <- readBindings b ;;
      match find name bs with
      | None => throw (AttrMissing name)
      | Some i =>
          try_catch (r_forceValue R i)
            (fun err =>
               throw (addPrefix ("while evaluating the attribute `" ++ name ++ "':
")%string err)) ;;
          copy v i
      end

  | Function pat body => assign v (mkValue tLambda (uLambda env pat body))

  | Call fn arg =>
      vFun <- local ;;
      r_eval R env fn vFun ;;
      vArg <- local ;;
      mkThunk vArg env arg ;;
      r_callFunction R vFun vArg v

  | With attrs body =>
      env2 <- allocEnv ;;
      set_up env2 (Some env) ;;
      E2 <- readEnv env2 ;;
      vAttrs <- slot (bindings E2) sWith ;;
      r_eval R env attrs vAttrs ;;
      forceAttrs R vAttrs ;;
      r_eval R env2 body v

  | List es =>
      mkList v (length es) ;;
      c <- deref v ;;
      l <- get_list c ;;
      listThunks (snd l) env 0 es

  | OpEq e1 e2 =>
      v1 <- local ;; r_eval R env e1 v1 ;;
      v2 <- local ;; r_eval R env e2 v2 ;;
      b <- r_eqValues R v1 v2 ;;
      mkBool v b

  | OpNEq e1 e2 =>
      v1 <- local ;; r_eval R env e1 v1 ;;
      v2 <- local ;; r_eval R env e2 v2 ;;
      b <- r_eqValues R v1 v2 ;;
      mkBool v (negb b)

  | OpConcat e1 e2 =>
      v1 <- local ;; r_eval R env e1 v1 ;;
      forceList R v1 ;;
      v2 <- local ;; r_eval R env e2 v2 ;;
      forceList R v2 ;;
      c1 <- deref v1 ;; l1 <- get_list c1 ;;
      c2 <- deref v2 ;; l2 <- get_list c2 ;;
      mkList v (fst l1 + fst l2) ;;
      c <- deref v ;; l <- get_list c ;;
      copyElems (snd l) (snd l1) (fst l1) 0 ;;
      copyElems (snd l + fst l1) (snd l2) (fst l2) 0

  | ConcatStrings es =>
      vStr <- local ;;
      r <- concatLoop R env vStr es true false ""%string [] ;;
      let isPath := fst (fst r) in
      let s := snd (fst r) in
      let context := snd r in
      if isPath && negb (bool_decide (context = [])) then throw (PathContextError s)
      else if isPath then mkPath v s
      else mkString v s context

  (* Conditionals. *)
  | If e1 e2 e3 =>
      b <- evalBool R env e1 ;;
      r_eval R env (if b : bool then e2 else e3) v

  (* Assertions. *)
  | Assert e1 e2 pos =>
      b <- evalBool R env e1 ;;
      if b : bool then r_eval R env e2 v
      else throw (mkError cAssertionError ("assertion failed at " ++ pos)%string)

  (* Negation. *)
  | OpNot e1 => b <- evalBool R env e1 ;; mkBool v (negb b)

  (* Implication. *)
  | OpImpl e1 e2 =>
      a <- evalBool R env e1 ;;
      if negb a then mkBool v true
      else b <- evalBool R env e2 ;; mkBool v b

  (* Conjunction (logical AND). *)
  | OpAnd e1 e2 =>
      a <- evalBool R env e1 ;;
      if a : bool then b <- evalBool R env e2 ;; mkBool v b
      else mkBool v false

  (* Disjunction (logical OR). *)
  | OpOr e1 e2 =>
      a <- evalBool R env e1 ;;
      if a : bool then mkBool v true
      else b <- evalBool R env e2 ;; mkBool v b

  (* Attribute set update (//). *)
  | OpUpdate e1 e2 =>
      v2 <- local ;;
      r_eval R env e1 v2 ;;
      cloneAttrs v2 v ;;
      r_eval R env e2 v2 ;;
      c2 <- deref v2 ;;
      b2 <- get_attrs c2 ;;
      bs2 <- readBindings b2 ;;
      forM bs2 (fun '(k, i) =>
        c <- deref v ;;
        b <- get_attrs c ;;
        d <- slot b k ;;
        copy d i)

  (* Attribute existence test (?). *)
  | OpHasAttr e1 name =>
      vAttrs <- local ;;
      r_eval R env e1 vAttrs ;;
      forceAttrs R vAttrs ;;
      c <- deref vAttrs ;;
      b <- get_attrs c ;;
      bs <- readBindings b ;;
      mkBool v (bool_decide (is_Some (find name bs)))

  | Unsupported => throwError "unsupported term"
  end.

(** *** Tying the knot *)

Definition bottom : Funs :=
  mkFuns (fun _ _ _ => out_of_fuel) (fun _ _ _ => out_of_fuel)
         (fun _ => out_of_fuel) (fun _ _ _ _ => out_of_fuel)
         (fun _ _ => out_of_fuel).

Fixpoint funs (fuel : nat) : Funs :=
  match fuel with
  | 0 => bottom
  | S fuel' =>
      let R := funs fuel' in
      mkFuns (eval_ fuel' R) (callFunction_ fuel' R) (forceValue_ R)
             (coerceToString_ R) (eqValues_ R)
  end.

Definition eval (fuel : nat) : eaddr -> Expr -> addr -> M unit := r_eval (funs fuel).
Definition callFunction (fuel : nat) : addr -> addr -> addr -> M unit :=
  r_callFunction (funs fuel).
Definition forceValue (fuel : nat) : addr -> M unit := r_forceValue (funs fuel).
Definition coerceToString (fuel : nat)
  : addr -> PathSet -> bool -> bool -> M (string * PathSet) :=
  r_coerceToString (funs fuel).
Definition eqValues (fuel : nat) : addr -> addr -> M bool := r_eqValues (funs fuel).

End Evaluator.


(** ** The base environment

    [addPrimOp] is the source's; the built-in [__add] and the part of
    [createBaseEnv] that sets up [builtins] live in primops.cc. *)

Definition strip__ (name : string) : string :=
  if String.eqb (substring 0 2 name) "__"
  then substring 2 (String.length name - 2) name
  else name.

Definition addPrimOp (baseEnv : eaddr) (name : string) (arity : N) (primOp : PrimOp)
  : M unit :=
  v <- local ;;
  assign v (mkValue tPrimOp (uPrimOp primOp arity)) ;;
  E <- readEnv baseEnv ;;
  s <- slot (bindings E) name ;;
  copy s v ;;
  let name2 := strip__ name in
  bi <- slot (bindings E) "builtins"%string ;;
  c <- deref bi ;;
  b <- get_attrs c ;;
  s2 <- slot b name2 ;;
  copy s2 v.

(** Modelled from the spec: the built-in behind integer addition ("Input
    [1 + 2] via a primop gives [Int 3]"); it demands both arguments as
    integers and stores their sum, a 32-bit machine integer. *)
Definition wrap32 (z : Z) : Z := ((z + 2147483648) mod 4294967296 - 2147483648)%Z.

Definition prim_add (R : Funs) (args : list addr) (v : addr) : M unit :=
  match args with
  | [a; b] =>
      x <- forceInt R a ;;
      y <- forceInt R b ;;
      mkInt v (wrap32 (x + y))
  | _ => crash
  end.

(** Modelled from the spec: [createBaseEnv] creates the [builtins] attribute
    set in the base environment and registers the built-ins; only [__add]
    is registered here. *)
Definition createBaseEnv (baseEnv : eaddr) : M unit :=
  set_up baseEnv None ;;
  E <- readEnv baseEnv ;;
  v <- slot (bindings E) "builtins"%string ;;
  mkAttrs v ;;
  addPrimOp baseEnv "__add" 2 "prim_add"%string.

Definition emptyState : State := mkState [] [] [] [].

(** The evaluator's constructor: allocate the base environment and fill it. *)
Definition EvalState : M eaddr :=
  baseEnv <- allocEnv ;;
  createBaseEnv baseEnv ;;
  ret baseEnv.

Definition initState : State :=
  match EvalState emptyState with
  | Ok _ st => st
  | _ => emptyState
  end.

Definition baseEnv : eaddr := 0.

Fixpoint has_suffix (suffix s : string) : bool :=
  if String.eqb s suffix then true
  else match s with
       | EmptyString => false
       | String _ r => has_suffix suffix r
       end.

(** A host for running examples: paths are taken to be canonical, the store
    is read-only and places a path [p] at [/nix/store] followed by [p]. *)
Definition exampleHost : Host :=
  mkHost (fun p => p) (has_suffix ".drv") ".drv" true
         (fun p => "/nix/store" ++ p)%string (fun p => "/nix/store" ++ p)%string
         (fun f => if String.eqb f "prim_add" then prim_add else fun _ _ _ => crash).

(** ** Running whole expressions *)

(** There is no [let] node in the syntax tree that [eval] dispatches on: the
    parser turns [let bs in body] into the selection of the attribute
    [<let-body>] of a recursive attribute set. *)
Definition mkLet (bs : list (Sym * Expr)) (body : Expr) : Expr :=
  Select (Rec (bs ++ [("<let-body>"%string, body)]) []) "<let-body>"%string.

(** Evaluate [e] in the base environment into a new cell and read the cell. *)
Definition evalExpr (H : Host) (fuel : nat) (e : Expr) : M Value :=
  v <- local ;; eval H fuel baseEnv e v ;; deref v.

Definition returns {A} (r : Result A) (a : A) : Prop :=
  exists st, r = Ok a st.

Definition vInt (n : Z) : Value := mkValue tInt (uInteger n).
Definition vBool (b : bool) : Value := mkValue tBool (uBoolean b).

(** ** Predicates on stored values *)


Definition scalar (c : Value) : Prop :=
  match type c, payload c with
  | tInt, uInteger _ | tBool, uBoolean _ | tString, uString _ _
  | tPath, uPath _ | tNull, _ => True
  | _, _ => False
  end.

(** [plain st n a]: the cell [a] holds an evaluated value of nesting depth
    at most [n] that is built from integers, Booleans, null, strings, paths,
    lists and attribute sets only. *)
Inductive plain (st : State) : nat -> addr -> Prop :=
| plain_scalar n a c :
    values st !! a = Some c -> scalar c -> plain st n a
| plain_list n a len elems :
    values st !! a = Some (mkValue tList (uList len elems)) ->
    (forall i, i < len -> plain st n (elems + i)) ->
    plain st (S n) a
| plain_attrs n a b (bs : Bindings) :
    values st !! a = Some (mkValue tAttrs (uAttrs b)) ->
    maps st !! b = Some bs ->
    (forall k c, In (k, c) bs -> plain st n c) ->
    plain st (S n) a.



(** ** Joining the coercions of list elements *)

(** Evaluate [e] in the base environment and coerce the result. *)
Definition coerceExpr (H : Host) (fuel : nat) (e : Expr) (coerceMore copyToStore : bool)
  : M (string * PathSet) :=
  v <- local ;; eval H fuel baseEnv e v ;; coerceToString H fuel v [] coerceMore copyToStore.

(** Does the cell hold an empty list? *)
Definition isEmptyList (a : addr) : M bool :=
  e <- deref a ;;
  if decide (type e <> tList) then ret false
  else l <- get_list e ;; ret (Nat.eqb (fst l) 0).

(** Coerce the elements from left to right, collecting for each one its
    string and, unless it is the last, whether it is an empty list. *)
Fixpoint coercePieces (coerce : addr -> PathSet -> M (string * PathSet))
    (elems : list addr) (context : PathSet) : M (list (string * bool) * PathSet) :=
  match elems with
  | [] => ret ([], context)
  | a :: rest =>
      r <- coerce a context ;;
      e <- (match rest with [] => ret false | _ :: _ => isEmptyList a end) ;;
      ps <- coercePieces coerce rest (snd r) ;;
      ret ((fst r, e) :: fst ps, snd ps)
  end.

(** A single space follows every piece but the last, unless the piece comes
    from an empty list. *)
Fixpoint join_after (ps : list (string * bool)) : string :=
  match ps with
  | [] => ""
  | (s, e) :: rest =>
      match rest with
      | [] => s
      | _ :: _ => s ++ (if e : bool then "" else " ") ++ join_after rest
      end
  end%string.

(** The rule as the specification words it: a single space precedes every
    piece but the first, unless the piece comes from an empty list. *)
Fixpoint join_before_rest (ps : list (string * bool)) : string :=
  match ps with
  | [] => ""
  | (s, e) :: rest => (if e : bool then "" else " ") ++ s ++ join_before_rest rest
  end%string.

Definition join_before (ps : list (string * bool)) : string :=
  match ps with
  | [] => ""
  | (s, _) :: rest => s ++ join_before_rest rest
  end%string.

(** ** Scopes as lists of frames *)

(** A frame of the environment chain: its regular bindings and, when it was
    introduced by [with], the attribute set bound to [sWith]. *)
Record Frame : Type := mkFrame { fr_bindings : Bindings; fr_with : option Bindings }.

Definition with_set (st : State) (bs : Bindings) (w : option Bindings) : Prop :=
  match find sWith bs with
  | None => w = None
  | Some i =>
      exists c a (ws : Bindings),
        values st !! i = Some c /\ payload c = uAttrs a /\
        maps st !! a = Some ws /\ w = Some ws
  end.

(** [env_chain st env frames]: walking the [up] links from [env] visits
    exactly [frames], innermost first. *)
Inductive env_chain (st : State) : option eaddr -> list Frame -> Prop :=
| chain_nil : env_chain st None []
| chain_cons e E (bs : Bindings) w frames :
    envs st !! e = Some E ->
    maps st !! bindings E = Some bs ->
    with_set st bs w ->
    env_chain st (up E) frames ->
    env_chain st (Some e) (mkFrame bs w :: frames).

(** The first regular binding of [name], walking up from the innermost
    frame. *)
Fixpoint first_regular (name : Sym) (frames : list Frame) : option addr :=
  match frames with
  | [] => None
  | f :: r =>
      match find name (fr_bindings f) with
      | Some a => Some a
      | None => first_regular name r
      end
  end.

(** The first [with] frame, in the order given, whose attribute set contains
    [name]. *)
Fixpoint first_with (name : Sym) (frames : list Frame) : option addr :=
  match frames with
  | [] => None
  | f :: r =>
      match fr_with f with
      | Some ws =>
          match find name ws with
          | Some a => Some a
          | None => first_with name r
          end
      | None => first_with name r
      end
  end.

(** Name resolution as the specification words it: regular bindings first,
    innermost first; then the [with] frames from outermost to innermost. *)
Definition resolve (name : Sym) (frames : list Frame) : option addr :=
  match first_regular name frames with
  | Some a => Some a
  | None => first_with name (rev frames)
  end.

(** ** Reading attribute sets and chains of partial applications *)

(** The cell bound to [name] in the attribute set stored at [v]. *)
Definition attr_cell (st : State) (v : addr) (name : Sym) : option Value :=
  match values st !! v with
  | Some (mkValue tAttrs (uAttrs b)) =>
      match maps st !! b with
      | Some bs =>
          match find name bs with
          | Some i => values st !! i
          | None => None
          end
      | None => None
      end
  | _ => None
  end.

(** [primop_chain st p arity v args]: the cell [v] is the built-in [p] of
    arity [arity] applied to the arguments [args], leftmost first; every
    partial application records the number of arguments still missing. *)
Inductive primop_chain (st : State) (p : PrimOp) (arity : N) : addr -> list addr -> Prop :=
| pc_root v :
    values st !! v = Some (mkValue tPrimOp (uPrimOp p arity)) ->
    primop_chain st p arity v []
| pc_app v l r args :
    values st !! v
      = Some (mkValue tPrimOpApp (uPrimOpApp l r (arity - N.of_nat (length args + 1)))) ->
    (N.of_nat (length args + 1) < arity)%N ->
    primop_chain st p arity l args ->
    primop_chain st p arity v (args ++ [r]).

Definition is_primop_cell (c : Value) : Prop :=
  type c = tPrimOp \/ type c = tPrimOpApp.

(** ** Binding the formals of an attribute-set pattern *)

(** The value bound to [name] in the frame [env]. *)
Definition env_binds (st : State) (env : eaddr) (name : Sym) : option Value :=
  match envs st !! env with
  | Some E =>
      match maps st !! bindings E with
      | Some bs =>
          match find name bs with
          | Some i => values st !! i
          | None => None
          end
      | None => None
      end
  | None => None
  end.

(** What a formal is bound to, given the bindings [abs] of the argument: an
    indirection to the attribute when there is one, else a thunk of the
    default in the new environment [env2], else nothing. *)
Definition formal_binding (env2 : eaddr) (abs : Bindings) (f : Sym * DefaultValue Expr)
  : option Value :=
  match find (fst f) abs with
  | Some jv => Some (mkValue tCopy (uVal jv))
  | None =>
      match snd f with
      | DefaultValue_ d => Some (mkValue tThunk (uThunk env2 d))
      | NoDefaultValue => None
      end
  end.

(** The first formal that has neither an actual argument nor a default. *)
Fixpoint first_missing (abs : Bindings) (formals : list (Sym * DefaultValue Expr))
  : option Sym :=
  match formals with
  | [] => None
  | f :: rest =>
      match formal_binding 0 abs f with
      | Some _ => first_missing abs rest
      | None => Some (fst f)
      end
  end.

(** The number of formals matched by an actual argument. *)
Fixpoint count_present (abs : Bindings) (formals : list (Sym * DefaultValue Expr)) : nat :=
  match formals with
  | [] => 0
  | f :: rest =>
      (match find (fst f) abs with Some _ => 1 | None => 0 end) + count_present abs rest
  end.

(** The situation in which [callFunction] binds the formals: [arg] holds an
    attribute set with bindings [abs]; the new environment [env2] owns the
    map [b2] with bindings [bs2], which is not the argument's map, and whose
    slots are distinct allocated cells other than [arg]. *)
Record formals_inv (st : State) (arg : addr) (env2 : eaddr) (ab : baddr)
    (abs : Bindings) (b2 : baddr) (bs2 : Bindings) : Prop := mkFormalsInv {
  fi_arg : values st !! arg = Some (mkValue tAttrs (uAttrs ab));
  fi_abs : maps st !! ab = Some abs;
  fi_env : exists E2, envs st !! env2 = Some E2 /\ bindings E2 = b2;
  fi_ne : b2 <> ab;
  fi_bs2 : maps st !! b2 = Some bs2;
  fi_notin : ~ In arg (map snd bs2);
  fi_nodup : NoDup (map snd bs2);
  fi_valid : forall c, In c (map snd bs2) -> c < length (values st)
}.

(** Modelled from the spec: [eval] has no node for integer addition, which
    is provided by a built-in ("Input [1 + 2] via a primop"); [e1 + e2] on
    integers is taken to be the application of [__add] to [e1] and [e2]. *)
Definition opPlus (e1 e2 : Expr) : Expr :=
  Call (Call (Var "__add"%string) e1) e2.

(** ** Concatenation onto a path *)

(** The loop of the string concatenation with the store copy switched off:
    every component is evaluated and then coerced with [coerceMore] and
    [copyToStore] both false. *)
Fixpoint concatPath (R : Funs) (env : eaddr) (vStr : addr) (es : list Expr)
    (s : string) (context : PathSet) : M (string * PathSet) :=
  match es with
  | [] => ret (s, context)
  | e :: rest =>
      r_eval R env e vStr ;;
      p <- r_coerceToString R vStr context false false ;;
      concatPath R env vStr rest (s ++ fst p)%string (snd p)
  end.

(** ** Unbounded recursion *)

(** The body [f x] and the function [x: f x]. *)
Definition loop_body : Expr := Call (Var "f"%string) (Var "x"%string).


(** A frame [env] from which [f x] is evaluated: [env] itself does not bind
    [f], its parent [fenv] binds [f] to a cell that holds the closure of
    [x: f x] over [fenv]. *)
Record diverging_frame (st : State) (fenv : eaddr) (fcell : addr) (env : eaddr)
  : Prop := mkDivergingFrame {
  df_env : exists b (bs : Bindings),
      envs st !! env = Some (mkEnv (Some fenv) b) /\
      maps st !! b = Some bs /\ find "f"%string bs = None;
  df_fenv : exists E (bs : Bindings),
      envs st !! fenv = Some E /\
      maps st !! bindings E = Some bs /\ find "f"%string bs = Some fcell;
  df_lam : values st !! fcell
           = Some (mkValue tLambda (uLambda fenv (VarPat "x"%string) loop_body))
}.

Definition loop_closure (fenv : eaddr) : Value :=
  mkValue tLambda (uLambda fenv (VarPat "x"%string) loop_body).

(** ** A failing attribute-set update

    [{} // nope], with [nope] unbound. *)
Definition update_expr : Expr := OpUpdate (Attrs []) (Var "nope"%string).

(** * Further functions of the evaluator *)

(** A cell that needs no forcing. *)
Definition evaluated (c : Value) : Prop :=
  type c <> tThunk /\ type c <> tCopy /\ type c <> tApp /\ type c <> tBlackhole.

(** ** Typed demands *)

Definition forceFunction (R : Funs) (v : addr) : M unit :=
  r_forceValue R v ;;
  c <- deref v ;;
  if decide (type c <> tLambda /\ type c <> tPrimOp /\ type c <> tPrimOpApp)
  then typeError_expected c "a function"
  else ret tt.

Definition forceString (R : Funs) (v : addr) : M string :=
  r_forceValue R v ;;
  c <- deref v ;;
  if decide (type c <> tString) then typeError_expected c "a string"
  else s <- get_string c ;; ret (fst s).

(** [forceString(v, context)]: the context of the string is added to
    [context]. *)
Definition forceStringCtx (R : Funs) (v : addr) (context : PathSet)
  : M (string * PathSet) :=
  s <- forceString R v ;;
  c <- deref v ;;
  sc <- get_string c ;;
  ret (s, fold_left (fun ctx p => set_insert p ctx) (snd sc) context).

Definition forceStringNoCtx (R : Funs) (v : addr) : M string :=
  s <- forceString R v ;;
  c <- deref v ;;
  sc <- get_string c ;;
  match snd sc with
  | [] => ret s
  | p :: _ =>
      throwEvalError ("the string `" ++ fst sc
                        ++ "' is not allowed to refer to a store path (such as `"
                        ++ p ++ "')")%string
  end.

(** [EvalState::isDerivation]: is the value an attribute set whose [type]
    is the string ["derivation"]? *)
Definition EvalState_isDerivation (R : Funs) (v : addr) : M bool :=
  c <- deref v ;;
  if decide (type c <> tAttrs) then ret false
  else
    b <- get_attrs c ;;
    bs <- readBindings b ;;
    match find "type"%string bs with
    | None => ret false
    | Some i =>
        s <- forceStringNoCtx R i ;;
        ret (String.eqb s "derivation")
    end.

Definition is_absolute (path : string) : bool :=
  match path with
  | String c _ => Ascii.eqb c "/"%char
  | EmptyString => false
  end.

Definition coerceToPath (R : Funs) (v : addr) (context : PathSet)
  : M (string * PathSet) :=
  p <- r_coerceToString R v context false false ;;
  if negb (is_absolute (fst p))
  then throwEvalError ("string `" ++ fst p ++ "' doesn't represent an absolute path")%string
  else ret p.

(** ** Deep forcing *)


(** ** Calling an entry point with automatically chosen arguments *)

Fixpoint autoArgs (args : Bindings) (actualArgs : addr)
    (formals : list (Sym * DefaultValue Expr)) : M unit :=
  match formals with
  | [] => ret tt
  | (name, def2) :: rest =>
      match find name args with
      | Some j =>
          a <- deref actualArgs ;;
          b <- get_attrs a ;;
          s <- slot b name ;;
          copy s j ;;
          autoArgs args actualArgs rest
      | None =>
          match def2 with
          | NoDefaultValue =>
              throwTypeError
                ("cannot auto-call a function that has an argument without a default value (`"
                   ++ name ++ "      ')")%string
          | DefaultValue_ _ => autoArgs args actualArgs rest
          end
      end
  end.

Definition autoCallFunction (R : Funs) (args : Bindings) (fn res : addr) : M unit :=
  r_forceValue R fn ;;
  f <- deref fn ;;
  if decide (type f <> tLambda) then copy res fn
  else
    lam <- get_lambda f ;;
    match snd (fst lam) with
    | VarPat _ => copy res fn
    | AttrsPat formals _ _ =>
        actualArgs <- local ;;
        mkAttrs actualArgs ;;
        autoArgs args actualArgs formals ;;
        r_callFunction R fn actualArgs res
    end.

(** ** Constants of the base environment *)

Definition addConstant (baseEnv : eaddr) (name : string) (v : addr) : M unit :=
  E <- readEnv baseEnv ;;
  s <- slot (bindings E) name ;;
  copy s v ;;
  let name2 := strip__ name in
  bi <- slot (bindings E) "builtins"%string ;;
  c <- deref bi ;;
  b <- get_attrs c ;;
  s2 <- slot b name2 ;;
  copy s2 v.

(** The store path a source path is copied to: computed in read-only mode,
    obtained from the store otherwise. *)
Definition dstPath_of (H : Host) (path : string) : string :=
  if readOnlyMode H then computeStorePathForPath H path else addToStore H path.

(** A computation that leaves the environments as they are when it returns. *)
Definition keeps_envs {A} (m : M A) : Prop :=
  forall st a st', m st = Ok a st' -> envs st' = envs st.

(** The map [b] holds the bindings [bs], whose slots are distinct allocated
    cells. *)
Record slots_inv (st : State) (b : baddr) (bs : Bindings) : Prop := mkSlotsInv {
  si_map : maps st !! b = Some bs;
  si_nodup : NoDup (map snd bs);
  si_valid : forall c, In c (map snd bs) -> c < length (values st)
}.

(** The thunk of [e] in [env]. *)
Definition thunk (env : eaddr) (e : Expr) : Value := mkValue tThunk (uThunk env e).

(** The prefix [Select] adds to an error raised while forcing the selected
    attribute. *)
Definition attr_error_prefix (name : Sym) : string :=
  ("while evaluating the attribute `" ++ name ++ "':" ++ String (ascii_of_nat 10) EmptyString)%string.

(** The first formal that [autoCallFunction] can supply neither from [args]
    nor from a default. *)
Fixpoint auto_missing (args : Bindings) (formals : list (Sym * DefaultValue Expr))
  : option Sym :=
  match formals with
  | [] => None
  | (name, def2) :: rest =>
      match find name args, def2 with
      | None, NoDefaultValue => Some name
      | _, _ => auto_missing args rest
      end
  end.

Definition AutoCallError (name : Sym) : Error :=
  mkError cTypeError
    ("cannot auto-call a function that has an argument without a default value (`"
       ++ name ++ "      ')")%string.

End WithLayout.

Arguments funs {Ly} H fuel : simpl never.

(** A layout for running examples: the symbols are ordered by their names,
    and the tags are numbered from 1 in the order of their declaration. *)
#[global] Instance exampleLayout : Layout :=
  mkLayout String.compare
    (fun t =>
       match t with
       | tInt => 1 | tBool => 2 | tString => 3 | tPath => 4 | tNull => 5
       | tAttrs => 6 | tList => 7 | tThunk => 8 | tApp => 9 | tLambda => 10
       | tCopy => 11 | tBlackhole => 12 | tPrimOp => 13 | tPrimOpApp => 14
       end%Z).

(** * Properties of the evaluator *)

(** ** Laws of the evaluation monad *)

Section Primitives.
Context {Ly : Layout}.

Lemma bind_assoc {A B C} (m : M A) (f : A -> M B) (g : B -> M C) st :
  bind (bind m f) g st = bind m (fun x => bind (f x) g) st.
Proof. unfold bind. destruct (m st); reflexivity. Qed.

Lemma bind_ret_l {A B} (a : A) (f : A -> M B) st : bind (ret a) f st = f a st.
Proof. reflexivity. Qed.

Lemma bind_cong {A B} (m : M A) (f g : A -> M B) st :
  (forall a st', m st = Ok a st' -> f a st' = g a st') ->
  bind m f st = bind m g st.
Proof. intros Hfg. unfold bind. destruct (m st); auto. Qed.

Lemma bind_ok {A B} (m : M A) (f : A -> M B) st a st' :
  m st = Ok a st' -> bind m f st = f a st'.
Proof. intros Hm. unfold bind. now rewrite Hm. Qed.

Lemma bind_out_of_fuel {A B} (m : M A) (f : A -> M B) st :
  m st = OutOfFuel -> bind m f st = OutOfFuel.
Proof. intros Hm. unfold bind. now rewrite Hm. Qed.


(** ** Primitive steps on a symbolic store *)

Lemma funs_S H n :
  funs H (S n) = mkFuns (eval_ n (funs H n)) (callFunction_ H n (funs H n))
                        (forceValue_ (funs H n)) (coerceToString_ H (funs H n))
                        (eqValues_ (funs H n)).
Proof. reflexivity. Qed.

Lemma deref_ok a c st : values st !! a = Some c -> deref a st = Ok c st.
Proof. intros Ha. unfold deref. now rewrite Ha. Qed.

Lemma assign_ok a x st :
  a < length (values st) ->
  assign a x st = Ok tt (mkState (<[a:=x]> (values st)) (maps st) (envs st) (srcToStore st)).
Proof.
  intros Ha. unfold assign.
  destruct (decide (a < length (values st))); [reflexivity | contradiction].
Qed.

Lemma copy_ok dst src c st :
  values st !! src = Some c -> dst < length (values st) ->
  copy dst src st
    = Ok tt (mkState (<[dst:=c]> (values st)) (maps st) (envs st) (srcToStore st)).
Proof.
  intros Hs Hd. unfold copy. rewrite (bind_ok _ _ _ _ _ (deref_ok _ _ _ Hs)).
  now apply assign_ok.
Qed.

Lemma set_type_ok v t c st :
  values st !! v = Some c ->
  set_type v t st = Ok tt (mkState (<[v := mkValue t (payload c)]> (values st)) (maps st)
                                   (envs st) (srcToStore st)).
Proof.
  intros Hv. unfold set_type. rewrite (bind_ok _ _ _ _ _ (deref_ok _ _ _ Hv)).
  apply assign_ok. eapply lookup_lt_Some; eassumption.
Qed.

Lemma readBindings_ok b bs st : maps st !! b = Some bs -> readBindings b st = Ok bs st.
Proof. intros Hb. unfold readBindings. now rewrite Hb. Qed.

Lemma readEnv_ok e E st : envs st !! e = Some E -> readEnv e st = Ok E st.
Proof. intros He. unfold readEnv. now rewrite He. Qed.

Lemma allocEnv_ok st :
  allocEnv st = Ok (length (envs st))
                   (mkState (values st) (maps st ++ [[]])
                            (envs st ++ [mkEnv None (length (maps st))]) (srcToStore st)).
Proof. reflexivity. Qed.

Lemma set_up_ok e u E st :
  envs st !! e = Some E ->
  set_up e u st = Ok tt (mkState (values st) (maps st)
                                 (<[e := mkEnv u (bindings E)]> (envs st)) (srcToStore st)).
Proof. intros He. unfold set_up. now rewrite (bind_ok _ _ _ _ _ (readEnv_ok _ _ _ He)). Qed.

Lemma slot_new b (bs : Bindings) name st :
  maps st !! b = Some bs -> find name bs = None ->
  slot b name st = Ok (length (values st))
                      (mkState (values st ++ [fresh])
                               (<[b := insert_slot name (length (values st)) bs]> (maps st))
                               (envs st) (srcToStore st)).
Proof.
  intros Hb Hf. unfold slot.
  rewrite (bind_ok _ _ _ _ _ (readBindings_ok _ _ _ Hb)), Hf.
  unfold allocValues, writeBindings, bind; simpl.
  destruct (decide (b < length (maps st))) as [_|Hn]; [reflexivity|].
  exfalso. apply Hn. eapply lookup_lt_Some; eassumption.
Qed.

Lemma alloc1_fill (l : list Value) x : <[length l := x]> (l ++ [fresh]) = l ++ [x].
Proof.
  rewrite insert_app_r_alt by lia.
  replace (length l - length l) with 0 by lia. reflexivity.
Qed.

Lemma alloc2_fill (l : list Value) x y :
  <[length l + 1 := y]> (<[length l := x]> (l ++ [fresh; fresh])) = l ++ [x; y].
Proof.
  rewrite (insert_app_r_alt l _ (length l)) by lia.
  rewrite insert_app_r_alt by lia.
  replace (length l - length l) with 0 by lia.
  replace (length l + 1 - length l) with 1 by lia. reflexivity.
Qed.

Lemma uint_pred_of_nat_S n : uint_pred (N.of_nat (S n)) = N.of_nat n.
Proof. unfold uint_pred. destruct (N.eqb_spec (N.of_nat (S n)) 0); lia. Qed.

End Primitives.


(** ** Equality *)

Section Equality.
Context {Ly : Layout} (H : Host).

Lemma forceValue_forced fuel st v c :
  values st !! v = Some c ->
  type c <> tThunk -> type c <> tCopy -> type c <> tApp -> type c <> tBlackhole ->
  forceValue H (S fuel) v st = Ok tt st.
Proof.
  intros Hv H1 H2 H3 H4.
  unfold forceValue; simpl. unfold forceValue_, bind, deref. rewrite Hv.
  destruct c as [t p]; simpl in *; destruct t; first [reflexivity | congruence].
Qed.


Lemma eqElems_refl R st e todo n :
  (forall i, n <= i < n + todo -> r_eqValues R (e + i) (e + i) st = Ok true st) ->
  eqElems R e e todo n st = Ok true st.
Proof.
  revert n; induction todo as [|todo IH]; intros n Hall; simpl; [reflexivity|].
  unfold bind. rewrite Hall by lia. apply IH. intros i Hi. apply Hall. lia.
Qed.

Lemma eqAttrs_refl R st bs :
  (forall k c, In (k, c) bs -> r_eqValues R c c st = Ok true st) ->
  eqAttrs R bs bs st = Ok true st.
Proof.
  induction bs as [|[k c] bs IH]; intros Hall; simpl; [reflexivity|].
  unfold bind. rewrite (Hall k c) by (left; reflexivity).
  apply IH. intros k' c' Hin. apply (Hall k' c'). right; exact Hin.
Qed.

(** The keys of the two sets play no part in the comparison loop. *)
Lemma eqAttrs_keys_irrelevant R (i j i' j' : Bindings) :
  map snd i = map snd i' -> map snd j = map snd j' ->
  eqAttrs R i j = eqAttrs R i' j'.
Proof.
  revert j i' j'; induction i as [|[k a] i IH]; intros j i' j' Hi Hj;
    destruct i' as [|[k' a'] i']; try discriminate; [reflexivity|].
  simpl in Hi; injection Hi as -> Hi.
  destruct j as [|[l b] j], j' as [|[l' b'] j']; try discriminate; [reflexivity|].
  simpl in Hj; injection Hj as -> Hj.
  simpl. rewrite (IH j i' j' Hi Hj). reflexivity.
Qed.

Lemma eqValues_scalar st a c fuel :
  values st !! a = Some c -> scalar c ->
  eqValues H (S (S fuel)) a a st = Ok true st.
Proof.
  intros Hc Hs.
  change (eqValues H (S (S fuel)) a a st) with (eqValues_ (funs H (S fuel)) a a st).
  unfold eqValues_.
  change (r_forceValue (funs H (S fuel))) with (forceValue H (S fuel)).
  destruct c as [t p]; unfold scalar in Hs; simpl in Hs.
  destruct t; try contradiction; destruct p; try contradiction;
    unfold bind;
    rewrite (forceValue_forced fuel st a _ Hc) by discriminate;
    cbv beta iota;
    rewrite (forceValue_forced fuel st a _ Hc) by discriminate;
    cbv beta iota; unfold deref; repeat (rewrite Hc; simpl); unfold ret; f_equal.
  - apply Z.eqb_refl.
  - apply Bool.eqb_reflx.
  - apply String.eqb_refl.
  - apply String.eqb_refl.
Qed.

Lemma eqValues_plain n : forall st a fuel,
  plain st n a -> n + 2 <= fuel -> eqValues H fuel a a st = Ok true st.
Proof.
  induction n as [|n IH]; intros st a fuel Hp Hfuel;
    (destruct fuel as [|[|fuel]]; [lia | lia |]).
  - inversion Hp; subst. eapply eqValues_scalar; eassumption.
  - inversion Hp as [n' a' c Hc Hs | n' a' len elems Hc Hall | n' a' b bs Hc Hb Hall]; subst.
    + eapply eqValues_scalar; eassumption.
    + change (eqValues H (S (S fuel)) a a st) with (eqValues_ (funs H (S fuel)) a a st).
      unfold eqValues_.
      change (r_forceValue (funs H (S fuel))) with (forceValue H (S fuel)).
      unfold bind.
      rewrite (forceValue_forced fuel st a _ Hc) by discriminate.
      cbv beta iota.
      rewrite (forceValue_forced fuel st a _ Hc) by discriminate.
      cbv beta iota; unfold deref; repeat (rewrite Hc; simpl).
      rewrite Nat.eqb_refl; simpl.
      apply eqElems_refl. intros i Hi.
      change (r_eqValues (funs H (S fuel))) with (eqValues H (S fuel)).
      apply IH; [apply Hall; lia | lia].
    + change (eqValues H (S (S fuel)) a a st) with (eqValues_ (funs H (S fuel)) a a st).
      unfold eqValues_.
      change (r_forceValue (funs H (S fuel))) with (forceValue H (S fuel)).
      unfold bind.
      rewrite (forceValue_forced fuel st a _ Hc) by discriminate.
      cbv beta iota.
      rewrite (forceValue_forced fuel st a _ Hc) by discriminate.
      cbv beta iota; unfold deref; repeat (rewrite Hc; simpl).
      unfold readBindings; repeat (rewrite Hb; simpl).
      rewrite Nat.eqb_refl; simpl.
      apply eqAttrs_refl. intros k c Hin.
      change (r_eqValues (funs H (S fuel))) with (eqValues H (S fuel)).
      apply IH; [eapply Hall; eassumption | lia].
Qed.

(** C1 (the source departs from the claim): [{ a = 1; } == { b = 1; }]
    evaluates to [true].  [eqValues] compares the sizes of the two sets and
    then the values pairwise in iteration order; the keys are never
    compared, so two sets with different key sets can be equal. *)
Theorem eqValues_attrs_different_keys :
  let Ly := exampleLayout in
  returns (evalExpr H 10 (OpEq (Attrs [("a"%string, Int 1)]) (Attrs [("b"%string, Int 1)]))
             initState)
          (vBool true).
Proof. eexists. vm_compute. reflexivity. Qed.












End Equality.


(** [let v = [ 1 [ "a" ] ]; in v == v] evaluates to [true]: the elements
    are thunks when the comparison starts. *)
Example eqValues_let_list_reflexive :
  returns (evalExpr exampleHost 20
             (mkLet [("v"%string, List [Int 1; List [Str "a"%string []]])]
                    (OpEq (Var "v"%string) (Var "v"%string)))
             initState)
          (vBool true).
Proof. eexists. vm_compute. reflexivity. Qed.


(** ** Coercion of lists *)

Section Append.
Context {Ly : Layout}.

Lemma append_nil_r (s : string) : (s ++ "")%string = s.
Proof. induction s as [|c s IH]; simpl; [reflexivity | now rewrite IH]. Qed.

Lemma append_assoc (a b c : string) : ((a ++ b) ++ c)%string = (a ++ b ++ c)%string.
Proof. induction a as [|x a IH]; simpl; [reflexivity | now rewrite IH]. Qed.

End Append.

Section CoerceList.
Context {Ly : Layout} (H : Host).

Lemma coercePieces_length coerce elems : forall ctx st ps st',
  coercePieces coerce elems ctx st = Ok ps st' -> length (fst ps) = length elems.
Proof.
  induction elems as [|a rest IH]; intros ctx st ps st' Hrun; simpl in Hrun.
  - injection Hrun as <- _. reflexivity.
  - unfold bind in Hrun.
    destruct (coerce a ctx st) as [r st1| | |]; try discriminate.
    destruct (match rest with [] => ret false | _ :: _ => isEmptyList a end st1)
      as [e st2| | |]; try discriminate.
    destruct (coercePieces coerce rest (snd r) st2) as [ps' st3| | |] eqn:Hrest;
      try discriminate.
    injection Hrun as <- _. simpl. f_equal. eapply IH; eassumption.
Qed.

(** The loop of [coerceToString] over the elements, with its accumulator,
    against collecting the pieces first and joining them afterwards. *)
Lemma coerceList_join R cm cs elems len : forall todo n result ctx st,
  n + todo = len ->
  coerceList R cm cs elems len todo n result ctx st =
  (ps <- coercePieces (fun a c => r_coerceToString R a c cm cs)
           (map (fun i => elems + i) (seq n todo)) ctx ;;
   ret (result ++ join_after (fst ps), snd ps)%string) st.
Proof.
  induction todo as [|todo IH]; intros n result ctx st Hlen.
  - simpl. unfold bind, ret; simpl. now rewrite append_nil_r.
  - change (map (fun i => elems + i) (seq n (S todo)))
      with (elems + n :: map (fun i => elems + i) (seq (S n) todo)).
    cbn [coerceList coercePieces].
    rewrite bind_assoc. apply bind_cong. intros r st1 _.
    rewrite bind_assoc.
    destruct todo as [|todo].
    + destruct (decide (n < len - 1)) as [Hlt|_]; [exfalso; lia|].
      simpl. unfold bind, ret; simpl. now rewrite !append_nil_r.
    + destruct (decide (n < len - 1)) as [_|Hge]; [|exfalso; lia].
      change (map (fun i => elems + i) (seq (S n) (S todo)))
        with (elems + S n :: map (fun i => elems + i) (seq (S (S n)) todo)) in *.
      cbv beta iota. unfold isEmptyList.
      rewrite !bind_assoc. apply bind_cong. intros e st2 _.
      assert (Hsep :
        forall (b : bool) st3,
          coerceList R cm cs elems len (S todo) (S n)
            (result ++ fst r ++ (if negb b then " " else ""))%string (snd r) st3 =
          (ps <- coercePieces (fun a c => r_coerceToString R a c cm cs)
                   (elems + S n :: map (fun i => elems + i) (seq (S (S n)) todo)) (snd r) ;;
           ps' <- ret ((fst r, b) :: fst ps, snd ps) ;;
           ret (result ++ join_after (fst ps'), snd ps')%string) st3).
      { intros b st3. rewrite IH by lia.
        apply bind_cong. intros ps st4 Hps.
        apply coercePieces_length in Hps.
        destruct ps as [[|p ps] ctx']; simpl in Hps; [discriminate|].
        rewrite bind_ret_l. unfold ret; simpl. destruct p as [s' e']. f_equal. f_equal.
        rewrite !append_assoc. destruct b; reflexivity. }
      destruct (decide (type e <> tList)) as [Hnl|Hl].
      * rewrite !bind_ret_l, bind_assoc. exact (Hsep false st2).
      * rewrite !bind_assoc. apply bind_cong. intros l st3 _.
        rewrite !bind_ret_l, bind_assoc. exact (Hsep (Nat.eqb (fst l) 0) st3).
Qed.

(** C2, as amended: with [coerceMore] enabled, the coercion of a list is the
    concatenation of the coercions of its elements, taken from left to
    right, joined by a single space, except that no separator is inserted
    after an element that is an empty list: the omitted separators are
    exactly those that follow an empty-list element. *)
Theorem coerceToString_list_separators fuel st v len elems ctx copyToStore :
  values st !! v = Some (mkValue tList (uList len elems)) ->
  coerceToString H (S (S fuel)) v ctx true copyToStore st =
  (ps <- coercePieces (fun a c => coerceToString H (S fuel) a c true copyToStore)
           (map (fun i => elems + i) (seq 0 len)) ctx ;;
   ret (join_after (fst ps), snd ps)) st.
Proof.
  intros Hv.
  change (coerceToString H (S (S fuel)) v ctx true copyToStore st)
    with (coerceToString_ H (funs H (S fuel)) v ctx true copyToStore st).
  unfold coerceToString_.
  change (r_forceValue (funs H (S fuel))) with (forceValue H (S fuel)).
  rewrite (bind_ok _ _ st tt st)
    by (eapply forceValue_forced; [exact Hv | discriminate ..]).
  rewrite (bind_ok _ _ st _ st) by (unfold deref; rewrite Hv; reflexivity).
  simpl. unfold get_list; simpl. rewrite bind_ret_l; simpl.
  rewrite coerceList_join by reflexivity.
  reflexivity.
Qed.
End CoerceList.

(** C2, counterexample: the list [[ "a" [] ]] is coerced to ["a "]: the
    separator before the empty list is there.  Under the rule of the claim
    (no separator before an empty list) the result would be ["a"]. *)
Lemma coerceToString_separator_before_empty_list :
  exists s ctx st,
    coerceExpr exampleHost 10 (List [Str "a" []; List []]) true false initState = Ok (s, ctx) st /\
    s = "a "%string /\
    s <> join_before [("a"%string, false); (""%string, true)].
Proof.
  eexists _, _, _. split; [vm_compute; reflexivity|]. split; [reflexivity|].
  vm_compute. discriminate.
Qed.

Lemma coerceToString_list_separators_witness :
  let st := mkState [mkValue tList (uList 3 1); mkValue tString (uString "a" []);
                     mkValue tList (uList 0 4); mkValue tString (uString "b" [])]
                    [] [] [] in
  coerceToString exampleHost 3 0 [] true false st = Ok ("a b"%string, []) st.
Proof.
  intros st.
  rewrite (coerceToString_list_separators exampleHost 1 st 0 3 1 [] false);
    reflexivity.
Defined.

(** ** Name resolution *)

Section Chains.
Context {Ly : Layout}.

Lemma lookupRegular_chain st name : forall frames env fuel,
  env_chain st env frames -> length frames < fuel ->
  lookupRegular fuel env name st = Ok (first_regular name frames) st.
Proof.
  induction frames as [|f frames IH]; intros env fuel Hch Hfuel;
    inversion Hch as [|e E bs w fr He Hbs Hw Hup]; subst;
    (destruct fuel as [|fuel]; [simpl in Hfuel; lia|]); simpl.
  - reflexivity.
  - rewrite (bind_ok _ _ st E st) by (unfold readEnv; now rewrite He).
    rewrite (bind_ok _ _ st bs st) by (unfold readBindings; now rewrite Hbs).
    destruct (find name bs); [reflexivity|].
    apply IH; [exact Hup | simpl in Hfuel; lia].
Qed.

Lemma first_with_app name fs gs :
  first_with name (fs ++ gs) =
  match first_with name fs with
  | Some a => Some a
  | None => first_with name gs
  end.
Proof.
  induction fs as [|f fs IH]; simpl; [reflexivity|].
  destruct (fr_with f) as [ws|]; [destruct (find name ws)|]; auto.
Qed.

Lemma lookupWith_chain st name : forall frames env fuel,
  env_chain st env frames -> length frames < fuel ->
  lookupWith fuel env name st = Ok (first_with name (rev frames)) st.
Proof.
  induction frames as [|f frames IH]; intros env fuel Hch Hfuel;
    inversion Hch as [|e E bs w fr He Hbs Hw Hup]; subst;
    (destruct fuel as [|fuel]; [simpl in Hfuel; lia|]); simpl.
  - reflexivity.
  - rewrite (bind_ok _ _ st E st) by (unfold readEnv; now rewrite He).
    rewrite (bind_ok _ _ st _ st (IH (up E) fuel Hup ltac:(simpl in Hfuel; lia))).
    rewrite first_with_app. simpl.
    destruct (first_with name (rev frames)); [reflexivity|].
    rewrite (bind_ok _ _ st bs st) by (unfold readBindings; now rewrite Hbs).
    unfold with_set in Hw.
    destruct (find sWith bs) as [i|].
    + destruct Hw as (c & a & ws & Hc & Hp & Hws & ->).
      rewrite (bind_ok _ _ st c st) by (unfold deref; now rewrite Hc).
      rewrite (bind_ok _ _ st a st) by (unfold get_attrs; now rewrite Hp).
      rewrite (bind_ok _ _ st ws st) by (unfold readBindings; now rewrite Hws).
      unfold ret. destruct (find name ws); reflexivity.
    + subst w. reflexivity.
Qed.

End Chains.

Section Resolution.
Context {Ly : Layout} (H : Host).

(** C4: [lookupVar] returns the first regular binding found walking up the
    chain; only when there is none does it consult the [with] frames, the
    outermost first; when no frame has the name it fails with
    [UndefinedVariable].  In particular [with {x=1;}; with {x=2;}; x] is 1
    and [let x = a; in let x = b; in x] is [b]. *)
Theorem lookupVar_resolves st env frames name fuel :
  env_chain st (Some env) frames ->
  length frames < fuel ->
  lookupVar fuel env name st =
    match resolve name frames with
    | Some a => Ok a st
    | None => Throw (UndefinedVariable name) st
    end
  /\ (let Ly := exampleLayout in
      returns (evalExpr H 20
                 (With (Attrs [("x"%string, Int 1)])
                    (With (Attrs [("x"%string, Int 2)]) (Var "x"%string)))
                 initState)
              (vInt 1))
  /\ (let Ly := exampleLayout in
      forall (a : Expr) (b : Z),
        returns (evalExpr H 30
                   (mkLet [("x"%string, a)]
                      (mkLet [("x"%string, Int b)] (Var "x"%string)))
                   initState)
                (vInt b)).
Proof.
  intros Hch Hfuel. split; [|split].
  - unfold lookupVar, resolve.
    rewrite (bind_ok _ _ st _ st (lookupRegular_chain st name _ _ _ Hch Hfuel)).
    destruct (first_regular name frames); [reflexivity|].
    rewrite (bind_ok _ _ st _ st (lookupWith_chain st name _ _ _ Hch Hfuel)).
    destruct (first_with name (rev frames)); reflexivity.
  - eexists. vm_compute. reflexivity.
  - intros a b. eexists. vm_compute. reflexivity.
Qed.
End Resolution.

Lemma lookupVar_resolves_witness :
  lookupVar 2 baseEnv "__add"%string initState = Ok 2 initState.
Proof.
  refine (proj1 (lookupVar_resolves exampleHost initState baseEnv
                   [mkFrame [("__add"%string, 2); ("builtins"%string, 0)] None]
                   "__add"%string 2 _ _)).
  - eapply chain_cons; [reflexivity | reflexivity | reflexivity | apply chain_nil].
  - simpl. lia.
Defined.

(** ** The attribute existence test *)

Section HasAttr.
Context {Ly : Layout} (H : Host).

(** C10: [e ? name] evaluates [e], demands an attribute set and stores the
    Boolean "[name] is among the keys"; apart from the result cell the store
    is the one left by evaluating and forcing [e], so no attribute value is
    forced.  For every expression [d], also one whose evaluation fails,
    [{ a = d; } ? a] is [true] and leaves [a] bound to the unevaluated thunk
    of [d]; selecting [a] instead raises the error of [d]. *)
Theorem hasAttr_only_tests_the_key fuel env e1 name v st vAttrs st0 st1 st2 b
    (bs : Bindings) :
  local st = Ok vAttrs st0 ->
  eval H fuel env e1 vAttrs st0 = Ok tt st1 ->
  forceValue H fuel vAttrs st1 = Ok tt st2 ->
  values st2 !! vAttrs = Some (mkValue tAttrs (uAttrs b)) ->
  maps st2 !! b = Some bs ->
  v < length (values st2) ->
  eval H (S fuel) env (OpHasAttr e1 name) v st =
    Ok tt (mkState (<[v := vBool (bool_decide (is_Some (find name bs)))]> (values st2))
                   (maps st2) (envs st2) (srcToStore st2))
  /\ (let Ly := exampleLayout in
      forall d : Expr,
        exists st',
          evalExpr H 10 (OpHasAttr (Attrs [("a"%string, d)]) "a"%string) initState
            = Ok (vBool true) st' /\
          attr_cell st' 5 "a"%string = Some (mkValue tThunk (uThunk baseEnv d)))
  /\ (let Ly := exampleLayout in
      exists err st',
        evalExpr H 10
          (Select (Attrs [("a"%string, Assert (OpEq (Int 1) (Int 2)) (Int 1) "p"%string)])
                  "a"%string)
          initState = Throw err st').
Proof.
  intros Hl He Hf Hv Hb Hlt. split; [|split].
  - change (eval H (S fuel)) with (eval_ fuel (funs H fuel)).
    cbn [eval_].
    rewrite (bind_ok _ _ _ _ _ Hl).
    change (r_eval (funs H fuel)) with (eval H fuel).
    rewrite (bind_ok _ _ _ _ _ He).
    unfold forceAttrs.
    change (r_forceValue (funs H fuel)) with (forceValue H fuel).
    rewrite bind_assoc, (bind_ok _ _ _ _ _ Hf).
    rewrite bind_assoc, (bind_ok _ _ _ _ _ (deref_ok _ _ _ Hv)).
    simpl. rewrite bind_ret_l.
    rewrite (bind_ok _ _ _ _ _ (deref_ok _ _ _ Hv)).
    unfold get_attrs; simpl. rewrite bind_ret_l.
    rewrite (bind_ok _ _ _ _ _ (readBindings_ok _ _ _ Hb)).
    unfold mkBool. now rewrite assign_ok.
  - intros d. eexists. split; vm_compute; reflexivity.
  - eexists _, _. vm_compute. reflexivity.
Qed.
End HasAttr.

Lemma hasAttr_only_tests_the_key_witness :
  exists st',
    eval exampleHost 4 baseEnv (OpHasAttr (Attrs [("a"%string, Int 1)]) "b"%string) 0
         initState = Ok tt st' /\
    values st' !! 0 = Some (vBool false).
Proof.
  eexists. split.
  - refine (proj1 (hasAttr_only_tests_the_key exampleHost 3 baseEnv
                     (Attrs [("a"%string, Int 1)]) "b"%string 0 initState
                     _ _ _ _ _ [("a"%string, 5)] _ _ _ _ _ _));
      try (vm_compute; reflexivity).
    vm_compute. lia.
  - reflexivity.
Defined.

(** ** Application of built-ins *)

Section Currying.
Context {Ly : Layout} (H : Host).

Lemma findPrimOp_chain st p arity fn args :
  primop_chain st p arity fn args ->
  forall fuel, length args < fuel ->
  exists root,
    findPrimOp fuel fn st = Ok root st /\
    values st !! root = Some (mkValue tPrimOp (uPrimOp p arity)).
Proof.
  induction 1 as [v Hv | v l r args Hv Hlt Hch IH]; intros fuel Hfuel;
    (destruct fuel as [|fuel]; [exfalso; simpl in Hfuel; lia|]); simpl.
  - exists v. rewrite (bind_ok _ _ _ _ _ (deref_ok _ _ _ Hv)). simpl. auto.
  - rewrite (bind_ok _ _ _ _ _ (deref_ok _ _ _ Hv)). simpl.
    unfold get_primOpApp; simpl. rewrite bind_ret_l. simpl.
    apply IH. rewrite length_app in Hfuel. simpl in Hfuel. lia.
Qed.

Lemma gatherArgs_chain st p arity fn args :
  primop_chain st p arity fn args ->
  forall fuel pre post, length args < fuel -> length pre = length args ->
  gatherArgs fuel fn (uint_pred (N.of_nat (length args))) (pre ++ post) st
    = Ok (map Some args ++ post) st.
Proof.
  induction 1 as [v Hv | v l r args Hv Hlt Hch IH]; intros fuel pre post Hfuel Hpre;
    (destruct fuel as [|fuel]; [exfalso; simpl in Hfuel; lia|]); simpl.
  - rewrite (bind_ok _ _ _ _ _ (deref_ok _ _ _ Hv)). simpl.
    destruct pre; [reflexivity | discriminate].
  - rewrite (bind_ok _ _ _ _ _ (deref_ok _ _ _ Hv)). simpl.
    unfold get_primOpApp; simpl. rewrite bind_ret_l. simpl.
    rewrite length_app in Hfuel, Hpre |- *. simpl in Hfuel, Hpre |- *.
    replace (length args + 1) with (S (length args)) in * by lia.
    rewrite uint_pred_of_nat_S.
    induction pre as [|x pre' _] using rev_ind; [simpl in Hpre; lia|].
    rewrite length_app in Hpre; simpl in Hpre.
    unfold store_arg. rewrite Nat2N.id.
    destruct (decide (length args < length ((pre' ++ [x]) ++ post))) as [_|Hn];
      [|exfalso; apply Hn; rewrite !length_app; simpl; lia].
    rewrite bind_ret_l.
    rewrite <- (app_assoc pre' [x] post).
    replace (<[length args := Some r]> (pre' ++ [x] ++ post))
      with (pre' ++ Some r :: post)
      by (rewrite insert_app_r_alt by lia;
          replace (length args - length pre') with 0 by lia; reflexivity).
    rewrite (IH fuel pre' (Some r :: post)) by lia.
    rewrite map_app. simpl. now rewrite <- app_assoc.
Qed.

Lemma initialised_some args : forall st, initialised (map Some args) st = Ok args st.
Proof.
  induction args as [|a args IH]; intros st; simpl; [reflexivity|].
  rewrite (bind_ok _ _ _ _ _ (IH st)). reflexivity.
Qed.

Lemma primop_chain_argsLeft st p arity fn args :
  primop_chain st p arity fn args ->
  exists c, values st !! fn = Some c /\ is_primop_cell c /\
    (if decide (type c = tPrimOp)
     then p0 <- get_primOp c ;; ret (snd p0)
     else p0 <- get_primOpApp c ;; ret (snd p0)) st
    = Ok (arity - N.of_nat (length args))%N st.
Proof.
  destruct 1 as [v Hv | v l r args Hv Hlt Hch]; eexists; (split; [exact Hv|]); split.
  - left; reflexivity.
  - unfold bind, get_primOp, ret; simpl. f_equal. lia.
  - right; reflexivity.
  - unfold bind, get_primOpApp, ret; simpl. f_equal. rewrite length_app. simpl. lia.
Qed.

Lemma callFunction_saturated st p arity fn args arg v fuel :
  primop_chain st p arity fn args ->
  N.of_nat (length args + 1) = arity ->
  length args < fuel ->
  callFunction H (S fuel) fn arg v st = primOpFun H p (funs H fuel) (args ++ [arg]) v st.
Proof.
  intros Hch Har Hfuel.
  change (callFunction H (S fuel)) with (callFunction_ H fuel (funs H fuel)).
  unfold callFunction_.
  destruct (primop_chain_argsLeft _ _ _ _ _ Hch) as (c & Hc & Hpc & Hleft).
  rewrite (bind_ok _ _ _ _ _ (deref_ok _ _ _ Hc)).
  destruct (decide (type c = tPrimOp \/ type c = tPrimOpApp)) as [_|Hn]; [|contradiction].
  rewrite (bind_ok _ _ _ _ _ Hleft).
  replace (arity - N.of_nat (length args))%N with 1%N by lia. simpl.
  destruct (findPrimOp_chain _ _ _ _ _ Hch fuel Hfuel) as (root & Hfind & Hroot).
  rewrite (bind_ok _ _ _ _ _ Hfind).
  rewrite (bind_ok _ _ _ _ _ (deref_ok _ _ _ Hroot)). simpl.
  rewrite bind_ret_l. unfold get_primOp; simpl. rewrite bind_ret_l. simpl.
  subst arity. replace (length args + 1) with (S (length args)) by lia.
  rewrite uint_pred_of_nat_S, Nat2N.id.
  unfold store_arg. rewrite Nat2N.id, length_replicate.
  destruct (decide (length args < S (length args))) as [_|Hn]; [|exfalso; lia].
  rewrite bind_ret_l.
  replace (replicate (S (length args)) (@None addr))
    with (replicate (length args) (@None addr) ++ [None])
    by (rewrite <- replicate_S_end; reflexivity).
  replace (<[length args := Some arg]> (replicate (length args) (@None addr) ++ [None]))
    with (replicate (length args) (@None addr) ++ [Some arg])
    by (rewrite insert_app_r_alt by (rewrite length_replicate; lia);
        rewrite length_replicate;
        replace (length args - length args) with 0 by lia; reflexivity).
  rewrite (bind_ok _ _ _ _ _
             (gatherArgs_chain _ _ _ _ _ Hch fuel _ [Some arg] Hfuel
                (length_replicate _ _))).
  replace (map Some args ++ [Some arg]) with (map Some (args ++ [arg]))
    by (rewrite map_app; reflexivity).
  rewrite (bind_ok _ _ _ _ _ (initialised_some _ _)).
  reflexivity.
Qed.

Lemma primop_chain_preserved st st' p arity fn args :
  (forall (c : addr) x,
      values st !! c = Some x -> is_primop_cell x -> values st' !! c = Some x) ->
  primop_chain st p arity fn args -> primop_chain st' p arity fn args.
Proof.
  intros Hpres. induction 1 as [v Hv | v l r args Hv Hlt Hch IH].
  - apply pc_root. apply Hpres; [exact Hv | left; reflexivity].
  - eapply pc_app; [| exact Hlt | exact IH].
    apply Hpres; [exact Hv | right; reflexivity].
Qed.

Lemma callFunction_partial st p arity fn args arg a v c0 fuel :
  primop_chain st p arity fn args ->
  (N.of_nat (length args + 1) < arity)%N ->
  values st !! arg = Some a ->
  values st !! v = Some c0 -> ~ is_primop_cell c0 ->
  exists st',
    callFunction H (S fuel) fn arg v st = Ok tt st' /\
    values st' !! v
      = Some (mkValue tPrimOpApp
                (uPrimOpApp (length (values st)) (length (values st) + 1)
                   (arity - N.of_nat (length args + 1)))) /\
    values st' !! length (values st) = values st !! fn /\
    values st' !! (length (values st) + 1) = Some a /\
    primop_chain st' p arity v (args ++ [length (values st) + 1]).
Proof.
  intros Hch Har Harg Hv Hnp.
  destruct (primop_chain_argsLeft _ _ _ _ _ Hch) as (c & Hc & Hpc & Hleft).
  pose proof (lookup_lt_Some _ _ _ Hc) as Hfn_lt.
  pose proof (lookup_lt_Some _ _ _ Harg) as Harg_lt.
  pose proof (lookup_lt_Some _ _ _ Hv) as Hv_lt.
  set (L := length (values st)) in *.
  set (new := mkValue tPrimOpApp (uPrimOpApp L (L + 1) (arity - N.of_nat (length args + 1)))).
  exists (mkState (<[v := new]> (values st ++ [c; a])) (maps st) (envs st) (srcToStore st)).
  assert (Hpres : forall (i : addr) x, values st !! i = Some x -> is_primop_cell x ->
                    (<[v := new]> (values st ++ [c; a])) !! i = Some x).
  { intros i x Hi Hx.
    rewrite list_lookup_insert_ne
      by (intros E; rewrite E in Hv; rewrite Hv in Hi; injection Hi as <-; contradiction).
    now apply lookup_app_l_Some. }
  split; [|split; [|split; [|split]]]; simpl.
  - change (callFunction H (S fuel)) with (callFunction_ H fuel (funs H fuel)).
    unfold callFunction_.
    rewrite (bind_ok _ _ _ _ _ (deref_ok _ _ _ Hc)).
    destruct (decide (type c = tPrimOp \/ type c = tPrimOpApp)) as [_|Hn]; [|contradiction].
    rewrite (bind_ok _ _ _ _ _ Hleft).
    destruct (N.eqb_spec (arity - N.of_nat (length args)) 1) as [E|_]; [exfalso; lia|].
    unfold allocValues at 1. unfold bind at 1. cbv beta iota. fold L.
    erewrite bind_ok;
      [| apply copy_ok with (c := c); simpl;
         [now apply lookup_app_l_Some | rewrite length_app; simpl; fold L; lia]].
    erewrite bind_ok;
      [| apply copy_ok with (c := a); simpl;
         [ rewrite list_lookup_insert_ne by (fold L; lia); now apply lookup_app_l_Some
         | rewrite length_insert, length_app; simpl; fold L; lia]].
    rewrite assign_ok by (simpl; rewrite !length_insert, length_app; simpl; lia).
    simpl. unfold L. rewrite alloc2_fill. fold L.
    f_equal. f_equal. f_equal. unfold new. f_equal. f_equal.
    unfold uint_pred. destruct (N.eqb_spec (arity - N.of_nat (length args)) 0); lia.
  - apply list_lookup_insert_eq. rewrite length_app; simpl. lia.
  - rewrite list_lookup_insert_ne by (fold L; lia).
    rewrite Hc. unfold L. apply list_lookup_middle. reflexivity.
  - rewrite list_lookup_insert_ne by (fold L; lia).
    unfold L. change (values st ++ [c; a]) with (values st ++ c :: [a]).
    rewrite cons_middle, app_assoc.
    rewrite lookup_app_r by (rewrite length_app; simpl; lia).
    rewrite length_app; simpl. replace (_ - _) with 0 by lia. reflexivity.
  - eapply pc_app.
    + simpl. apply list_lookup_insert_eq. rewrite length_app; simpl. lia.
    + exact Har.
    + destruct Hch as [fn Hroot | fn l r args Hfn Hlt Hsub].
      * apply pc_root. simpl.
        rewrite list_lookup_insert_ne by (fold L; lia).
        rewrite Hroot in Hc. injection Hc as <-.
        apply list_lookup_middle. reflexivity.
      * eapply pc_app; [| exact Hlt |].
        -- simpl. rewrite list_lookup_insert_ne by (fold L; lia).
           rewrite Hfn in Hc. injection Hc as <-.
           apply list_lookup_middle. reflexivity.
        -- eapply primop_chain_preserved; [| exact Hsub]. simpl. exact Hpres.
Qed.

(** C7: applying a built-in of arity [arity] to its arguments one at a time.
    While more than one argument is missing, [callFunction] stores a partial
    application over copies of the function and of the argument, with the
    count of missing arguments decremented, and the result is again a chain
    of applications.  When the last argument arrives the built-in is invoked
    on the arguments in the order they were supplied, leftmost first.  For a
    binary built-in this gives [p a b = (p a) b]: the second application
    invokes [p] on the copy of [a] and on [b]. *)
Theorem callFunction_curries st p arity fn args arg a v c0 fuel :
  primop_chain st p arity fn args ->
  values st !! arg = Some a ->
  values st !! v = Some c0 -> ~ is_primop_cell c0 ->
  length args < fuel ->
  ((N.of_nat (length args + 1) < arity)%N ->
   exists st',
     callFunction H (S fuel) fn arg v st = Ok tt st' /\
     values st' !! v
       = Some (mkValue tPrimOpApp
                 (uPrimOpApp (length (values st)) (length (values st) + 1)
                    (arity - N.of_nat (length args + 1)))) /\
     values st' !! length (values st) = values st !! fn /\
     values st' !! (length (values st) + 1) = Some a /\
     primop_chain st' p arity v (args ++ [length (values st) + 1])) /\
  (N.of_nat (length args + 1) = arity ->
   callFunction H (S fuel) fn arg v st
     = primOpFun H p (funs H fuel) (args ++ [arg]) v st) /\
  (arity = 2%N -> args = [] ->
   exists st',
     callFunction H (S fuel) fn arg v st = Ok tt st' /\
     values st' !! (length (values st) + 1) = Some a /\
     forall b out,
       callFunction H (S (S fuel)) v b out st'
         = primOpFun H p (funs H (S fuel)) [length (values st) + 1; b] out st').
Proof.
  intros Hch Harg Hv Hnp Hfuel. split; [|split].
  - intros Har.
    exact (callFunction_partial st p arity fn args arg a v c0 fuel Hch Har Harg Hv Hnp).
  - intros Har.
    exact (callFunction_saturated st p arity fn args arg v fuel Hch Har Hfuel).
  - intros -> ->.
    destruct (callFunction_partial st p 2 fn [] arg a v c0 fuel Hch ltac:(simpl; lia)
                Harg Hv Hnp) as (st' & Hrun & _ & _ & Ha & Hch').
    exists st'. split; [exact Hrun|]. split; [exact Ha|].
    intros b out.
    apply (callFunction_saturated st' p 2 v [length (values st) + 1] b out (S fuel) Hch');
      simpl; lia.
Qed.
End Currying.

Lemma callFunction_curries_witness :
  let st := mkState [mkValue tPrimOp (uPrimOp "prim_add"%string 2); vInt 1; fresh] [] [] [] in
  exists st',
    callFunction exampleHost 2 0 1 2 st = Ok tt st' /\
    values st' !! 2 = Some (mkValue tPrimOpApp (uPrimOpApp 3 4 1)).
Proof.
  intros st.
  assert (Hch : primop_chain st "prim_add"%string 2 0 []) by (apply pc_root; reflexivity).
  assert (Hnp : ~ is_primop_cell fresh) by (intros [E|E]; discriminate E).
  assert (Hfuel : length (@nil addr) < 1) by (simpl; lia).
  destruct (proj1 (callFunction_curries exampleHost st "prim_add"%string 2 0 [] 1 (vInt 1) 2
                     fresh 1 Hch eq_refl eq_refl Hnp Hfuel) ltac:(simpl; lia))
    as (st' & Hrun & Hout & _).
  exists st'. split; [exact Hrun | exact Hout].
Defined.

(** ** Bindings *)

Section Formals.
Context {Ly : Layout}.

Lemma find_insert_slot_ne name name' a bs :
  name <> name' -> find name (insert_slot name' a bs) = find name bs.
Proof.
  intros Hne. induction bs as [|[k x] bs IH]; simpl.
  - destruct (String.eqb_spec name' name); [congruence | reflexivity].
  - destruct (symCompare name' k); simpl;
      try (destruct (String.eqb_spec k name); [reflexivity | exact IH]).
    destruct (String.eqb_spec name' name); [congruence | reflexivity].
Qed.

Lemma find_insert_slot_eq name a bs :
  find name bs = None -> find name (insert_slot name a bs) = Some a.
Proof.
  induction bs as [|[k x] bs IH]; simpl; intros Hnone.
  - now rewrite String.eqb_refl.
  - destruct (String.eqb_spec k name); [discriminate|].
    destruct (symCompare name k); simpl.
    + destruct (String.eqb_spec k name); [contradiction | auto].
    + now rewrite String.eqb_refl.
    + destruct (String.eqb_spec k name); [contradiction | auto].
Qed.

Lemma in_insert_slot name a bs x :
  In x (map snd (insert_slot name a bs)) <-> x = a \/ In x (map snd bs).
Proof.
  induction bs as [|[k y] bs IH]; simpl.
  - split; [intros [->|[]]; now left | intros [->|[]]; now left].
  - destruct (symCompare name k).
    + simpl. rewrite IH. split; intros [?|[?|?]]; subst; auto.
    + simpl. split; intros [?|[?|?]]; subst; auto.
    + simpl. rewrite IH. split; intros [?|[?|?]]; subst; auto.
Qed.

Lemma NoDup_insert_slot name a bs :
  ~ In a (map snd bs) -> NoDup (map snd bs) -> NoDup (map snd (insert_slot name a bs)).
Proof.
  induction bs as [|[k y] bs IH]; simpl; intros Hin Hnd.
  - apply NoDup_singleton.
  - apply NoDup_cons in Hnd as [Hy Hnd].
    assert (Hrec : NoDup (y :: map snd (insert_slot name a bs))).
    { apply NoDup_cons. split.
      - rewrite list_elem_of_In, in_insert_slot. rewrite list_elem_of_In in Hy. intuition.
      - apply IH; intuition. }
    destruct (symCompare name k); simpl; try exact Hrec.
    apply NoDup_cons. split; [rewrite list_elem_of_In; simpl; intuition|].
    apply NoDup_cons. split; assumption.
Qed.

Lemma find_In name a bs : find name bs = Some a -> In a (map snd bs).
Proof.
  induction bs as [|[k x] bs IH]; simpl; [discriminate|].
  destruct (String.eqb k name); [intros [= ->]; now left | intros Hf; right; auto].
Qed.

Lemma find_inj n1 n2 a bs :
  NoDup (map snd bs) -> find n1 bs = Some a -> find n2 bs = Some a -> n1 = n2.
Proof.
  induction bs as [|[k x] bs IH]; simpl; [discriminate|].
  intros Hnd H1 H2. apply NoDup_cons in Hnd as [Hx Hnd].
  rewrite list_elem_of_In in Hx.
  destruct (String.eqb_spec k n1), (String.eqb_spec k n2).
  - congruence.
  - injection H1 as ->. apply find_In in H2. contradiction.
  - injection H2 as ->. apply find_In in H1. contradiction.
  - auto.
Qed.

(** ** Binding formals *)

Lemma env_binds_eq st env E (bs : Bindings) name :
  envs st !! env = Some E -> maps st !! bindings E = Some bs ->
  env_binds st env name = match find name bs with Some i => values st !! i | None => None end.
Proof. intros He Hb. unfold env_binds. now rewrite He, Hb. Qed.

(** Writing [X] into the slot of [name] in the new environment. *)
Lemma bind_name_step st arg env2 ab abs b2 bs2 name X :
  formals_inv st arg env2 ab abs b2 bs2 ->
  exists st1 bs2',
    (v <- slot b2 name ;; assign v X) st = Ok tt st1 /\
    formals_inv st1 arg env2 ab abs b2 bs2' /\
    env_binds st1 env2 name = Some X /\
    (forall name', name' <> name -> env_binds st1 env2 name' = env_binds st env2 name').
Proof.
  intros [Harg Habs (E2 & HE2 & HbE) Hne Hbs2 Hnotin Hnd Hvalid].
  unfold slot. rewrite bind_assoc, (bind_ok _ _ _ _ _ (readBindings_ok _ _ _ Hbs2)).
  destruct (find name bs2) as [a|] eqn:Hfind.
  - pose proof (find_In _ _ _ Hfind) as Hin.
    rewrite bind_ret_l, assign_ok by (now apply Hvalid).
    eexists _, bs2. split; [reflexivity|]. split; [|split].
    + constructor; simpl; try assumption.
      * rewrite list_lookup_insert_ne by (intros ->; contradiction). exact Harg.
      * now exists E2.
      * intros c Hc. rewrite length_insert. now apply Hvalid.
    + rewrite (env_binds_eq _ _ E2 bs2) by (simpl; congruence).
      rewrite Hfind. simpl. apply list_lookup_insert_eq. now apply Hvalid.
    + intros name' Hn'.
      rewrite (env_binds_eq _ _ E2 bs2), (env_binds_eq st _ E2 bs2) by (simpl; congruence).
      destruct (find name' bs2) as [a'|] eqn:Hfind'; [|reflexivity].
      simpl. apply list_lookup_insert_ne. intros ->.
      apply Hn'. eapply find_inj; eassumption.
  - pose proof (lookup_lt_Some _ _ _ Hbs2) as Hb2_lt.
    pose proof (lookup_lt_Some _ _ _ Harg) as Harg_lt.
    assert (Hfresh : ~ In (length (values st)) (map snd bs2))
      by (intros Hin; apply Hvalid in Hin; lia).
    rewrite bind_assoc. unfold allocValues at 1. unfold bind at 1. cbv beta iota.
    rewrite bind_assoc.
    unfold writeBindings at 1. unfold bind at 1. simpl.
    destruct (decide (b2 < length (maps st))) as [_|Hn]; [|contradiction].
    rewrite bind_ret_l.
    rewrite assign_ok by (simpl; rewrite length_app; simpl; lia).
    simpl. rewrite alloc1_fill.
    eexists _, (insert_slot name (length (values st)) bs2).
    split; [reflexivity|]. split; [|split].
    + constructor; simpl.
      * now apply lookup_app_l_Some.
      * rewrite list_lookup_insert_ne by exact Hne. exact Habs.
      * now exists E2.
      * exact Hne.
      * now apply list_lookup_insert_eq.
      * rewrite in_insert_slot. intros [->|Hin]; [lia | contradiction].
      * now apply NoDup_insert_slot.
      * intros c. rewrite in_insert_slot, length_app. simpl.
        intros [->|Hin]; [lia | apply Hvalid in Hin; lia].
    + rewrite (env_binds_eq _ _ E2 (insert_slot name (length (values st)) bs2)).
      * rewrite find_insert_slot_eq by exact Hfind. simpl.
        apply list_lookup_middle. reflexivity.
      * exact HE2.
      * simpl. rewrite HbE. now apply list_lookup_insert_eq.
    + intros name' Hn'.
      rewrite (env_binds_eq _ _ E2 (insert_slot name (length (values st)) bs2));
        [| exact HE2 | simpl; rewrite HbE; now apply list_lookup_insert_eq].
      rewrite (env_binds_eq st _ E2 bs2) by congruence.
      rewrite find_insert_slot_ne by exact Hn'.
      destruct (find name' bs2) as [a'|] eqn:Hfind'; [|reflexivity].
      simpl. apply lookup_app_l. apply Hvalid. eapply find_In; eassumption.
Qed.

Lemma slot_total st arg env2 ab abs b2 bs2 name :
  formals_inv st arg env2 ab abs b2 bs2 ->
  exists v st1, slot b2 name st = Ok v st1.
Proof.
  intros Hinv.
  destruct (bind_name_step st arg env2 ab abs b2 bs2 name fresh Hinv)
    as (st1 & bs2' & Hrun & _).
  unfold bind in Hrun. destruct (slot b2 name st) as [v st0| | |]; try discriminate.
  eauto.
Qed.

Lemma bindFormals_spec R arg env2 ab abs b2 : forall formals st bs2 used,
  formals_inv st arg env2 ab abs b2 bs2 ->
  NoDup (map fst formals) ->
  match first_missing abs formals with
  | Some name =>
      exists st', bindFormals R arg env2 formals used st = Throw (MissingArgument name) st'
  | None =>
      exists st' bs2',
        bindFormals R arg env2 formals used st
          = Ok (used + count_present abs formals) st' /\
        formals_inv st' arg env2 ab abs b2 bs2' /\
        (forall f, In f formals -> env_binds st' env2 (fst f) = formal_binding env2 abs f) /\
        (forall name', ~ In name' (map fst formals) ->
                       env_binds st' env2 name' = env_binds st env2 name')
  end.
Proof.
  induction formals as [|[name def2] rest IH]; intros st bs2 used Hinv Hnd.
  - simpl. exists st, bs2. split; [f_equal; lia|]. split; [exact Hinv|].
    split; [intros f [] | reflexivity].
  - simpl in Hnd. apply NoDup_cons in Hnd as [Hname Hnd].
    rewrite list_elem_of_In in Hname.
    pose proof Hinv as [Harg Habs (E2 & HE2 & HbE) _ _ _ _ _].
    cbn [bindFormals first_missing count_present fst snd].
    rewrite (bind_ok _ _ _ _ _ (deref_ok _ _ _ Harg)).
    unfold get_attrs; cbn [payload]. rewrite bind_ret_l.
    rewrite (bind_ok _ _ _ _ _ (readBindings_ok _ _ _ Habs)).
    rewrite (bind_ok _ _ _ _ _ (readEnv_ok _ _ _ HE2)).
    rewrite HbE.
    assert (Hstep : forall X used',
      formal_binding env2 abs (name, def2) = Some X ->
      match first_missing abs rest with
      | Some name0 =>
          exists st',
            (v <- slot b2 name ;; assign v X ;; bindFormals R arg env2 rest used') st
              = Throw (MissingArgument name0) st'
      | None =>
          exists st' bs2',
            (v <- slot b2 name ;; assign v X ;; bindFormals R arg env2 rest used') st
              = Ok (used' + count_present abs rest) st' /\
            formals_inv st' arg env2 ab abs b2 bs2' /\
            (forall f, In f ((name, def2) :: rest) ->
                       env_binds st' env2 (fst f) = formal_binding env2 abs f) /\
            (forall name', ~ In name' (name :: map fst rest) ->
                           env_binds st' env2 name' = env_binds st env2 name')
      end).
    { intros X used' HX.
      destruct (bind_name_step st arg env2 ab abs b2 bs2 name X Hinv)
        as (st1 & bs2' & Hrun & Hinv1 & Hbound & Hother).
      assert (Hrw : forall k : M nat,
                (v <- slot b2 name ;; assign v X ;; k) st = k st1).
      { intros k.
        transitivity (((v <- slot b2 name ;; assign v X) ;; k) st);
          [now rewrite bind_assoc | now rewrite (bind_ok _ _ _ _ _ Hrun)]. }
      rewrite Hrw.
      specialize (IH st1 bs2' used' Hinv1 Hnd).
      destruct (first_missing abs rest) as [name0|]; [exact IH|].
      destruct IH as (st' & bs2'' & Hrest & Hinv' & Hbinds & Hkeep).
      exists st', bs2''. split; [exact Hrest|]. split; [exact Hinv'|]. split.
      - intros f [<-|Hin].
        + simpl. rewrite (Hkeep name Hname), Hbound. now rewrite HX.
        + now apply Hbinds.
      - intros name' Hn'. simpl in Hn'.
        rewrite Hkeep by intuition. apply Hother. intuition. }
    unfold formal_binding in *. cbn [fst snd] in *.
    destruct (find name abs) as [jv|].
    + specialize (Hstep _ (S used) eq_refl).
      unfold mkCopy.
      destruct (first_missing abs rest) as [name0|]; [exact Hstep|].
      destruct Hstep as (st' & bs2' & Hrun & Hrest).
      exists st', bs2'. split; [|exact Hrest].
      rewrite Hrun. f_equal. lia.
    + destruct def2 as [|d].
      * destruct (slot_total st arg env2 ab abs b2 bs2 name Hinv) as (v & st1 & Hslot).
        exists st1. now rewrite (bind_ok _ _ _ _ _ Hslot).
      * specialize (Hstep _ used eq_refl).
        unfold mkThunk.
        destruct (first_missing abs rest) as [name0|]; [exact Hstep|].
        destruct Hstep as (st' & bs2' & Hrun & Hrest).
        exists st', bs2'. split; [|exact Hrest].
        rewrite Hrun. f_equal.
Qed.

(** C9: binding the formals of an attribute-set pattern.  A formal found in
    the argument is bound to an indirection ([tCopy]) to that attribute; a
    formal that is absent but has a default is bound to a thunk of the
    default in the new environment [env2], the one that holds the sibling
    formals; the first formal with neither makes the call fail with
    [MissingArgument].  In particular [({ x, y ? x + 1 }: y) { x = 10; }]
    evaluates to 11, and without the default the call fails. *)
Theorem bindFormals_binds_each_formal R arg env2 ab abs b2 formals st bs2 used :
  formals_inv st arg env2 ab abs b2 bs2 ->
  NoDup (map fst formals) ->
  (forall name, first_missing abs formals = Some name ->
     exists st',
       bindFormals R arg env2 formals used st = Throw (MissingArgument name) st') /\
  (first_missing abs formals = None ->
     exists st',
       bindFormals R arg env2 formals used st
         = Ok (used + count_present abs formals) st' /\
       forall f, In f formals -> env_binds st' env2 (fst f) = formal_binding env2 abs f) /\
  let Ly := exampleLayout in
  returns (evalExpr exampleHost 20
             (Call (Function
                      (AttrsPat [("x"%string, NoDefaultValue);
                                 ("y"%string, DefaultValue_ (opPlus (Var "x"%string) (Int 1)))]
                                false sNoAlias)
                      (Var "y"%string))
                   (Attrs [("x"%string, Int 10)]))
             initState)
          (vInt 11) /\
  (exists st',
     evalExpr exampleHost 20
       (Call (Function
                (AttrsPat [("x"%string, NoDefaultValue); ("y"%string, NoDefaultValue)]
                          false sNoAlias)
                (Var "x"%string))
             (Attrs [("x"%string, Int 10)]))
       initState = Throw (MissingArgument "y"%string) st').
Proof.
  intros Hinv Hnd.
  pose proof (bindFormals_spec R arg env2 ab abs b2 formals st bs2 used Hinv Hnd) as Hspec.
  split; [|split; [|split]].
  - intros name Hmiss. rewrite Hmiss in Hspec. exact Hspec.
  - intros Hnone. rewrite Hnone in Hspec.
    destruct Hspec as (st' & bs2' & Hrun & _ & Hbinds & _).
    exists st'. split; assumption.
  - eexists. vm_compute. reflexivity.
  - eexists. vm_compute. reflexivity.
Qed.

End Formals.

Lemma bindFormals_binds_each_formal_witness :
  let st := mkState [mkValue tAttrs (uAttrs 0); vInt 10] [[("x"%string, 1)]; []]
                    [mkEnv None 1] [] in
  let formals := [("x"%string, NoDefaultValue);
                  ("y"%string, DefaultValue_ (Var "x"%string))] in
  exists st',
    bindFormals bottom 0 0 formals 0 st = Ok 1 st' /\
    env_binds st' 0 "x"%string = Some (mkValue tCopy (uVal 1)) /\
    env_binds st' 0 "y"%string = Some (mkValue tThunk (uThunk 0 (Var "x"%string))).
Proof.
  intros st formals.
  assert (Hinv : formals_inv st 0 0 0 [("x"%string, 1)] 1 []).
  { constructor; try reflexivity.
    - exists (mkEnv None 1). split; reflexivity.
    - discriminate.
    - intros [].
    - apply NoDup_nil_2.
    - intros c []. }
  assert (Hnd : NoDup (map fst formals)).
  { apply NoDup_cons_2; [|apply NoDup_singleton].
    rewrite list_elem_of_In. intros [E|[]]. discriminate E. }
  destruct (proj1 (proj2 (bindFormals_binds_each_formal bottom 0 0 0 [("x"%string, 1)] 1
                            formals st [] 0 Hinv Hnd)) eq_refl)
    as (st' & Hrun & Hbinds).
  exists st'. split; [exact Hrun|]. split.
  - apply (Hbinds ("x"%string, NoDefaultValue)). left; reflexivity.
  - apply (Hbinds ("y"%string, DefaultValue_ (Var "x"%string))). right; left; reflexivity.
Defined.

(** Were [x + 1] read as a string concatenation ([ConcatStrings]), the
    default of [y] would fail to coerce the integer [x]. *)
Remark plus_as_ConcatStrings_fails :
  exists st',
    evalExpr exampleHost 20
      (Call (Function
               (AttrsPat [("x"%string, NoDefaultValue);
                          ("y"%string,
                           DefaultValue_ (ConcatStrings [Var "x"%string; Int 1]))]
                         false sNoAlias)
               (Var "y"%string))
            (Attrs [("x"%string, Int 10)]))
      initState
    = Throw (mkError cTypeError "cannot coerce an integer to a string") st'.
Proof. eexists. vm_compute. reflexivity. Qed.

(** ** Concatenation onto a path *)

Section ConcatLoop.
Context {Ly : Layout}.

Lemma concatLoop_path R env vStr : forall es s ctx st,
  concatLoop R env vStr es false true s ctx st =
  (r <- concatPath R env vStr es s ctx ;; ret (true, fst r, snd r)) st.
Proof.
  induction es as [|e rest IH]; intros s ctx st; simpl; [reflexivity|].
  rewrite !bind_assoc. apply bind_cong. intros [] st1 _.
  rewrite bind_ret_l. simpl.
  rewrite !bind_assoc. apply bind_cong. intros p st3 _.
  apply IH.
Qed.

End ConcatLoop.

Section ConcatStrings.
Context {Ly : Layout} (H : Host).

Lemma coerceToString_path fuel st c p ctx coerceMore :
  values st !! c = Some (mkValue tPath (uPath p)) ->
  coerceToString H (S (S fuel)) c ctx coerceMore false st = Ok (canonPath H p, ctx) st.
Proof.
  intros Hc.
  change (coerceToString H (S (S fuel)) c ctx coerceMore false st)
    with (coerceToString_ H (funs H (S fuel)) c ctx coerceMore false st).
  unfold coerceToString_.
  change (r_forceValue (funs H (S fuel))) with (forceValue H (S fuel)).
  rewrite (bind_ok _ _ st tt st)
    by (eapply forceValue_forced; [exact Hc | discriminate ..]).
  rewrite (bind_ok _ _ _ _ _ (deref_ok _ _ _ Hc)). simpl.
  unfold get_path; simpl. now rewrite bind_ret_l.
Qed.

(** C6: a string concatenation whose first component evaluates to a path.
    Every component is coerced with the store copy disabled, the result is
    a path when no component contributed a context, and an [EvalError]
    otherwise.  Coercing a path with the store copy disabled returns the
    canonical path and leaves the store, [srcToStore] included, as it was.
    [/a + "/b"] is the path [/a/b] and copies nothing; appending the
    context-bearing string ["" + /a] to the path [/c] fails. *)
Theorem concatStrings_onto_path fuel env e rest v st vStr st0 st' c :
  local st = Ok vStr st0 ->
  eval H fuel env e vStr st0 = Ok tt st' ->
  values st' !! vStr = Some c ->
  type c = tPath ->
  eval H (S fuel) env (ConcatStrings (e :: rest)) v st =
    (r <- concatPath (funs H fuel) env vStr (e :: rest) ""%string [] ;;
     if decide (snd r = []) then mkPath v (fst r)
     else throw (PathContextError (fst r))) st0
  /\ (forall st2 c2 p ctx coerceMore fuel2,
        values st2 !! c2 = Some (mkValue tPath (uPath p)) ->
        coerceToString H (S (S fuel2)) c2 ctx coerceMore false st2
          = Ok (canonPath H p, ctx) st2)
  /\ (let Ly := exampleLayout in
      exists st2,
        evalExpr exampleHost 20 (ConcatStrings [Path "/a"; Str "/b" []]) initState
          = Ok (mkValue tPath (uPath "/a/b")) st2 /\
        srcToStore st2 = [])
  /\ (let Ly := exampleLayout in
      exists st2,
        evalExpr exampleHost 20
          (ConcatStrings [Path "/c"; ConcatStrings [Str "" []; Path "/a"]]) initState
          = Throw (PathContextError "/c/nix/store/a") st2 /\
        err_class (PathContextError "/c/nix/store/a") = cEvalError).
Proof.
  intros Hl He Hc Ht. split; [|split; [|split]].
  2: { intros st2 c2 p ctx cm fuel2. apply coerceToString_path. }
  2: { eexists. split; vm_compute; reflexivity. }
  2: { eexists. split; vm_compute; reflexivity. }
  change (eval H (S fuel)) with (eval_ fuel (funs H fuel)).
  cbn [eval_ concatLoop concatPath].
  rewrite (bind_ok _ _ _ _ _ Hl).
  change (r_eval (funs H fuel)) with (eval H fuel).
  rewrite !bind_assoc, !(bind_ok _ _ _ _ _ He).
  rewrite !bind_assoc, !(bind_ok _ _ _ _ _ (deref_ok _ _ _ Hc)).
  rewrite bind_ret_l.
  rewrite bool_decide_eq_true_2 by exact Ht. simpl.
  etransitivity; [apply bind_assoc|]. apply bind_cong. intros p st1 _.
  transitivity
    ((r0 <- (r <- concatPath (funs H fuel) env vStr rest (fst p) (snd p) ;;
             ret (true, fst r, snd r)) ;;
      (if fst (fst r0) && negb (bool_decide (snd r0 = []))
       then throw (PathContextError (snd (fst r0)))
       else if fst (fst r0) then mkPath v (snd (fst r0))
            else mkString v (snd (fst r0)) (snd r0))) st1).
  { unfold bind at 1 3. now rewrite concatLoop_path. }
  etransitivity; [apply bind_assoc|]. apply bind_cong. intros r st2 _.
  rewrite bind_ret_l. simpl.
  destruct (decide (snd r = [])) as [E|E].
  - rewrite bool_decide_eq_true_2 by exact E. reflexivity.
  - rewrite bool_decide_eq_false_2 by exact E. reflexivity.
Qed.
End ConcatStrings.

Lemma concatStrings_onto_path_witness :
  exists st2,
    eval exampleHost 3 baseEnv (ConcatStrings [Path "/a"; Str "/b" []]) 0 initState
      = Ok tt st2 /\
    values st2 !! 0 = Some (mkValue tPath (uPath "/a/b")).
Proof.
  eexists. split.
  - rewrite (proj1 (concatStrings_onto_path (Ly := exampleLayout) exampleHost 2 baseEnv (Path "/a")
                      [Str "/b" []] 0 (@initState exampleLayout) 4 _ _ (mkValue tPath (uPath "/a"))
                      eq_refl eq_refl eq_refl eq_refl)).
    vm_compute. reflexivity.
  - reflexivity.
Defined.

(** ** Forcing thunks *)

Section Force.
Context {Ly : Layout} (H : Host).

(** Forcing a thunk: the cell is marked as a black hole and the expression
    is evaluated into the cell itself. *)
Lemma forceValue_thunk fuel v env e st :
  values st !! v = Some (mkValue tThunk (uThunk env e)) ->
  forceValue H (S fuel) v st =
    try_catch (eval H fuel env e v) (fun err => set_type v tThunk ;; throw err)
      (mkState (<[v := mkValue tBlackhole (uThunk env e)]> (values st)) (maps st)
               (envs st) (srcToStore st)).
Proof.
  intros Hv.
  change (forceValue H (S fuel)) with (forceValue_ (funs H fuel)).
  unfold forceValue_.
  rewrite (bind_ok _ _ _ _ _ (deref_ok _ _ _ Hv)). cbn [type].
  unfold try_catch.
  rewrite (bind_ok _ _ _ _ _ (set_type_ok _ _ _ _ Hv)). cbn [payload].
  erewrite bind_ok;
    [| apply deref_ok; simpl; apply list_lookup_insert_eq;
       eapply lookup_lt_Some; eassumption].
  unfold get_thunk; cbn [payload]. rewrite bind_ret_l. reflexivity.
Qed.

(** On failure only the tag is put back: the cell keeps whatever payload the
    failed evaluation left in it. *)
Lemma forceValue_failure_restores_tag fuel v env e st err st' c' :
  values st !! v = Some (mkValue tThunk (uThunk env e)) ->
  eval H fuel env e v
    (mkState (<[v := mkValue tBlackhole (uThunk env e)]> (values st)) (maps st)
             (envs st) (srcToStore st)) = Throw err st' ->
  values st' !! v = Some c' ->
  forceValue H (S fuel) v st =
    Throw err (mkState (<[v := mkValue tThunk (payload c')]> (values st')) (maps st')
                       (envs st') (srcToStore st')).
Proof.
  intros Hv He Hc'.
  rewrite (forceValue_thunk _ _ _ _ _ Hv). unfold try_catch. rewrite He.
  now rewrite (bind_ok _ _ _ _ _ (set_type_ok _ _ _ _ Hc')).
Qed.

(** On success the cell holds what the evaluation stored in it. *)
Lemma forceValue_success fuel v env e st st' :
  values st !! v = Some (mkValue tThunk (uThunk env e)) ->
  eval H fuel env e v
    (mkState (<[v := mkValue tBlackhole (uThunk env e)]> (values st)) (maps st)
             (envs st) (srcToStore st)) = Ok tt st' ->
  forceValue H (S fuel) v st = Ok tt st'.
Proof.
  intros Hv He.
  rewrite (forceValue_thunk _ _ _ _ _ Hv). unfold try_catch. now rewrite He.
Qed.
End Force.

(** C5 (the source departs from the claim): the thunk of [{} // nope] bound
    to [a] in [{ a = {} // nope; }].  Forcing it fails with
    [UndefinedVariable]; by then [cloneAttrs] has stored a new attribute set
    in the cell, and the handler of [forceValue] puts back the tag only.
    The cell is left tagged as a thunk over the payload of an attribute
    set: the (environment, expression) pair is lost, and forcing the cell
    again reads the thunk members of a cell that holds none. *)
Theorem forceValue_failed_update_loses_thunk :
  let Ly := exampleLayout in
  exists st1 st2 b,
    (v <- local ;; eval exampleHost 10 baseEnv (Attrs [("a"%string, update_expr)]) v) initState
      = Ok tt st1 /\
    attr_cell st1 4 "a"%string = Some (mkValue tThunk (uThunk baseEnv update_expr)) /\
    values st1 !! 5 = Some (mkValue tThunk (uThunk baseEnv update_expr)) /\
    forceValue exampleHost 10 5 st1 = Throw (UndefinedVariable "nope"%string) st2 /\
    values st2 !! 5 = Some (mkValue tThunk (uAttrs b)) /\
    forceValue exampleHost 10 5 st2 = Crash.
Proof.
  eexists _, _, _.
  split; [vm_compute; reflexivity|].
  split; [vm_compute; reflexivity|].
  split; [vm_compute; reflexivity|].
  split; [vm_compute; reflexivity|].
  split; vm_compute; reflexivity.
Qed.

(** ** Unbounded recursion *)

Section Loop.
Context (H : Host).

Lemma lookupVar_f fenv fcell st env fuel :
  diverging_frame st fenv fcell env ->
  lookupVar (S (S fuel)) env "f"%string st = Ok fcell st.
Proof.
  intros [(b & bs & He & Hb & Hf) (E & bs1 & HE & Hb1 & Hf1) _].
  unfold lookupVar. simpl.
  rewrite bind_assoc, (bind_ok _ _ _ _ _ (readEnv_ok _ _ _ He)). simpl.
  rewrite bind_assoc, (bind_ok _ _ _ _ _ (readBindings_ok _ _ _ Hb)).
  rewrite Hf.
  rewrite bind_assoc, (bind_ok _ _ _ _ _ (readEnv_ok _ _ _ HE)).
  rewrite bind_assoc, (bind_ok _ _ _ _ _ (readBindings_ok _ _ _ Hb1)).
  rewrite Hf1. reflexivity.
Qed.

Lemma eval_Var_f fenv fcell st env v fuel :
  diverging_frame st fenv fcell env ->
  v < length (values st) ->
  eval H fuel env (Var "f"%string) v st =
    if fuel <? 3 then OutOfFuel
    else Ok tt (mkState (<[v := loop_closure fenv]> (values st)) (maps st) (envs st)
                        (srcToStore st)).
Proof.
  intros Hdf Hv.
  destruct fuel as [|[|[|k]]]; simpl Nat.ltb; cbv iota.
  - reflexivity.
  - reflexivity.
  - destruct Hdf as [(b & bs & He & Hb & Hf) _ _].
    change (eval H 2) with (eval_ 1 (funs H 1)). cbn [eval_].
    unfold lookupVar. cbn [lookupRegular].
    rewrite !bind_assoc, (bind_ok _ _ _ _ _ (readEnv_ok _ _ _ He)). simpl.
    rewrite !bind_assoc, (bind_ok _ _ _ _ _ (readBindings_ok _ _ _ Hb)).
    rewrite Hf. reflexivity.
  - change (eval H (S (S (S k)))) with (eval_ (S (S k)) (funs H (S (S k)))). cbn [eval_].
    rewrite (bind_ok _ _ _ _ _ (lookupVar_f _ _ _ _ _ Hdf)).
    change (r_forceValue (funs H (S (S k)))) with (forceValue H (S (S k))).
    pose proof (df_lam _ _ _ _ Hdf) as Hlam.
    rewrite (bind_ok _ _ st tt st)
      by (eapply forceValue_forced; [exact Hlam | discriminate ..]).
    now apply copy_ok.
Qed.

(** Calling a closure whose pattern is a plain identifier: a new frame under
    the closure's environment binds the identifier to a copy of the
    argument, and the body is evaluated there. *)
Lemma callFunction_VarPat {Ly : Layout} fuel R fn arg v st envf name body a :
  values st !! fn = Some (mkValue tLambda (uLambda envf (VarPat name) body)) ->
  values st !! arg = Some a ->
  callFunction_ H fuel R fn arg v st =
    r_eval R (length (envs st)) body v
      (mkState (values st ++ [a]) (maps st ++ [[(name, length (values st))]])
               (envs st ++ [mkEnv (Some envf) (length (maps st))]) (srcToStore st)).
Proof.
  intros Hfn Harg.
  unfold callFunction_.
  rewrite (bind_ok _ _ _ _ _ (deref_ok _ _ _ Hfn)). simpl.
  rewrite (bind_ok _ _ _ _ _ (allocEnv_ok st)).
  unfold get_lambda; simpl. rewrite bind_ret_l. simpl.
  erewrite bind_ok; [| apply set_up_ok; simpl; apply list_lookup_middle; reflexivity].
  simpl.
  erewrite bind_ok; [| apply readEnv_ok; simpl; apply list_lookup_insert_eq;
                       rewrite length_app; simpl; lia].
  simpl. rewrite bind_assoc.
  erewrite bind_ok;
    [| apply slot_new with (bs := []); simpl;
       [apply list_lookup_middle; reflexivity | reflexivity]].
  simpl.
  erewrite bind_ok;
    [| apply copy_ok with (c := a); simpl;
       [apply lookup_app_l_Some; exact Harg | rewrite length_app; simpl; lia]].
  simpl. f_equal. f_equal.
  - apply alloc1_fill.
  - rewrite insert_app_r_alt by lia. now replace (_ - _) with 0 by lia.
  - rewrite insert_app_r_alt by lia. now replace (_ - _) with 0 by lia.
Qed.

Lemma loop_diverges fenv fcell : forall fuel st env v,
  diverging_frame st fenv fcell env ->
  eval H fuel env loop_body v st = OutOfFuel.
Proof.
  induction fuel as [fuel IH] using lt_wf_ind. intros st env v Hdf.
  destruct fuel as [|m]; [reflexivity|].
  change (eval H (S m)) with (eval_ m (funs H m)).
  unfold loop_body at 1. cbn [eval_].
  unfold local at 1, allocValues at 1. unfold bind at 1. cbv beta iota.
  change (replicate 1 fresh) with [fresh].
  set (st1 := mkState (values st ++ [fresh]) (maps st) (envs st) (srcToStore st)).
  assert (Hdf1 : diverging_frame st1 fenv fcell env).
  { destruct Hdf as [Henv Hfenv Hlam]. constructor; try assumption.
    simpl. now apply lookup_app_l_Some. }
  change (r_eval (funs H m)) with (eval H m).
  assert (HL : length (values st) < length (values st1))
    by (simpl; rewrite length_app; simpl; lia).
  pose proof (eval_Var_f fenv fcell st1 env _ m Hdf1 HL) as Hvar.
  destruct (m <? 3); [now apply bind_out_of_fuel|].
  rewrite (bind_ok _ _ _ _ _ Hvar). clear Hvar.
  simpl. rewrite alloc1_fill.
  unfold local at 1, allocValues at 1. unfold bind at 1. cbv beta iota. simpl.
  unfold mkThunk.
  erewrite bind_ok; [| apply assign_ok; simpl; rewrite !length_app; simpl; lia].
  simpl. rewrite alloc1_fill.
  destruct m as [|k]; [reflexivity|].
  change (r_callFunction (funs H (S k))) with (callFunction_ H k (funs H k)).
  rewrite (callFunction_VarPat k (funs H k) _ _ v _ fenv "x"%string loop_body
             (mkValue tThunk (uThunk env (Var "x"%string)))).
  - apply IH; [lia|].
    destruct Hdf as [Henv (E & bs & HE & Hbs & Hf) Hlam]. constructor; simpl.
    + eexists _, _. split; [apply list_lookup_middle; reflexivity|].
      split; [apply list_lookup_middle; reflexivity | reflexivity].
    + exists E, bs. split; [now apply lookup_app_l_Some|].
      split; [now apply lookup_app_l_Some | exact Hf].
    + now do 3 apply lookup_app_l_Some.
  - simpl. apply lookup_app_l_Some. apply list_lookup_middle. reflexivity.
  - simpl. apply list_lookup_middle. reflexivity.
Qed.

Lemma loop_diverges_step fenv fcell fuel st env v :
  diverging_frame st fenv fcell env ->
  eval_ fuel (funs H fuel) env loop_body v st = OutOfFuel.
Proof. intros Hdf. exact (loop_diverges fenv fcell (S fuel) st env v Hdf). Qed.


End Loop.



(** * Further properties *)

(** ** More on equality *)

Section EqualityMore.
Context {Ly : Layout} (H : Host).

Lemma forceValue_evaluated fuel st v c :
  values st !! v = Some c -> evaluated c -> forceValue H (S fuel) v st = Ok tt st.
Proof. intros Hv (H1 & H2 & H3 & H4). now apply (forceValue_forced H fuel st v c). Qed.

(** After the two forces, [eqValues] on evaluated cells. *)
Lemma eqValues_evaluated fuel st a b ca cb :
  values st !! a = Some ca -> values st !! b = Some cb ->
  evaluated ca -> evaluated cb ->
  eqValues H (S (S fuel)) a b st =
    (c1 <- deref a ;; c2 <- deref b ;;
     if decide (type c1 <> type c2) then ret false
     else
       match type c1 with
       | tInt => x <- get_integer c1 ;; y <- get_integer c2 ;; ret (Z.eqb x y)
       | tBool => x <- get_boolean c1 ;; y <- get_boolean c2 ;; ret (Bool.eqb x y)
       | tString => x <- get_string c1 ;; y <- get_string c2 ;; ret (String.eqb (fst x) (fst y))
       | tPath => x <- get_path c1 ;; y <- get_path c2 ;; ret (String.eqb x y)
       | tNull => ret true
       | tList =>
           l1 <- get_list c1 ;;
           l2 <- get_list c2 ;;
           if negb (Nat.eqb (fst l1) (fst l2)) then ret false
           else eqElems (funs H (S fuel)) (snd l1) (snd l2) (fst l1) 0
       | tAttrs =>
           a1 <- get_attrs c1 ;;
           a2 <- get_attrs c2 ;;
           bs1 <- readBindings a1 ;;
           bs2 <- readBindings a2 ;;
           if negb (Nat.eqb (length bs1) (length bs2)) then ret false
           else eqAttrs (funs H (S fuel)) bs1 bs2
       | tLambda | tPrimOp | tPrimOpApp => ret false
       | _ =>
           t1 <- showType c1 ;;
           t2 <- showType c2 ;;
           throwError ("cannot compare " ++ t1 ++ " with " ++ t2)%string
       end) st.
Proof.
  intros Ha Hb Ea Eb.
  change (eqValues H (S (S fuel)) a b st) with (eqValues_ (funs H (S fuel)) a b st).
  unfold eqValues_.
  change (r_forceValue (funs H (S fuel))) with (forceValue H (S fuel)).
  rewrite (bind_ok _ _ _ _ _ (forceValue_evaluated fuel st a ca Ha Ea)).
  rewrite (bind_ok _ _ _ _ _ (forceValue_evaluated fuel st b cb Hb Eb)).
  reflexivity.
Qed.

Lemma eqValues_type_mismatch_aux fuel st a b ca cb :
  values st !! a = Some ca -> values st !! b = Some cb ->
  evaluated ca -> evaluated cb ->
  type ca <> type cb ->
  eqValues H (S (S fuel)) a b st = Ok false st.
Proof.
  intros Ha Hb Ea Eb Hne.
  rewrite (eqValues_evaluated fuel st a b ca cb Ha Hb Ea Eb).
  rewrite (bind_ok _ _ _ _ _ (deref_ok _ _ _ Ha)), (bind_ok _ _ _ _ _ (deref_ok _ _ _ Hb)).
  destruct (decide (type ca <> type cb)); [reflexivity | contradiction].
Qed.

(** X2: two strings are equal exactly when their characters are; the
    contexts (the store paths the strings refer to) are not compared, and
    the store is left as it is. *)
Theorem eqValues_strings_ignore_context fuel st a b s1 ctx1 s2 ctx2 :
  values st !! a = Some (mkValue tString (uString s1 ctx1)) ->
  values st !! b = Some (mkValue tString (uString s2 ctx2)) ->
  eqValues H (S (S fuel)) a b st = Ok (String.eqb s1 s2) st.
Proof.
  intros Ha Hb.
  rewrite (eqValues_evaluated fuel st a b _ _ Ha Hb)
    by (repeat split; discriminate).
  rewrite (bind_ok _ _ _ _ _ (deref_ok _ _ _ Ha)), (bind_ok _ _ _ _ _ (deref_ok _ _ _ Hb)).
  reflexivity.
Qed.

(** X3: two lists of different lengths, and two attribute sets with
    different numbers of attributes, are unequal; the answer is given
    without forcing any element or attribute, the store is unchanged. *)
Theorem eqValues_sizes_differ fuel st a b :
  (forall n1 e1 n2 e2,
      values st !! a = Some (mkValue tList (uList n1 e1)) ->
      values st !! b = Some (mkValue tList (uList n2 e2)) ->
      n1 <> n2 ->
      eqValues H (S (S fuel)) a b st = Ok false st) /\
  (forall b1 b2 (bs1 bs2 : Bindings),
      values st !! a = Some (mkValue tAttrs (uAttrs b1)) ->
      values st !! b = Some (mkValue tAttrs (uAttrs b2)) ->
      maps st !! b1 = Some bs1 -> maps st !! b2 = Some bs2 ->
      length bs1 <> length bs2 ->
      eqValues H (S (S fuel)) a b st = Ok false st).
Proof.
  split.
  - intros n1 e1 n2 e2 Ha Hb Hne.
    rewrite (eqValues_evaluated fuel st a b _ _ Ha Hb) by (repeat split; discriminate).
    rewrite (bind_ok _ _ _ _ _ (deref_ok _ _ _ Ha)), (bind_ok _ _ _ _ _ (deref_ok _ _ _ Hb)).
    simpl. unfold get_list; simpl. rewrite !bind_ret_l. simpl.
    destruct (Nat.eqb_spec n1 n2); [contradiction | reflexivity].
  - intros b1 b2 bs1 bs2 Ha Hb Hb1 Hb2 Hne.
    rewrite (eqValues_evaluated fuel st a b _ _ Ha Hb) by (repeat split; discriminate).
    rewrite (bind_ok _ _ _ _ _ (deref_ok _ _ _ Ha)), (bind_ok _ _ _ _ _ (deref_ok _ _ _ Hb)).
    simpl. unfold get_attrs; simpl. rewrite !bind_ret_l.
    rewrite (bind_ok _ _ _ _ _ (readBindings_ok _ _ _ Hb1)).
    rewrite (bind_ok _ _ _ _ _ (readBindings_ok _ _ _ Hb2)).
    destruct (Nat.eqb_spec (length bs1) (length bs2)); [contradiction | reflexivity].
Qed.

Lemma plain_evaluated st n a :
  plain st n a -> exists c, values st !! a = Some c /\ evaluated c.
Proof.
  destruct 1 as [n a c Hc Hs | n a len elems Hc _ | n a b bs Hc _ _].
  - exists c. split; [exact Hc|].
    destruct c as [t p]; unfold scalar in Hs; simpl in Hs.
    destruct t; try contradiction; repeat split; discriminate.
  - eexists. split; [exact Hc | repeat split; discriminate].
  - eexists. split; [exact Hc | repeat split; discriminate].
Qed.







End EqualityMore.

(** ** More on coercion *)

Section SetInsert.
Context {Ly : Layout}.

Lemma in_set_insert p s x : In x (set_insert p s) <-> x = p \/ In x s.
Proof.
  induction s as [|q s IH]; simpl.
  - split; [intros [->|[]]; now left | intros [->|[]]; now left].
  - destruct (String.compare p q) eqn:E; simpl.
    + apply String.compare_eq_iff in E. subst q.
      split; [intros [->|?]; auto | intros [->|[->|?]]; auto].
    + split; [intros [->|[->|?]]; auto | intros [->|[->|?]]; auto].
    + rewrite IH. split; [intros [->|[->|?]]; auto | intros [->|[->|?]]; auto].
Qed.

Lemma in_fold_set_insert ctx : forall context x,
  In x (fold_left (fun c p => set_insert p c) ctx context) <-> In x context \/ In x ctx.
Proof.
  induction ctx as [|p ctx IH]; intros context x; simpl.
  - tauto.
  - rewrite IH, in_set_insert. split; [intros [[->|?]|?]; auto | intros [?|[->|?]]; auto].
Qed.

End SetInsert.

Section CoerceMore.
Context {Ly : Layout} (H : Host).

Lemma coerceToString_evaluated fuel st v c context coerceMore copyToStore :
  values st !! v = Some c -> evaluated c ->
  coerceToString H (S (S fuel)) v context coerceMore copyToStore st =
    (c <- deref v ;;
     if decide (type c = tString) then
       sc <- get_string c ;;
       ret (fst sc, fold_left (fun ctx p => set_insert p ctx) (snd sc) context)
     else if decide (type c = tPath) then
       p <- get_path c ;;
       let path := canonPath H p in
       if negb copyToStore then ret (path, context)
       else if isDerivation H path then
         throwEvalError ("file names are not allowed to end in `" ++ drvExtension H ++ "'")%string
       else
         known <- srcToStore_get path ;;
         dstPath <- (if negb (String.eqb known "") then ret known
                     else
                       let d := if readOnlyMode H then computeStorePathForPath H path
                                else addToStore H path in
                       srcToStore_set path d ;; ret d) ;;
         ret (dstPath, set_insert dstPath context)
     else if decide (type c = tAttrs) then
       b <- get_attrs c ;;
       bs <- readBindings b ;;
       match find "outPath"%string bs with
       | None => throwTypeError "cannot coerce an attribute set (except a derivation) to a string"
       | Some i => coerceToString H (S fuel) i context coerceMore copyToStore
       end
     else
       let otherwise : M (string * PathSet) :=
         t <- showType c ;;
         throwTypeError ("cannot coerce " ++ t ++ " to a string")%string in
       if coerceMore then
         match type c with
         | tBool => b <- get_boolean c ;; ret (if b : bool then "1" else "", context)%string
         | tInt => n <- get_integer c ;; ret (int2String n, context)
         | tNull => ret (""%string, context)
         | tList =>
             l <- get_list c ;;
             coerceList (funs H (S fuel)) coerceMore copyToStore (snd l) (fst l) (fst l) 0
               ""%string context
         | _ => otherwise
         end
       else otherwise) st.
Proof.
  intros Hv Ev.
  change (coerceToString H (S (S fuel)) v context coerceMore copyToStore st)
    with (coerceToString_ H (funs H (S fuel)) v context coerceMore copyToStore st).
  unfold coerceToString_.
  change (r_forceValue (funs H (S fuel))) with (forceValue H (S fuel)).
  destruct Ev as (E1 & E2 & E3 & E4).
  rewrite (bind_ok _ _ st tt st) by (now apply (forceValue_forced H fuel st v c)).
  reflexivity.
Qed.

Lemma coerceToString_string_aux fuel st v s ctx context coerceMore copyToStore :
  values st !! v = Some (mkValue tString (uString s ctx)) ->
  coerceToString H (S (S fuel)) v context coerceMore copyToStore st
    = Ok (s, fold_left (fun c p => set_insert p c) ctx context) st.
Proof.
  intros Hv.
  rewrite (coerceToString_evaluated fuel st v _ context coerceMore copyToStore Hv)
    by (repeat split; discriminate).
  rewrite (bind_ok _ _ _ _ _ (deref_ok _ _ _ Hv)). reflexivity.
Qed.

Lemma coerceToString_path_copy_aux fuel st v p context coerceMore :
  values st !! v = Some (mkValue tPath (uPath p)) ->
  isDerivation H (canonPath H p) = false ->
  coerceToString H (S (S fuel)) v context coerceMore true st =
    if String.eqb (assoc (canonPath H p) (srcToStore st)) ""
    then Ok (dstPath_of H (canonPath H p), set_insert (dstPath_of H (canonPath H p)) context)
            (mkState (values st) (maps st) (envs st)
                     ((canonPath H p, dstPath_of H (canonPath H p)) :: srcToStore st))
    else Ok (assoc (canonPath H p) (srcToStore st),
             set_insert (assoc (canonPath H p) (srcToStore st)) context) st.
Proof.
  intros Hv Hdrv.
  rewrite (coerceToString_evaluated fuel st v _ context coerceMore true Hv)
    by (repeat split; discriminate).
  rewrite (bind_ok _ _ _ _ _ (deref_ok _ _ _ Hv)). simpl.
  unfold get_path; simpl. rewrite bind_ret_l. simpl. rewrite Hdrv.
  unfold srcToStore_get. unfold bind at 1. cbv beta iota.
  destruct (String.eqb (assoc (canonPath H p) (srcToStore st)) ""); simpl; reflexivity.
Qed.

(** X6: the first coercion of a path that is not yet in [srcToStore]
    obtains its store path (computed in read-only mode, from the store
    otherwise), records it in [srcToStore] and returns it with the store path
    added to the context.  Every later coercion of the same cell returns the
    recorded store path and leaves the evaluator state as it is: the path is
    copied once. *)
Theorem coerceToString_path_memoised fuel st v p context coerceMore :
  values st !! v = Some (mkValue tPath (uPath p)) ->
  isDerivation H (canonPath H p) = false ->
  assoc (canonPath H p) (srcToStore st) = ""%string ->
  dstPath_of H (canonPath H p) <> ""%string ->
  let dst := dstPath_of H (canonPath H p) in
  let st1 := mkState (values st) (maps st) (envs st)
                     ((canonPath H p, dst) :: srcToStore st) in
  coerceToString H (S (S fuel)) v context coerceMore true st
    = Ok (dst, set_insert dst context) st1 /\
  forall fuel' context' coerceMore',
    coerceToString H (S (S fuel')) v context' coerceMore' true st1
      = Ok (dst, set_insert dst context') st1.
Proof.
  intros Hv Hdrv Hmemo Hdst dst st1. split.
  - rewrite (coerceToString_path_copy_aux fuel st v p context coerceMore Hv Hdrv).
    now rewrite Hmemo.
  - intros fuel' context' coerceMore'.
    rewrite (coerceToString_path_copy_aux fuel' st1 v p context' coerceMore' Hv Hdrv).
    simpl. rewrite String.eqb_refl.
    destruct (String.eqb_spec dst ""); [contradiction | reflexivity].
Qed.

(** X7: coercing, with copying to the store, a path that names a
    derivation file raises the [EvalError] "file names are not allowed to end
    in `<extension>'"; nothing is recorded in [srcToStore]. *)
Theorem coerceToString_rejects_derivation_files fuel st v p context coerceMore :
  values st !! v = Some (mkValue tPath (uPath p)) ->
  isDerivation H (canonPath H p) = true ->
  coerceToString H (S (S fuel)) v context coerceMore true st
    = Throw (mkError cEvalError
               ("file names are not allowed to end in `" ++ drvExtension H ++ "'")%string) st.
Proof.
  intros Hv Hdrv.
  rewrite (coerceToString_evaluated fuel st v _ context coerceMore true Hv)
    by (repeat split; discriminate).
  rewrite (bind_ok _ _ _ _ _ (deref_ok _ _ _ Hv)). simpl.
  unfold get_path; simpl. rewrite bind_ret_l. simpl. now rewrite Hdrv.
Qed.

(** X8: with [coerceMore], an integer is coerced to its decimal
    representation, [true] to ["1"], [false] and [null] to the empty string;
    context and store are unchanged. *)
Theorem coerceToString_coerceMore_scalars fuel st v context copyToStore :
  (forall n, values st !! v = Some (mkValue tInt (uInteger n)) ->
     coerceToString H (S (S fuel)) v context true copyToStore st
       = Ok (int2String n, context) st) /\
  (forall b, values st !! v = Some (mkValue tBool (uBoolean b)) ->
     coerceToString H (S (S fuel)) v context true copyToStore st
       = Ok ((if b then "1" else "")%string, context) st) /\
  (forall u, values st !! v = Some (mkValue tNull u) ->
     coerceToString H (S (S fuel)) v context true copyToStore st
       = Ok (""%string, context) st).
Proof.
  split; [|split].
  - intros n Hv.
    rewrite (coerceToString_evaluated fuel st v _ context true copyToStore Hv)
      by (repeat split; discriminate).
    now rewrite (bind_ok _ _ _ _ _ (deref_ok _ _ _ Hv)).
  - intros b Hv.
    rewrite (coerceToString_evaluated fuel st v _ context true copyToStore Hv)
      by (repeat split; discriminate).
    now rewrite (bind_ok _ _ _ _ _ (deref_ok _ _ _ Hv)).
  - intros u Hv.
    rewrite (coerceToString_evaluated fuel st v _ context true copyToStore Hv)
      by (repeat split; discriminate).
    now rewrite (bind_ok _ _ _ _ _ (deref_ok _ _ _ Hv)).
Qed.

(** X9: without [coerceMore], a value that is neither a string, a path
    nor an attribute set is rejected with the [TypeError] "cannot coerce
    <type> to a string", where <type> is what [showType] prints; this holds
    for integers, Booleans, null and lists as well as for functions. *)
Theorem coerceToString_strict_rejects fuel st v c t context copyToStore :
  values st !! v = Some c -> evaluated c ->
  type c <> tString -> type c <> tPath -> type c <> tAttrs ->
  showType c st = Ok t st ->
  coerceToString H (S (S fuel)) v context false copyToStore st
    = Throw (mkError cTypeError ("cannot coerce " ++ t ++ " to a string")%string) st.
Proof.
  intros Hv Ev H1 H2 H3 Ht.
  rewrite (coerceToString_evaluated fuel st v _ context false copyToStore Hv Ev).
  rewrite (bind_ok _ _ _ _ _ (deref_ok _ _ _ Hv)).
  destruct (decide (type c = tString)); [contradiction|].
  destruct (decide (type c = tPath)); [contradiction|].
  destruct (decide (type c = tAttrs)); [contradiction|].
  cbv zeta. now rewrite (bind_ok _ _ _ _ _ Ht).
Qed.

(** X10: whatever [coerceToPath] returns starts with ['/']: a result that
    is empty or starts otherwise is never returned. *)
Theorem coerceToPath_result_absolute R v context st r st' :
  coerceToPath R v context st = Ok r st' ->
  exists rest, fst r = String "/"%char rest.
Proof.
  unfold coerceToPath, bind. intros Hrun.
  destruct (r_coerceToString R v context false false st) as [p st1| | |]; try discriminate.
  destruct (fst p) as [|c rest] eqn:Ep; simpl in Hrun; [discriminate|].
  destruct (Ascii.eqb_spec c "/"%char) as [->|Hne]; simpl in Hrun; [|discriminate].
  injection Hrun as <- _. rewrite Ep. now exists rest.
Qed.

Lemma coerceToPath_relative_aux fuel st v s ctx context :
  values st !! v = Some (mkValue tString (uString s ctx)) ->
  is_absolute s = false ->
  coerceToPath (funs H (S (S fuel))) v context st
    = Throw (mkError cEvalError
               ("string `" ++ s ++ "' doesn't represent an absolute path")%string) st.
Proof.
  intros Hv Hrel. unfold coerceToPath.
  change (r_coerceToString (funs H (S (S fuel)))) with (coerceToString H (S (S fuel))).
  rewrite (bind_ok _ _ _ _ _
             (coerceToString_string_aux fuel st v s ctx context false false Hv)).
  simpl. now rewrite Hrel.
Qed.

Lemma coerceToPath_path_aux fuel st v p context :
  values st !! v = Some (mkValue tPath (uPath p)) ->
  is_absolute (canonPath H p) = true ->
  coerceToPath (funs H (S (S fuel))) v context st = Ok (canonPath H p, context) st.
Proof.
  intros Hv Habs. unfold coerceToPath.
  change (r_coerceToString (funs H (S (S fuel)))) with (coerceToString H (S (S fuel))).
  rewrite (bind_ok _ _ _ _ _ (coerceToString_path H fuel st v p context false Hv)).
  simpl. now rewrite Habs.
Qed.
End CoerceMore.

(** ** Strings without context and the derivation test *)

Section Derivation.
Context {Ly : Layout} (H : Host).

Lemma forceString_string fuel st v s ctx :
  values st !! v = Some (mkValue tString (uString s ctx)) ->
  forceString (funs H (S fuel)) v st = Ok s st.
Proof.
  intros Hv. unfold forceString.
  change (r_forceValue (funs H (S fuel))) with (forceValue H (S fuel)).
  rewrite (bind_ok _ _ st tt st)
    by (eapply forceValue_forced; [exact Hv | discriminate ..]).
  now rewrite (bind_ok _ _ _ _ _ (deref_ok _ _ _ Hv)).
Qed.

Lemma forceStringNoCtx_aux fuel st v s ctx :
  values st !! v = Some (mkValue tString (uString s ctx)) ->
  forceStringNoCtx (funs H (S fuel)) v st =
    match ctx with
    | [] => Ok s st
    | p :: _ =>
        Throw (mkError cEvalError
                 ("the string `" ++ s
                    ++ "' is not allowed to refer to a store path (such as `"
                    ++ p ++ "')")%string) st
    end.
Proof.
  intros Hv. unfold forceStringNoCtx.
  rewrite (bind_ok _ _ _ _ _ (forceString_string fuel st v s ctx Hv)).
  rewrite (bind_ok _ _ _ _ _ (deref_ok _ _ _ Hv)).
  unfold get_string; simpl. rewrite bind_ret_l. simpl.
  destruct ctx; reflexivity.
Qed.

(** X13: [EvalState::isDerivation] answers [false] for a value that is
    not an attribute set and for an attribute set without a [type]
    attribute, without forcing anything.  When [type] is bound to a string
    without context the answer is whether that string is ["derivation"]; when
    the string has a context the test does not answer but raises an
    [EvalError]. *)
Theorem isDerivation_cases fuel st v :
  (forall c, values st !! v = Some c -> type c <> tAttrs ->
     EvalState_isDerivation (funs H (S fuel)) v st = Ok false st) /\
  (forall b (bs : Bindings),
     values st !! v = Some (mkValue tAttrs (uAttrs b)) -> maps st !! b = Some bs ->
     find "type"%string bs = None ->
     EvalState_isDerivation (funs H (S fuel)) v st = Ok false st) /\
  (forall b (bs : Bindings) i s,
     values st !! v = Some (mkValue tAttrs (uAttrs b)) -> maps st !! b = Some bs ->
     find "type"%string bs = Some i ->
     values st !! i = Some (mkValue tString (uString s [])) ->
     EvalState_isDerivation (funs H (S fuel)) v st = Ok (String.eqb s "derivation") st) /\
  (forall b (bs : Bindings) i s p ctx,
     values st !! v = Some (mkValue tAttrs (uAttrs b)) -> maps st !! b = Some bs ->
     find "type"%string bs = Some i ->
     values st !! i = Some (mkValue tString (uString s (p :: ctx))) ->
     exists err, EvalState_isDerivation (funs H (S fuel)) v st = Throw err st /\
                 err_class err = cEvalError).
Proof.
  split; [|split; [|split]].
  - intros c Hv Ht. unfold EvalState_isDerivation.
    rewrite (bind_ok _ _ _ _ _ (deref_ok _ _ _ Hv)).
    destruct (decide (type c <> tAttrs)); [reflexivity | contradiction].
  - intros b bs Hv Hb Hf. unfold EvalState_isDerivation.
    rewrite (bind_ok _ _ _ _ _ (deref_ok _ _ _ Hv)). simpl.
    unfold get_attrs; simpl. rewrite bind_ret_l.
    rewrite (bind_ok _ _ _ _ _ (readBindings_ok _ _ _ Hb)). now rewrite Hf.
  - intros b bs i s Hv Hb Hf Hi. unfold EvalState_isDerivation.
    rewrite (bind_ok _ _ _ _ _ (deref_ok _ _ _ Hv)). simpl.
    unfold get_attrs; simpl. rewrite bind_ret_l.
    rewrite (bind_ok _ _ _ _ _ (readBindings_ok _ _ _ Hb)). rewrite Hf.
    now rewrite (bind_ok _ _ _ _ _ (forceStringNoCtx_aux fuel st i s [] Hi)).
  - intros b bs i s p ctx Hv Hb Hf Hi. unfold EvalState_isDerivation.
    rewrite (bind_ok _ _ _ _ _ (deref_ok _ _ _ Hv)). simpl.
    unfold get_attrs; simpl. rewrite bind_ret_l.
    rewrite (bind_ok _ _ _ _ _ (readBindings_ok _ _ _ Hb)). rewrite Hf.
    eexists. unfold bind. rewrite (forceStringNoCtx_aux fuel st i s (p :: ctx) Hi).
    split; reflexivity.
Qed.

End Derivation.

(** ** Deep forcing *)

Section ForM.
Context {Ly : Layout}.


End ForM.

Section Strict.
Context {Ly : Layout} (H : Host).



End Strict.

(** ** Calling closures and non-functions *)

Section KeepsEnvs.
Context {Ly : Layout}.

Lemma slot_values b name st a st1 :
  slot b name st = Ok a st1 -> exists extra, values st1 = values st ++ extra.
Proof.
  unfold slot, bind, readBindings. destruct (maps st !! b) as [bs|]; [|discriminate].
  destruct (find name bs).
  - intros [= _ <-]. exists []. now rewrite app_nil_r.
  - unfold allocValues, writeBindings; simpl.
    destruct (decide (b < length (maps st))); [|discriminate].
    intros [= _ <-]. simpl. now exists [fresh].
Qed.

Lemma keeps_envs_ret {A} (a : A) : keeps_envs (ret a).
Proof. intros st x st' [= _ <-]. reflexivity. Qed.

Lemma keeps_envs_bind {A B} (m : M A) (f : A -> M B) :
  keeps_envs m -> (forall x, keeps_envs (f x)) -> keeps_envs (bind m f).
Proof.
  intros Hm Hf st b st'. unfold bind.
  destruct (m st) as [a st1| | |] eqn:E; try discriminate.
  intros Hfa. rewrite (Hf a _ _ _ Hfa). exact (Hm _ _ _ E).
Qed.

Lemma keeps_envs_throw {A} e : keeps_envs (@throw A e).
Proof. intros st a st'. discriminate. Qed.

Lemma keeps_envs_deref a : keeps_envs (deref a).
Proof. intros st x st'. unfold deref. destruct (values st !! a); [|discriminate]. now intros [= _ <-]. Qed.

Lemma keeps_envs_assign a x : keeps_envs (assign a x).
Proof.
  intros st u st'. unfold assign.
  destruct (decide (a < length (values st))); [|discriminate]. now intros [= _ <-].
Qed.

Lemma keeps_envs_readBindings b : keeps_envs (readBindings b).
Proof.
  intros st x st'. unfold readBindings. destruct (maps st !! b); [|discriminate].
  now intros [= _ <-].
Qed.

Lemma keeps_envs_readEnv e : keeps_envs (readEnv e).
Proof.
  intros st x st'. unfold readEnv. destruct (envs st !! e); [|discriminate].
  now intros [= _ <-].
Qed.

Lemma keeps_envs_get_attrs c : keeps_envs (get_attrs c).
Proof.
  unfold get_attrs. destruct (payload c); first [apply keeps_envs_ret | intros st a st'; discriminate].
Qed.

Lemma keeps_envs_slot b name : keeps_envs (slot b name).
Proof.
  unfold slot. apply keeps_envs_bind; [apply keeps_envs_readBindings|]. intros bs.
  destruct (find name bs); [apply keeps_envs_ret|].
  apply keeps_envs_bind; [now intros st a st' [= _ <-]|]. intros a.
  apply keeps_envs_bind; [|intros; apply keeps_envs_ret].
  intros st u st'. unfold writeBindings.
  destruct (decide (b < length (maps st))); [|discriminate]. now intros [= _ <-].
Qed.

Lemma keeps_envs_copy a b : keeps_envs (copy a b).
Proof.
  unfold copy. apply keeps_envs_bind; [apply keeps_envs_deref|].
  intros x. apply keeps_envs_assign.
Qed.

Lemma keeps_envs_bindFormals R arg env2 : forall formals used,
  keeps_envs (bindFormals R arg env2 formals used).
Proof.
  induction formals as [|[name def2] rest IH]; intros used; cbn [bindFormals].
  - apply keeps_envs_ret.
  - apply keeps_envs_bind; [apply keeps_envs_deref|]. intros a.
    apply keeps_envs_bind; [apply keeps_envs_get_attrs|]. intros ab.
    apply keeps_envs_bind; [apply keeps_envs_readBindings|]. intros abs.
    apply keeps_envs_bind; [apply keeps_envs_readEnv|]. intros E2.
    apply keeps_envs_bind; [apply keeps_envs_slot|]. intros v.
    destruct (find name abs).
    + apply keeps_envs_bind; [apply keeps_envs_assign | intros; apply IH].
    + destruct def2; [apply keeps_envs_throw|].
      apply keeps_envs_bind; [apply keeps_envs_assign | intros; apply IH].
Qed.

End KeepsEnvs.

Section CallMore.
Context {Ly : Layout} (H : Host).

Lemma forceAttrs_ok fuel st v c :
  values st !! v = Some c -> type c = tAttrs ->
  forceAttrs (funs H (S fuel)) v st = Ok tt st.
Proof.
  intros Hv Ht. unfold forceAttrs.
  change (r_forceValue (funs H (S fuel))) with (forceValue H (S fuel)).
  rewrite (bind_ok _ _ st tt st)
    by (eapply forceValue_forced; [exact Hv | rewrite Ht; discriminate ..]).
  rewrite (bind_ok _ _ _ _ _ (deref_ok _ _ _ Hv)).
  now destruct (decide (type c = tAttrs)).
Qed.

(** X15: applying a value that is neither a lambda nor a primop nor a
    partial primop application raises the [TypeError] "attempt to call
    something which is neither a function nor a primop (built-in operation)
    but <type>"; the argument is not looked at and the store is unchanged. *)
Theorem callFunction_rejects_non_function fuel st fn arg v c t :
  values st !! fn = Some c ->
  type c <> tPrimOp -> type c <> tPrimOpApp -> type c <> tLambda ->
  showType c st = Ok t st ->
  callFunction H (S fuel) fn arg v st =
    Throw (mkError cTypeError
             ("attempt to call something which is neither a function nor a primop (built-in operation) but "
                ++ t)%string) st.
Proof.
  intros Hc H1 H2 H3 Ht.
  change (callFunction H (S fuel)) with (callFunction_ H fuel (funs H fuel)).
  unfold callFunction_.
  rewrite (bind_ok _ _ _ _ _ (deref_ok _ _ _ Hc)).
  destruct (decide (type c = tPrimOp \/ type c = tPrimOpApp)) as [[E|E]|_];
    [contradiction | contradiction |].
  destruct (decide (type c <> tLambda)) as [_|E]; [|contradiction].
  now rewrite (bind_ok _ _ _ _ _ Ht).
Qed.

Lemma alias_step st arg env2 ab abs b2 bs2 name :
  formals_inv st arg env2 ab abs b2 bs2 ->
  exists st1 bs2',
    (a <- slot b2 name ;; copy a arg) st = Ok tt st1 /\
    formals_inv st1 arg env2 ab abs b2 bs2' /\
    env_binds st1 env2 name = Some (mkValue tAttrs (uAttrs ab)) /\
    (forall name', name' <> name -> env_binds st1 env2 name' = env_binds st env2 name').
Proof.
  intros Hinv.
  destruct (bind_name_step st arg env2 ab abs b2 bs2 name (mkValue tAttrs (uAttrs ab)) Hinv)
    as (st1 & bs2' & Hrun & Hrest).
  exists st1, bs2'. split; [|exact Hrest].
  rewrite <- Hrun. apply bind_cong. intros a st0 Hslot.
  destruct (slot_values _ _ _ _ _ Hslot) as (extra & Hvals).
  unfold copy. erewrite bind_ok; [reflexivity|].
  apply deref_ok. rewrite Hvals. apply lookup_app_l_Some. exact (fi_arg _ _ _ _ _ _ _ Hinv).
Qed.

(** X16: calling a lambda with an attribute-set pattern on an attribute
    set.  If some formal has neither an actual argument nor a default, the
    call raises "the argument named `<name>' required by the function is
    missing" for the first such formal.  Otherwise, if the pattern has no
    ellipsis and the number of formals present in the argument differs from
    the size of the argument, it raises "function called with unexpected
    argument".  Otherwise the body is evaluated in a new environment whose
    parent is the environment of the closure, in which every formal is bound
    to a copy node of the actual argument or to the thunk of its default in
    the new environment, and the alias (if any, and not shadowed by a formal)
    is bound to the argument set. *)
Theorem callFunction_attrs_pattern fuel st fn arg v envf formals ellipsis alias body ab
    (abs : Bindings) :
  values st !! fn = Some (mkValue tLambda (uLambda envf (AttrsPat formals ellipsis alias) body)) ->
  values st !! arg = Some (mkValue tAttrs (uAttrs ab)) ->
  maps st !! ab = Some abs ->
  NoDup (map fst formals) ->
  let env2 := length (envs st) in
  match first_missing abs formals with
  | Some name =>
      exists st', callFunction H (S (S fuel)) fn arg v st = Throw (MissingArgument name) st'
  | None =>
      if negb ellipsis && negb (Nat.eqb (count_present abs formals) (length abs))
      then exists st', callFunction H (S (S fuel)) fn arg v st = Throw UnexpectedArgument st'
      else
        exists st',
          callFunction H (S (S fuel)) fn arg v st = eval H (S fuel) env2 body v st' /\
          (exists b, envs st' !! env2 = Some (mkEnv (Some envf) b)) /\
          (forall f, In f formals -> env_binds st' env2 (fst f) = formal_binding env2 abs f) /\
          (alias <> sNoAlias -> ~ In alias (map fst formals) ->
           env_binds st' env2 alias = Some (mkValue tAttrs (uAttrs ab)))
  end.
Proof.
  intros Hfn Harg Habs Hnd env2.
  pose proof (lookup_lt_Some _ _ _ Habs) as Hab_lt.
  set (sta := mkState (values st) (maps st ++ [[]])
                      (envs st ++ [mkEnv (Some envf) (length (maps st))]) (srcToStore st)).
  assert (Hinv : formals_inv sta arg env2 ab abs (length (maps st)) []).
  { constructor; simpl.
    - exact Harg.
    - now apply lookup_app_l_Some.
    - eexists. split; [apply list_lookup_middle; reflexivity | reflexivity].
    - lia.
    - apply list_lookup_middle. reflexivity.
    - intros [].
    - apply NoDup_nil_2.
    - intros c []. }
  assert (Hprefix :
    callFunction H (S (S fuel)) fn arg v st =
      (((if string_eq_dec' alias sNoAlias then ret tt
         else a <- slot (length (maps st)) alias ;; copy a arg) ;;
        attrsUsed <- bindFormals (funs H (S fuel)) arg env2 formals 0 ;;
        a <- deref arg ;;
        ab <- get_attrs a ;;
        abs <- readBindings ab ;;
        (if negb ellipsis && negb (Nat.eqb attrsUsed (length abs))
         then throw UnexpectedArgument else ret tt)) ;;
       eval H (S fuel) env2 body v) sta).
  { change (callFunction H (S (S fuel))) with (callFunction_ H (S fuel) (funs H (S fuel))).
    unfold callFunction_.
    rewrite (bind_ok _ _ _ _ _ (deref_ok _ _ _ Hfn)). simpl.
    rewrite (bind_ok _ _ _ _ _ (allocEnv_ok st)).
    unfold get_lambda; simpl. rewrite bind_ret_l. simpl.
    erewrite bind_ok; [| apply set_up_ok; simpl; apply list_lookup_middle; reflexivity].
    simpl.
    erewrite bind_ok; [| apply readEnv_ok; simpl; apply list_lookup_insert_eq;
                         rewrite length_app; simpl; lia].
    simpl.
    replace (<[length (envs st) := mkEnv (Some envf) (length (maps st))]>
               (envs st ++ [mkEnv None (length (maps st))]))
      with (envs st ++ [mkEnv (Some envf) (length (maps st))])
      by (rewrite insert_app_r_alt by lia; now replace (_ - _) with 0 by lia).
    fold sta.
    etransitivity; [apply bind_assoc|].
    erewrite bind_ok; [reflexivity|].
    eapply forceAttrs_ok; [exact Harg | reflexivity]. }
  rewrite Hprefix. clear Hprefix.
  assert (Halias : exists stb bs2,
    (if string_eq_dec' alias sNoAlias then ret tt
     else a <- slot (length (maps st)) alias ;; copy a arg) sta = Ok tt stb /\
    formals_inv stb arg env2 ab abs (length (maps st)) bs2 /\
    (alias <> sNoAlias -> env_binds stb env2 alias = Some (mkValue tAttrs (uAttrs ab))) /\
    envs stb = envs sta).
  { destruct (string_eq_dec' alias sNoAlias) as [E|E].
    - exists sta, []. split; [reflexivity|]. split; [exact Hinv|]. split; [contradiction|].
      reflexivity.
    - destruct (alias_step sta arg env2 ab abs _ [] alias Hinv)
        as (stb & bs2 & Hrun & Hinvb & Hbound & _).
      exists stb, bs2. split; [exact Hrun|]. split; [exact Hinvb|]. split; [auto|].
      refine (keeps_envs_bind _ _ (keeps_envs_slot _ _) _ _ _ _ Hrun).
      intros a. apply keeps_envs_copy. }
  destruct Halias as (stb & bs2 & Hrun_alias & Hinvb & Hbound_alias & Henvs_b).
  pose proof (bindFormals_spec (funs H (S fuel)) arg env2 ab abs (length (maps st))
                formals stb bs2 0 Hinvb Hnd) as Hspec.
  set (pat := ((if string_eq_dec' alias sNoAlias then ret tt
         else a <- slot (length (maps st)) alias ;; copy a arg) ;;
        attrsUsed <- bindFormals (funs H (S fuel)) arg env2 formals 0 ;;
        a <- deref arg ;;
        ab <- get_attrs a ;;
        abs <- readBindings ab ;;
        (if negb ellipsis && negb (Nat.eqb attrsUsed (length abs))
         then throw UnexpectedArgument else ret tt))).
  destruct (first_missing abs formals) as [name|].
  - destruct Hspec as (st' & Hthrow). exists st'.
    unfold bind at 1. unfold pat. rewrite (bind_ok _ _ _ _ _ Hrun_alias).
    unfold bind at 1. now rewrite Hthrow.
  - destruct Hspec as (st' & bs2' & Hrun & Hinv' & Hbinds & Hkeep).
    assert (Hpat : pat sta =
              (if negb ellipsis && negb (Nat.eqb (count_present abs formals) (length abs))
               then throw UnexpectedArgument else ret tt) st').
    { unfold pat. rewrite (bind_ok _ _ _ _ _ Hrun_alias).
      rewrite (bind_ok _ _ _ _ _ Hrun).
      rewrite (bind_ok _ _ _ _ _ (deref_ok _ _ _ (fi_arg _ _ _ _ _ _ _ Hinv'))).
      unfold get_attrs; cbn [payload]. rewrite bind_ret_l.
      now rewrite (bind_ok _ _ _ _ _ (readBindings_ok _ _ _ (fi_abs _ _ _ _ _ _ _ Hinv'))). }
    destruct (negb ellipsis && negb (Nat.eqb (count_present abs formals) (length abs))).
    + exists st'. unfold bind at 1. now rewrite Hpat.
    + exists st'. split; [unfold bind at 1; now rewrite Hpat|]. split; [|split].
      * exists (length (maps st)).
        rewrite (keeps_envs_bindFormals _ _ _ _ _ _ _ _ Hrun), Henvs_b. simpl.
        apply list_lookup_middle. reflexivity.
      * exact Hbinds.
      * intros Ha Hnotin. rewrite (Hkeep alias Hnotin). now apply Hbound_alias.
Qed.

End CallMore.

(** ** Typed demands, blackholes and copies *)

Section ShowType.
Context {Ly : Layout}.

Lemma showType_evaluated c st : evaluated c -> exists t, showType c st = Ok t st.
Proof.
  intros (H1 & H2 & H3 & H4). unfold showType.
  destruct (type c); try contradiction; eexists; reflexivity.
Qed.

End ShowType.

Section ForceMore.
Context {Ly : Layout} (H : Host).

(** X17: on an evaluated value of another type, [forceInt], [forceBool],
    [forceAttrs], [forceList], [forceFunction] and [forceString] raise the
    [TypeError] "value is <type> while <expected> was expected", with
    <type> as printed by [showType]; the store is unchanged. *)
Theorem typed_demands_reject fuel st v c :
  values st !! v = Some c -> evaluated c ->
  exists t,
    showType c st = Ok t st /\
    let R := funs H (S fuel) in
    let E what :=
      mkError cTypeError ("value is " ++ t ++ " while " ++ what ++ " was expected")%string in
    (type c <> tInt -> forceInt R v st = Throw (E "an integer"%string) st) /\
    (type c <> tBool -> forceBool R v st = Throw (E "a Boolean"%string) st) /\
    (type c <> tAttrs -> forceAttrs R v st = Throw (E "an attribute set"%string) st) /\
    (type c <> tList -> forceList R v st = Throw (E "a list"%string) st) /\
    (type c <> tLambda -> type c <> tPrimOp -> type c <> tPrimOpApp ->
     forceFunction R v st = Throw (E "a function"%string) st) /\
    (type c <> tString -> forceString R v st = Throw (E "a string"%string) st).
Proof.
  intros Hv Hev. destruct (showType_evaluated c st Hev) as (t & Ht).
  exists t. split; [exact Ht|]. cbv zeta.
  assert (Hforce : forall A (k : M A),
            (r_forceValue (funs H (S fuel)) v ;; c <- deref v ;; k) st = k st).
  { intros A k. change (r_forceValue (funs H (S fuel))) with (forceValue H (S fuel)).
    rewrite (bind_ok _ _ _ _ _ (forceValue_evaluated H fuel st v c Hv Hev)).
    now rewrite (bind_ok _ _ _ _ _ (deref_ok _ _ _ Hv)). }
  assert (Hthrow : forall A what,
            typeError_expected (A := A) c what st =
              Throw (mkError cTypeError
                       ("value is " ++ t ++ " while " ++ what ++ " was expected")%string) st).
  { intros A what. unfold typeError_expected. now rewrite (bind_ok _ _ _ _ _ Ht). }
  repeat split.
  - intros Hne. unfold forceInt.
    change (r_forceValue (funs H (S fuel))) with (forceValue H (S fuel)).
    rewrite (bind_ok _ _ _ _ _ (forceValue_evaluated H fuel st v c Hv Hev)).
    rewrite (bind_ok _ _ _ _ _ (deref_ok _ _ _ Hv)).
    destruct (decide (type c = tInt)); [contradiction | apply Hthrow].
  - intros Hne. unfold forceBool.
    change (r_forceValue (funs H (S fuel))) with (forceValue H (S fuel)).
    rewrite (bind_ok _ _ _ _ _ (forceValue_evaluated H fuel st v c Hv Hev)).
    rewrite (bind_ok _ _ _ _ _ (deref_ok _ _ _ Hv)).
    destruct (decide (type c = tBool)); [contradiction | apply Hthrow].
  - intros Hne. unfold forceAttrs.
    change (r_forceValue (funs H (S fuel))) with (forceValue H (S fuel)).
    rewrite (bind_ok _ _ _ _ _ (forceValue_evaluated H fuel st v c Hv Hev)).
    rewrite (bind_ok _ _ _ _ _ (deref_ok _ _ _ Hv)).
    destruct (decide (type c = tAttrs)); [contradiction | apply Hthrow].
  - intros Hne. unfold forceList.
    change (r_forceValue (funs H (S fuel))) with (forceValue H (S fuel)).
    rewrite (bind_ok _ _ _ _ _ (forceValue_evaluated H fuel st v c Hv Hev)).
    rewrite (bind_ok _ _ _ _ _ (deref_ok _ _ _ Hv)).
    destruct (decide (type c = tList)); [contradiction | apply Hthrow].
  - intros N1 N2 N3. unfold forceFunction.
    change (r_forceValue (funs H (S fuel))) with (forceValue H (S fuel)).
    rewrite (bind_ok _ _ _ _ _ (forceValue_evaluated H fuel st v c Hv Hev)).
    rewrite (bind_ok _ _ _ _ _ (deref_ok _ _ _ Hv)).
    destruct (decide (type c <> tLambda /\ type c <> tPrimOp /\ type c <> tPrimOpApp))
      as [_|N]; [apply Hthrow | exfalso; apply N; auto].
  - intros Hne. unfold forceString.
    change (r_forceValue (funs H (S fuel))) with (forceValue H (S fuel)).
    rewrite (bind_ok _ _ _ _ _ (forceValue_evaluated H fuel st v c Hv Hev)).
    rewrite (bind_ok _ _ _ _ _ (deref_ok _ _ _ Hv)).
    destruct (decide (type c <> tString)); [apply Hthrow | contradiction].
Qed.

Lemma lookupRegular_here fuel env x st E (bs : Bindings) a :
  envs st !! env = Some E -> maps st !! bindings E = Some bs -> find x bs = Some a ->
  lookupVar (S fuel) env x st = Ok a st.
Proof.
  intros HE Hbs Hx. unfold lookupVar. cbn [lookupRegular].
  rewrite !bind_assoc.
  rewrite (bind_ok _ _ _ _ _ (readEnv_ok _ _ _ HE)).
  rewrite !bind_assoc.
  rewrite (bind_ok _ _ _ _ _ (readBindings_ok _ _ _ Hbs)).
  rewrite Hx. now rewrite bind_ret_l.
Qed.

(** X18: a thunk whose expression is a variable that its own environment
    binds to the thunk's own cell (as in [rec { x = x; }]) is detected when
    forced: the force raises the [EvalError] "infinite recursion
    encountered", and the handler restores the cell, so the store after the
    failure is the store before it. *)
Theorem forceValue_self_reference_detected fuel st a env x E (bs : Bindings) :
  values st !! a = Some (mkValue tThunk (uThunk env (Var x))) ->
  envs st !! env = Some E -> maps st !! bindings E = Some bs -> find x bs = Some a ->
  forceValue H (S (S (S fuel))) a st = Throw InfiniteRecursion st.
Proof.
  intros Ha HE Hbs Hx.
  set (stB := mkState (<[a := mkValue tBlackhole (uThunk env (Var x))]> (values st))
                      (maps st) (envs st) (srcToStore st)).
  pose proof (lookup_lt_Some _ _ _ Ha) as Hlt.
  assert (HaB : values stB !! a = Some (mkValue tBlackhole (uThunk env (Var x)))).
  { simpl. now apply list_lookup_insert_eq. }
  assert (Heval : eval H (S (S fuel)) env (Var x) a stB = Throw InfiniteRecursion stB).
  { change (eval H (S (S fuel))) with (eval_ (S fuel) (funs H (S fuel))).
    cbn [eval_].
    rewrite (bind_ok _ _ _ _ _ (lookupRegular_here fuel env x stB E bs a HE Hbs Hx)).
    change (r_forceValue (funs H (S fuel))) with (forceValue_ (funs H fuel)).
    unfold bind at 1. unfold forceValue_ at 1.
    rewrite (bind_ok _ _ _ _ _ (deref_ok _ _ _ HaB)). reflexivity. }
  rewrite (forceValue_failure_restores_tag H (S (S fuel)) a env (Var x) st
             InfiniteRecursion stB _ Ha Heval HaB).
  f_equal. simpl. rewrite list_insert_insert_eq, list_insert_id by exact Ha.
  now destruct st.
Qed.

(** X19: forcing a copy node whose target is evaluated replaces the copy
    node by the target's value; nothing else in the store changes. *)
Theorem forceValue_copy_of_evaluated fuel st v a c :
  values st !! v = Some (mkValue tCopy (uVal a)) ->
  values st !! a = Some c -> evaluated c ->
  forceValue H (S (S fuel)) v st =
    Ok tt (mkState (<[v := c]> (values st)) (maps st) (envs st) (srcToStore st)).
Proof.
  intros Hv Ha Hev.
  change (forceValue H (S (S fuel))) with (forceValue_ (funs H (S fuel))).
  unfold forceValue_.
  rewrite (bind_ok _ _ _ _ _ (deref_ok _ _ _ Hv)). cbn [type payload].
  unfold get_val; cbn [payload]. rewrite bind_ret_l.
  change (r_forceValue (funs H (S fuel))) with (forceValue H (S fuel)).
  rewrite (bind_ok _ _ _ _ _ (forceValue_evaluated H fuel st a c Ha Hev)).
  rewrite (bind_ok _ _ _ _ _ (deref_ok _ _ _ Hv)). cbn [payload]. rewrite bind_ret_l.
  apply copy_ok; [exact Ha | exact (lookup_lt_Some _ _ _ Hv)].
Qed.

End ForceMore.

(** ** Laziness of application and of list literals *)

Section ListThunks.
Context {Ly : Layout}.

Lemma local_ok st :
  local st = Ok (length (values st))
                (mkState (values st ++ [fresh]) (maps st) (envs st) (srcToStore st)).
Proof. reflexivity. Qed.

Lemma listThunks_spec elems env : forall es done pre rest st,
  values st = pre ++ map (fun e => mkValue tThunk (uThunk env e)) done
                  ++ replicate (length es) fresh ++ rest ->
  length pre = elems ->
  listThunks elems env (length done) es st =
    Ok tt (mkState (pre ++ map (fun e => mkValue tThunk (uThunk env e)) (done ++ es) ++ rest)
                   (maps st) (envs st) (srcToStore st)).
Proof.
  induction es as [|e es IH]; intros done pre rest st Hvals Hpre.
  - simpl in *. rewrite app_nil_r. rewrite <- Hvals. now destruct st.
  - cbn [listThunks]. unfold mkThunk.
    assert (Hlt : elems + length done < length (values st)).
    { rewrite Hvals. rewrite !length_app, length_map. simpl. lia. }
    rewrite (bind_ok _ _ _ _ _ (assign_ok _ _ _ Hlt)).
    specialize (IH (done ++ [e]) pre rest
                   (mkState (<[elems + length done := mkValue tThunk (uThunk env e)]> (values st))
                            (maps st) (envs st) (srcToStore st))).
    rewrite length_app in IH. simpl in IH.
    replace (length done + 1) with (S (length done)) in IH by lia.
    rewrite IH; [now rewrite <- app_assoc | | exact Hpre].
    rewrite Hvals. rewrite <- Hpre.
    rewrite insert_app_r.
    rewrite <- (length_map (fun e => mkValue tThunk (uThunk env e)) done).
    rewrite insert_app_r_alt by lia. rewrite Nat.sub_diag. simpl.
    rewrite map_app. simpl. rewrite <- !app_assoc. reflexivity.
Qed.

End ListThunks.

Section Lazy.
Context {Ly : Layout} (H : Host).

(** X20: a list literal evaluates none of its elements.  For every list
    of element expressions the evaluation returns, needs one level of
    recursion only, stores a list of the literal's length whose elements are
    freshly allocated cells, and fills the cells, in order, with the thunks
    of the element expressions in the current environment. *)
Theorem eval_List_is_lazy fuel st env es v :
  v < length (values st) ->
  eval H (S fuel) env (List es) v st =
    Ok tt (mkState (<[v := mkValue tList (uList (length es) (length (values st)))]> (values st)
                      ++ map (fun e => mkValue tThunk (uThunk env e)) es)
                   (maps st) (envs st) (srcToStore st)).
Proof.
  intros Hv.
  change (eval H (S fuel)) with (eval_ fuel (funs H fuel)). cbn [eval_].
  unfold mkList. rewrite bind_assoc.
  unfold bind at 1. unfold allocValues at 1.
  erewrite bind_ok; [| apply assign_ok; cbn [values]; rewrite length_app; lia].
  cbn [values maps envs srcToStore].
  erewrite bind_ok;
    [| apply deref_ok; cbn [values]; apply list_lookup_insert_eq; rewrite length_app; lia].
  unfold get_list; cbn [payload]. rewrite bind_ret_l. cbn [snd].
  rewrite (listThunks_spec (length (values st)) env es []
             (<[v := mkValue tList (uList (length es) (length (values st)))]> (values st)) []).
  - cbn [maps envs srcToStore]. simpl. now rewrite app_nil_r.
  - cbn [values]. simpl. rewrite app_nil_r. now rewrite insert_app_l.
  - now rewrite length_insert.
Qed.

(** X21: applying a lambda with a variable pattern does not evaluate the
    argument.  Evaluating [(x: body) arg] is evaluating [body] in a new
    environment, child of the current one, in which [x] is bound to a cell
    holding the thunk of [arg] in the current environment; the closure and
    the argument thunk are the two locals allocated on the way. *)
Theorem eval_Call_lambda_is_lazy fuel st env x body arg v :
  eval H (S (S fuel)) env (Call (Function (VarPat x) body) arg) v st =
    eval H fuel (length (envs st)) body v
      (mkState (values st ++ [mkValue tLambda (uLambda env (VarPat x) body);
                              mkValue tThunk (uThunk env arg);
                              mkValue tThunk (uThunk env arg)])
               (maps st ++ [[(x, length (values st) + 2)]])
               (envs st ++ [mkEnv (Some env) (length (maps st))])
               (srcToStore st)).
Proof.
  change (eval H (S (S fuel))) with (eval_ (S fuel) (funs H (S fuel))). cbn [eval_].
  rewrite (bind_ok _ _ _ _ _ (local_ok st)).
  change (r_eval (funs H (S fuel))) with (eval_ fuel (funs H fuel)). cbn [eval_].
  erewrite bind_ok; [| apply assign_ok; cbn [values]; rewrite length_app; simpl; lia].
  cbn [values maps envs srcToStore]. rewrite alloc1_fill.
  erewrite bind_ok; [| apply local_ok]. cbn [values maps envs srcToStore].
  unfold mkThunk.
  erewrite bind_ok;
    [| apply assign_ok; cbn [values]; rewrite !length_app; simpl; lia].
  cbn [values maps envs srcToStore].
  replace (<[length (values st ++ [mkValue tLambda (uLambda env (VarPat x) body)])
             := mkValue tThunk (uThunk env arg)]>
             ((values st ++ [mkValue tLambda (uLambda env (VarPat x) body)]) ++ [fresh]))
    with (values st ++ [mkValue tLambda (uLambda env (VarPat x) body);
                        mkValue tThunk (uThunk env arg)])
    by (rewrite alloc1_fill, <- app_assoc; reflexivity).
  change (r_callFunction (funs H (S fuel))) with (callFunction_ H fuel (funs H fuel)).
  erewrite callFunction_VarPat.
  - cbn [values maps envs srcToStore].
    change (r_eval (funs H fuel)) with (eval H fuel).
    rewrite <- app_assoc. simpl. rewrite !length_app. simpl.
    f_equal.
  - cbn [values]. apply list_lookup_middle. reflexivity.
  - cbn [values].
    replace (values st ++ [mkValue tLambda (uLambda env (VarPat x) body);
                           mkValue tThunk (uThunk env arg)])
      with ((values st ++ [mkValue tLambda (uLambda env (VarPat x) body)])
              ++ [mkValue tThunk (uThunk env arg)])
      by (now rewrite <- app_assoc).
    apply list_lookup_middle. reflexivity.
Qed.

End Lazy.

(** ** List concatenation *)

Section CopyElems.
Context {Ly : Layout}.

Lemma copyElems_spec dst src : forall todo n st,
  src + n + todo <= dst -> dst + n + todo <= length (values st) ->
  exists st',
    copyElems dst src todo n st = Ok tt st' /\
    maps st' = maps st /\ envs st' = envs st /\ srcToStore st' = srcToStore st /\
    length (values st') = length (values st) /\
    (forall i, n <= i < n + todo -> values st' !! (dst + i) = values st !! (src + i)) /\
    (forall j, ~ (dst + n <= j < dst + n + todo) -> values st' !! j = values st !! j).
Proof.
  induction todo as [|todo IH]; intros n st Hsrc Hdst.
  - exists st. simpl. repeat split; try reflexivity. intros i Hi. lia.
  - cbn [copyElems].
    assert (Hsrc_lt : src + n < length (values st)) by lia.
    assert (Hdst_lt : dst + n < length (values st)) by lia.
    destruct (lookup_lt_is_Some_2 _ _ Hsrc_lt) as [c Hc].
    rewrite (bind_ok _ _ _ _ _ (copy_ok _ _ _ _ Hc Hdst_lt)).
    set (st1 := mkState (<[dst + n := c]> (values st)) (maps st) (envs st) (srcToStore st)).
    destruct (IH (S n) st1) as (st' & Hrun & Hm & He & Hs & Hlen & Hcopied & Hkept).
    { lia. }
    { unfold st1. cbn [values]. rewrite length_insert. lia. }
    exists st'. split; [exact Hrun|].
    unfold st1 in *. cbn [values maps envs srcToStore] in *.
    rewrite length_insert in Hlen.
    repeat split; try assumption.
    + intros i Hi. destruct (decide (i = n)) as [->|Hne].
      * rewrite Hkept by lia. rewrite Hc. apply list_lookup_insert_eq. lia.
      * rewrite Hcopied by lia. apply list_lookup_insert_ne. lia.
    + intros j Hj. rewrite Hkept by lia. apply list_lookup_insert_ne. lia.
Qed.

End CopyElems.

Section Concat.
Context {Ly : Layout} (H : Host).

Lemma forceList_ok fuel st v c :
  values st !! v = Some c -> type c = tList ->
  forceList (funs H (S fuel)) v st = Ok tt st.
Proof.
  intros Hv Ht. unfold forceList.
  change (r_forceValue (funs H (S fuel))) with (forceValue H (S fuel)).
  rewrite (bind_ok _ _ st tt st)
    by (eapply forceValue_forced; [exact Hv | rewrite Ht; discriminate ..]).
  rewrite (bind_ok _ _ _ _ _ (deref_ok _ _ _ Hv)).
  now destruct (decide (type c = tList)).
Qed.

(** X22: [e1 ++ e2], when [e1] and [e2] evaluate to lists of lengths
    [n1] and [n2], stores a list of length [n1 + n2] over freshly allocated
    cells: the first [n1] are copies of the element cells of the first list,
    the next [n2] copies of those of the second, in order.  The element
    cells are copied as they are (a thunk stays a thunk: no element is
    forced), and apart from the result cell the existing cells are
    unchanged. *)
Theorem eval_OpConcat_copies_elements fuel st env e1 e2 v st1 st2 n1 a1 n2 a2 :
  let v1 := length (values st) in
  let v2 := length (values st1) in
  eval H (S fuel) env e1 v1
    (mkState (values st ++ [fresh]) (maps st) (envs st) (srcToStore st)) = Ok tt st1 ->
  values st1 !! v1 = Some (mkValue tList (uList n1 a1)) ->
  eval H (S fuel) env e2 v2
    (mkState (values st1 ++ [fresh]) (maps st1) (envs st1) (srcToStore st1)) = Ok tt st2 ->
  values st2 !! v1 = Some (mkValue tList (uList n1 a1)) ->
  values st2 !! v2 = Some (mkValue tList (uList n2 a2)) ->
  a1 + n1 <= length (values st2) -> a2 + n2 <= length (values st2) ->
  v < length (values st2) ->
  let base := length (values st2) in
  let vals := <[v := mkValue tList (uList (n1 + n2) base)]> (values st2) in
  exists st',
    eval H (S (S fuel)) env (OpConcat e1 e2) v st = Ok tt st' /\
    length (values st') = base + (n1 + n2) /\
    (forall j, j < base -> values st' !! j = vals !! j) /\
    (forall i, i < n1 -> values st' !! (base + i) = vals !! (a1 + i)) /\
    (forall i, i < n2 -> values st' !! (base + n1 + i) = vals !! (a2 + i)).
Proof.
  intros v1 v2 He1 Hv1 He2 Hv1' Hv2 Hr1 Hr2 Hv base vals.
  change (eval H (S (S fuel))) with (eval_ (S fuel) (funs H (S fuel))). cbn [eval_].
  rewrite (bind_ok _ _ _ _ _ (local_ok st)).
  change (r_eval (funs H (S fuel))) with (eval H (S fuel)).
  rewrite (bind_ok _ _ _ _ _ He1).
  rewrite (bind_ok _ _ _ _ _ (forceList_ok fuel st1 v1 _ Hv1 eq_refl)).
  rewrite (bind_ok _ _ _ _ _ (local_ok st1)).
  rewrite (bind_ok _ _ _ _ _ He2).
  rewrite (bind_ok _ _ _ _ _ (forceList_ok fuel st2 v2 _ Hv2 eq_refl)).
  rewrite (bind_ok _ _ _ _ _ (deref_ok _ _ _ Hv1')).
  unfold get_list at 1; cbn [payload]. rewrite bind_ret_l.
  rewrite (bind_ok _ _ _ _ _ (deref_ok _ _ _ Hv2)).
  unfold get_list at 1; cbn [payload]. rewrite bind_ret_l. cbn [fst snd].
  unfold mkList. rewrite bind_assoc.
  unfold bind at 1. unfold allocValues at 1.
  erewrite bind_ok; [| apply assign_ok; cbn [values]; rewrite length_app; lia].
  cbn [values maps envs srcToStore].
  erewrite bind_ok;
    [| apply deref_ok; cbn [values]; apply list_lookup_insert_eq; rewrite length_app; lia].
  unfold get_list; cbn [payload]. rewrite bind_ret_l. cbn [fst snd].
  fold base.
  set (stA := mkState (<[v := mkValue tList (uList (n1 + n2) base)]>
                         (values st2 ++ replicate (n1 + n2) fresh))
                      (maps st2) (envs st2) (srcToStore st2)).
  assert (HlenA : length (values stA) = base + (n1 + n2)).
  { unfold stA. cbn [values]. rewrite length_insert, length_app, length_replicate. reflexivity. }
  assert (HvalsA : forall j, j < base -> values stA !! j = vals !! j).
  { intros j Hj. unfold stA, vals. cbn [values].
    rewrite insert_app_l by exact Hv. apply lookup_app_l. now rewrite length_insert. }
  destruct (copyElems_spec base a1 n1 0 stA) as (stB & HrunB & _ & _ & _ & HlenB & HcopB & HkeepB).
  { unfold base. lia. }
  { lia. }
  rewrite (bind_ok _ _ _ _ _ HrunB).
  destruct (copyElems_spec (base + n1) a2 n2 0 stB)
    as (stC & HrunC & _ & _ & _ & HlenC & HcopC & HkeepC).
  { unfold base. lia. }
  { lia. }
  exists stC. split; [exact HrunC|].
  split; [lia|]. split; [|split].
  - intros j Hj. rewrite HkeepC by lia. rewrite HkeepB by lia. now apply HvalsA.
  - intros i Hi. rewrite HkeepC by lia. rewrite HcopB by lia. apply HvalsA. unfold base. lia.
  - intros i Hi. rewrite HcopC by lia. rewrite HkeepB by (unfold base; lia).
    apply HvalsA. unfold base. lia.
Qed.

End Concat.

(** ** Attribute set literals *)

Section BindThunks.
Context {Ly : Layout}.

Lemma slot_assign_step st b bs name X :
  slots_inv st b bs ->
  exists st1 bs1 i,
    (v <- slot b name ;; assign v X) st = Ok tt st1 /\
    slots_inv st1 b bs1 /\
    find name bs1 = Some i /\ values st1 !! i = Some X /\
    (find name bs = Some i \/ (find name bs = None /\ i = length (values st))) /\
    (forall name', name' <> name -> find name' bs1 = find name' bs) /\
    (forall j, j < length (values st) -> find name bs <> Some j ->
               values st1 !! j = values st !! j) /\
    (forall b', b' <> b -> maps st1 !! b' = maps st !! b') /\
    envs st1 = envs st /\
    length (values st) <= length (values st1) /\
    (forall c, In c (map snd bs1) -> In c (map snd bs) \/ c = length (values st)).
Proof.
  intros [Hbs Hnd Hvalid].
  unfold slot. rewrite bind_assoc, (bind_ok _ _ _ _ _ (readBindings_ok _ _ _ Hbs)).
  destruct (find name bs) as [a|] eqn:Hfind.
  - pose proof (find_In _ _ _ Hfind) as Hin.
    rewrite bind_ret_l, assign_ok by (now apply Hvalid).
    eexists _, bs, a. split; [reflexivity|]. cbn [values maps envs].
    split; [|repeat split].
    + constructor; cbn [values maps]; try assumption.
      intros c Hc. rewrite length_insert. now apply Hvalid.
    + exact Hfind.
    + apply list_lookup_insert_eq. now apply Hvalid.
    + now left.
    + intros j Hj Hne. apply list_lookup_insert_ne. intros ->. now apply Hne.
    + now rewrite length_insert.
    + intros c Hc. now left.
  - pose proof (lookup_lt_Some _ _ _ Hbs) as Hb_lt.
    rewrite bind_assoc. unfold allocValues at 1. unfold bind at 1. cbv beta iota.
    rewrite bind_assoc.
    unfold writeBindings at 1. unfold bind at 1. simpl.
    destruct (decide (b < length (maps st))) as [_|Hn]; [|contradiction].
    rewrite bind_ret_l.
    rewrite assign_ok by (simpl; rewrite length_app; simpl; lia).
    simpl. rewrite alloc1_fill.
    eexists _, (insert_slot name (length (values st)) bs), (length (values st)).
    split; [reflexivity|]. cbn [values maps envs].
    split; [|repeat split].
    + constructor; cbn [values maps].
      * now apply list_lookup_insert_eq.
      * apply NoDup_insert_slot; [|exact Hnd].
        intros Hin. apply Hvalid in Hin. lia.
      * intros c. rewrite in_insert_slot, length_app. simpl.
        intros [->|Hin]; [lia | apply Hvalid in Hin; lia].
    + now apply find_insert_slot_eq.
    + apply list_lookup_middle. reflexivity.
    + right. split; reflexivity.
    + intros name' Hn'. now apply find_insert_slot_ne.
    + intros j Hj _. now apply lookup_app_l.
    + intros b' Hb'. apply list_lookup_insert_ne. congruence.
    + rewrite length_app. lia.
    + intros c Hc. apply in_insert_slot in Hc. tauto.
Qed.

Lemma bindThunks_spec b env : forall es st bs,
  slots_inv st b bs ->
  exists st' bs',
    bindThunks b env es st = Ok tt st' /\
    slots_inv st' b bs' /\
    (forall name, find name bs' = None <-> find name bs = None /\ ~ In name (map fst es)) /\
    (forall name, ~ In name (map fst es) -> find name bs' = find name bs) /\
    (NoDup (map fst es) ->
     forall name e, In (name, e) es ->
       exists i, find name bs' = Some i /\ values st' !! i = Some (thunk env e)) /\
    (forall j, j < length (values st) ->
       (forall name, In name (map fst es) -> find name bs <> Some j) ->
       values st' !! j = values st !! j) /\
    (forall b', b' <> b -> maps st' !! b' = maps st !! b') /\
    envs st' = envs st /\
    length (values st) <= length (values st') /\
    (forall name j, find name bs' = Some j ->
       find name bs = Some j \/ length (values st) <= j).
Proof.
  induction es as [|[name e] es IH]; intros st bs Hinv.
  - exists st, bs. split; [reflexivity|]. split; [exact Hinv|].
    repeat split; auto; try tauto.
    intros _ name e [].
  - cbn [bindThunks]. unfold mkThunk.
    destruct (slot_assign_step st b bs name (thunk env e) Hinv)
      as (st1 & bs1 & i & Hrun & Hinv1 & Hfind1 & Hcell1 & Hwhere1 & Hnames1 & Hkeep1 & Hmaps1
          & Henvs1 & Hlen1 & _).
    assert (Hrw : forall k : M unit,
              (v <- slot b name ;; assign v (mkValue tThunk (uThunk env e)) ;; k) st = k st1).
    { intros k.
      transitivity (((v <- slot b name ;; assign v (thunk env e)) ;; k) st);
        [now rewrite bind_assoc | now rewrite (bind_ok _ _ _ _ _ Hrun)]. }
    rewrite Hrw.
    destruct (IH st1 bs1 Hinv1)
      as (st' & bs' & Hrest & Hinv' & Hnone & Hsame & Hthunks & Hkeep & Hmaps & Henvs & Hlen
          & Hnew).
    exists st', bs'. split; [exact Hrest|]. split; [exact Hinv'|].
    assert (Hfind_st : forall n j, find n bs = Some j -> j < length (values st)).
    { intros n j Hf. apply (si_valid _ _ _ Hinv). eapply find_In; eassumption. }
    split; [|split; [|split; [|split; [|split; [|split; [|split]]]]]].
    + intros n. rewrite Hnone. cbn [map fst In].
      destruct (String.string_dec name n) as [->|Hne].
      * rewrite Hfind1. split; [intros [? _]; discriminate | intros [_ Hn]; tauto].
      * rewrite (Hnames1 n) by congruence. tauto.
    + intros n Hn. cbn [map fst In] in Hn.
      rewrite Hsame by tauto. apply Hnames1. intros ->. tauto.
    + intros Hnd n e' Hin. cbn [map fst] in Hnd.
      apply NoDup_cons in Hnd as [Hname Hnd]. rewrite list_elem_of_In in Hname.
      destruct Hin as [[= <- <-]|Hin].
      * exists i. split; [now rewrite (Hsame name Hname)|].
        rewrite Hkeep; [exact Hcell1 | apply (lookup_lt_Some _ _ _ Hcell1) |].
        intros n' Hn' Hf.
        assert (n' = name) by (eapply find_inj; [apply (si_nodup _ _ _ Hinv1) | eassumption ..]).
        subst. contradiction.
      * now apply Hthunks.
    + intros j Hj Hfree.
      rewrite Hkeep.
      * apply Hkeep1; [exact Hj|]. apply Hfree. now left.
      * lia.
      * intros n' Hn' Hf.
        destruct (String.string_dec n' name) as [->|Hne].
        -- rewrite Hfind1 in Hf. injection Hf as ->.
           destruct Hwhere1 as [Hw | [_ Hw]]; [|lia].
           apply (Hfree name); [now left | exact Hw].
        -- rewrite (Hnames1 n' Hne) in Hf. apply (Hfree n'); [now right | exact Hf].
    + intros b' Hb'. rewrite Hmaps by exact Hb'. now apply Hmaps1.
    + congruence.
    + lia.
    + intros n j Hf. destruct (Hnew n j Hf) as [Hf1 | Hge]; [|right; lia].
      destruct (String.string_dec n name) as [->|Hne].
      * rewrite Hfind1 in Hf1. injection Hf1 as ->.
        destruct Hwhere1 as [Hw | [_ Hw]]; [now left | right; lia].
      * left. now rewrite <- (Hnames1 n Hne).
Qed.

End BindThunks.

Section AttrsMore.
Context {Ly : Layout} (H : Host).

(** X23: an attribute set literal evaluates none of its attributes.
    The evaluation returns for every list of bindings, stores an attribute
    set over a new map whose names are exactly the names of the literal, and
    (the names being distinct) binds each name to the thunk of its
    expression in the current environment; the other cells, the other maps
    and the environments are unchanged. *)
Theorem eval_Attrs_is_lazy fuel st env es v :
  v < length (values st) ->
  exists st' bs,
    eval H (S fuel) env (Attrs es) v st = Ok tt st' /\
    values st' !! v = Some (mkValue tAttrs (uAttrs (length (maps st)))) /\
    maps st' !! length (maps st) = Some bs /\
    (forall name, find name bs = None <-> ~ In name (map fst es)) /\
    (NoDup (map fst es) ->
     forall name e, In (name, e) es ->
       exists i, find name bs = Some i /\ values st' !! i = Some (thunk env e)) /\
    (forall j, j < length (values st) -> j <> v -> values st' !! j = values st !! j) /\
    (forall b, b < length (maps st) -> maps st' !! b = maps st !! b) /\
    envs st' = envs st.
Proof.
  intros Hv.
  change (eval H (S fuel)) with (eval_ fuel (funs H fuel)). cbn [eval_].
  unfold mkAttrs. rewrite bind_assoc.
  unfold bind at 1. unfold newBindings at 1.
  erewrite bind_ok; [| apply assign_ok; exact Hv].
  cbn [values maps envs srcToStore].
  erewrite bind_ok; [| apply deref_ok; cbn [values]; now apply list_lookup_insert_eq].
  unfold get_attrs; cbn [payload]. rewrite bind_ret_l.
  set (st0 := mkState (<[v := mkValue tAttrs (uAttrs (length (maps st)))]> (values st))
                      (maps st ++ [[]]) (envs st) (srcToStore st)).
  assert (Hinv : slots_inv st0 (length (maps st)) []).
  { constructor; cbn.
    - apply list_lookup_middle. reflexivity.
    - apply NoDup_nil_2.
    - intros c []. }
  destruct (bindThunks_spec (length (maps st)) env es st0 [] Hinv)
    as (st' & bs' & Hrun & Hinv' & Hnone & _ & Hthunks & Hkeep & Hmaps & Henvs & Hlen & _).
  exists st', bs'. split; [exact Hrun|].
  assert (Hkeep0 : forall j, j < length (values st) -> values st' !! j = values st0 !! j).
  { intros j Hj. apply Hkeep; [unfold st0; cbn [values]; now rewrite length_insert|].
    intros name _. discriminate. }
  repeat split.
  - rewrite Hkeep0 by exact Hv. unfold st0; cbn [values]. now apply list_lookup_insert_eq.
  - exact (si_map _ _ _ Hinv').
  - intros Hn. apply Hnone in Hn. tauto.
  - intros Hn. apply Hnone. split; [reflexivity | exact Hn].
  - exact Hthunks.
  - intros j Hj Hne. rewrite Hkeep0 by exact Hj. unfold st0; cbn [values].
    apply list_lookup_insert_ne. congruence.
  - intros b Hb. rewrite Hmaps by lia. unfold st0; cbn [maps]. now apply lookup_app_l.
  - exact Henvs.
Qed.

(** X24: a recursive attribute set creates one new environment, child
    of the current one, and the resulting attribute set IS the bindings of
    that environment (the same map, not a copy).  The recursive attributes
    are bound to thunks in the new environment, the non-recursive ones to
    thunks in the original environment; nothing is evaluated. *)
Theorem eval_Rec_shares_bindings fuel st env rbnds nrbnds v :
  v < length (values st) ->
  NoDup (map fst (rbnds ++ nrbnds)) ->
  let env2 := length (envs st) in
  let b := length (maps st) in
  exists st' bs,
    eval H (S fuel) env (Rec rbnds nrbnds) v st = Ok tt st' /\
    values st' !! v = Some (mkValue tAttrs (uAttrs b)) /\
    envs st' = envs st ++ [mkEnv (Some env) b] /\
    maps st' !! b = Some bs /\
    (forall name, find name bs = None <-> ~ In name (map fst (rbnds ++ nrbnds))) /\
    (forall name e, In (name, e) rbnds ->
       exists i, find name bs = Some i /\ values st' !! i = Some (thunk env2 e)) /\
    (forall name e, In (name, e) nrbnds ->
       exists i, find name bs = Some i /\ values st' !! i = Some (thunk env e)).
Proof.
  intros Hv Hnd env2 b.
  change (eval H (S fuel)) with (eval_ fuel (funs H fuel)). cbn [eval_].
  rewrite (bind_ok _ _ _ _ _ (allocEnv_ok st)).
  erewrite bind_ok; [| apply set_up_ok; cbn [envs]; apply list_lookup_middle; reflexivity].
  cbn [values maps envs srcToStore bindings].
  replace (<[length (envs st) := mkEnv (Some env) (length (maps st))]>
             (envs st ++ [mkEnv None (length (maps st))]))
    with (envs st ++ [mkEnv (Some env) b])
    by (rewrite insert_app_r_alt by lia; now replace (_ - _) with 0 by lia).
  erewrite bind_ok; [| apply readEnv_ok; cbn [envs]; apply list_lookup_middle; reflexivity].
  cbn [bindings].
  erewrite bind_ok; [| apply assign_ok; exact Hv].
  cbn [values maps envs srcToStore]. fold b.
  set (st0 := mkState (<[v := mkValue tAttrs (uAttrs b)]> (values st))
                      (maps st ++ [[]]) (envs st ++ [mkEnv (Some env) b]) (srcToStore st)).
  rewrite map_app in Hnd. apply NoDup_app in Hnd as (Hnd1 & Hdisj & Hnd2).
  assert (Hinv : slots_inv st0 b []).
  { constructor; cbn.
    - apply list_lookup_middle. reflexivity.
    - apply NoDup_nil_2.
    - intros c []. }
  destruct (bindThunks_spec b env2 rbnds st0 [] Hinv)
    as (st1 & bs1 & Hrun1 & Hinv1 & Hnone1 & _ & Hthunks1 & Hkeep1 & _ & Henvs1 & Hlen1 & Hnew1).
  rewrite (bind_ok _ _ _ _ _ Hrun1).
  destruct (bindThunks_spec b env nrbnds st1 bs1 Hinv1)
    as (st' & bs' & Hrun2 & Hinv' & Hnone2 & Hsame2 & Hthunks2 & Hkeep2 & _ & Henvs2 & Hlen2 & _).
  exists st', bs'. split; [exact Hrun2|].
  assert (Hlen0 : length (values st0) = length (values st))
    by (unfold st0; cbn [values]; now rewrite length_insert).
  assert (Hfresh1 : forall n j, find n bs1 = Some j -> length (values st) <= j).
  { intros n j Hf. destruct (Hnew1 n j Hf) as [Hf0 | Hge]; [discriminate | lia]. }
  repeat split.
  - rewrite Hkeep2; [rewrite Hkeep1 | |].
    + unfold st0; cbn [values]. now apply list_lookup_insert_eq.
    + lia.
    + intros name _. discriminate.
    + lia.
    + intros name _ Hf. apply Hfresh1 in Hf. lia.
  - rewrite Henvs2, Henvs1. reflexivity.
  - exact (si_map _ _ _ Hinv').
  - intros Hn. apply Hnone2 in Hn as [Hn1 Hn2]. apply Hnone1 in Hn1 as [_ Hn1].
    rewrite map_app, in_app_iff. tauto.
  - intros Hn. rewrite map_app, in_app_iff in Hn. apply Hnone2. split; [|tauto].
    apply Hnone1. split; [reflexivity | tauto].
  - intros name e Hin.
    destruct (Hthunks1 Hnd1 name e Hin) as (i & Hfi & Hci).
    assert (Hnot : ~ In name (map fst nrbnds)).
    { intros Hin2. apply (Hdisj name); rewrite list_elem_of_In; [|exact Hin2].
      apply in_map_iff. now exists (name, e). }
    exists i. split; [now rewrite (Hsame2 name Hnot)|].
    rewrite Hkeep2; [exact Hci | apply (lookup_lt_Some _ _ _ Hci) |].
    intros n' Hn' Hf.
    assert (n' = name) by (eapply find_inj; [apply (si_nodup _ _ _ Hinv1) | eassumption ..]).
    subst. contradiction.
  - intros name e Hin. now apply (Hthunks2 Hnd2).
Qed.

End AttrsMore.

(** ** Selection *)

Section SelectMore.
Context {Ly : Layout} (H : Host).

(** X25: the outcomes of [e.name] once [e] has evaluated to an attribute
    set.  If [name] is absent the selection raises the [EvalError]
    "attribute `<name>' missing".  Otherwise only the selected attribute is
    forced: an error of that force is re-raised with the prefix "while
    evaluating the attribute `<name>':" and its class unchanged; on success
    the forced value is copied into the result. *)
Theorem eval_Select_outcomes fuel st env e2 name v st1 b (bs : Bindings) :
  eval H (S fuel) env e2 (length (values st))
    (mkState (values st ++ [fresh]) (maps st) (envs st) (srcToStore st)) = Ok tt st1 ->
  values st1 !! length (values st) = Some (mkValue tAttrs (uAttrs b)) ->
  maps st1 !! b = Some bs ->
  eval H (S (S fuel)) env (Select e2 name) v st =
    match find name bs with
    | None => Throw (AttrMissing name) st1
    | Some i =>
        match forceValue H (S fuel) i st1 with
        | Ok _ st2 => copy v i st2
        | Throw err st2 => Throw (addPrefix (attr_error_prefix name) err) st2
        | Crash => Crash
        | OutOfFuel => OutOfFuel
        end
    end.
Proof.
  intros He Hv2 Hbs.
  change (eval H (S (S fuel))) with (eval_ (S fuel) (funs H (S fuel))). cbn [eval_].
  rewrite (bind_ok _ _ _ _ _ (local_ok st)).
  change (r_eval (funs H (S fuel))) with (eval H (S fuel)).
  rewrite (bind_ok _ _ _ _ _ He).
  rewrite (bind_ok _ _ _ _ _ (forceAttrs_ok H fuel st1 _ _ Hv2 eq_refl)).
  rewrite (bind_ok _ _ _ _ _ (deref_ok _ _ _ Hv2)).
  unfold get_attrs; cbn [payload]. rewrite bind_ret_l.
  rewrite (bind_ok _ _ _ _ _ (readBindings_ok _ _ _ Hbs)).
  destruct (find name bs) as [i|]; [|reflexivity].
  change (r_forceValue (funs H (S fuel))) with (forceValue H (S fuel)).
  unfold bind at 1. unfold try_catch.
  destruct (forceValue H (S fuel) i st1) as [[] st2|err st2| |]; reflexivity.
Qed.

End SelectMore.

(** ** Automatic calls *)

Section AutoArgs.
Context {Ly : Layout}.

Lemma slot_copy_step st b bs name j X :
  slots_inv st b bs ->
  values st !! j = Some X ->
  (s <- slot b name ;; copy s j) st = (s <- slot b name ;; assign s X) st.
Proof.
  intros Hinv Hj. apply bind_cong. intros a st0 Hslot.
  destruct (slot_values _ _ _ _ _ Hslot) as (extra & Hvals).
  unfold copy. erewrite bind_ok; [reflexivity|].
  apply deref_ok. rewrite Hvals. now apply lookup_app_l_Some.
Qed.

Lemma autoArgs_spec (args : Bindings) actualArgs b N : forall formals st bs,
  slots_inv st b bs ->
  values st !! actualArgs = Some (mkValue tAttrs (uAttrs b)) ->
  actualArgs < N -> N <= length (values st) ->
  (forall c, In c (map snd bs) -> N <= c) ->
  (forall k j, find k args = Some j -> j < N) ->
  match auto_missing args formals with
  | Some name => exists st', autoArgs args actualArgs formals st = Throw (AutoCallError name) st'
  | None =>
      exists st' bs',
        autoArgs args actualArgs formals st = Ok tt st' /\
        slots_inv st' b bs' /\
        (forall c, In c (map snd bs') -> N <= c) /\
        (forall j, j < length (values st) ->
           (forall name, In name (map fst formals) -> find name bs <> Some j) ->
           values st' !! j = values st !! j) /\
        (forall name, ~ In name (map fst formals) -> find name bs' = find name bs) /\
        (forall name, find name bs' = None <->
           find name bs = None /\ ~ (In name (map fst formals) /\ find name args <> None)) /\
        (forall name j, In name (map fst formals) -> find name args = Some j ->
           exists i, find name bs' = Some i /\ values st' !! i = values st !! j) /\
        (forall b', b' <> b -> maps st' !! b' = maps st !! b') /\
        envs st' = envs st /\
        length (values st) <= length (values st')
  end.
Proof.
  induction formals as [|[name def2] rest IH]; intros st bs Hinv Hact HaN HN Hslots Hargs.
  - exists st, bs. split; [reflexivity|]. split; [exact Hinv|].
    repeat split; auto; try tauto. intros name j [].
  - cbn [autoArgs auto_missing].
    assert (Hlow_of : forall st0 (bs0 : Bindings) st' (fs : list (Sym * DefaultValue Expr)),
              N <= length (values st0) ->
              (forall c, In c (map snd bs0) -> N <= c) ->
              (forall j, j < length (values st0) ->
                 (forall name, In name (map fst fs) -> find name bs0 <> Some j) ->
                 values st' !! j = values st0 !! j) ->
              forall j, j < N -> values st' !! j = values st0 !! j).
    { intros st0 bs0 st' fs HN0 Hs0 Hk j Hj. apply Hk; [lia|].
      intros n _ Hf. apply find_In in Hf. apply Hs0 in Hf. lia. }
    assert (Hfind_slot : forall n c, find n bs = Some c -> N <= c).
    { intros n c Hf. apply Hslots. eapply find_In; eassumption. }
    destruct (find name args) as [j|] eqn:Hfa.
    + pose proof (Hargs _ _ Hfa) as HjN.
      rewrite (bind_ok _ _ _ _ _ (deref_ok _ _ _ Hact)).
      unfold get_attrs; cbn [payload]. rewrite bind_ret_l.
      assert (Hj_lt : j < length (values st)) by lia.
      destruct (lookup_lt_is_Some_2 _ _ Hj_lt) as [X HX].
      destruct (slot_assign_step st b bs name X Hinv)
        as (st1 & bs1 & i & Hrun & Hinv1 & Hfind1 & Hcell1 & Hwhere1 & Hnames1 & Hkeep1
            & Hmaps1 & Henvs1 & Hlen1 & Hmem1).
      assert (Hrw : forall k : M unit,
                (s <- slot b name ;; copy s j ;; k) st = k st1).
      { intros k.
        transitivity (((s <- slot b name ;; copy s j) ;; k) st);
          [now rewrite bind_assoc|].
        unfold bind at 1. rewrite (slot_copy_step st b bs name j X Hinv HX), Hrun.
        reflexivity. }
      rewrite Hrw.
      assert (Hslots1 : forall c, In c (map snd bs1) -> N <= c).
      { intros c Hc. destruct (Hmem1 c Hc) as [Hold | ->]; [now apply Hslots | exact HN]. }
      assert (Hlow1 : forall j', j' < N -> values st1 !! j' = values st !! j').
      { intros j' Hj'. apply Hkeep1; [lia|]. intros Hf. apply Hfind_slot in Hf. lia. }
      assert (Hact1 : values st1 !! actualArgs = Some (mkValue tAttrs (uAttrs b)))
        by (now rewrite Hlow1).
      specialize (IH st1 bs1 Hinv1 Hact1 HaN ltac:(lia) Hslots1 Hargs).
      destruct (auto_missing args rest) as [miss|]; [exact IH|].
      destruct IH as (st' & bs' & Hrest & Hinv' & Hslots' & Hkeep & Hsame & Hnone & Hbound
                      & Hmaps & Henvs & Hlen).
      pose proof (Hlow_of st1 bs1 st' rest ltac:(lia) Hslots1 Hkeep) as Hlow.
      exists st', bs'. split; [exact Hrest|]. split; [exact Hinv'|].
      split; [exact Hslots'|].
      split; [|split; [|split; [|split; [|split; [|split]]]]].
      * intros j' Hj' Hfree. rewrite Hkeep.
        -- apply Hkeep1; [exact Hj'|]. apply Hfree. now left.
        -- lia.
        -- intros n' Hn' Hf.
           destruct (String.string_dec n' name) as [->|Hne].
           ++ rewrite Hfind1 in Hf. injection Hf as ->.
              destruct Hwhere1 as [Hw | [_ Hw]]; [|lia].
              apply (Hfree name); [now left | exact Hw].
           ++ rewrite (Hnames1 n' Hne) in Hf. apply (Hfree n'); [now right | exact Hf].
      * intros n Hn. cbn [map fst In] in Hn.
        rewrite Hsame by tauto. apply Hnames1. intros ->. tauto.
      * intros n. rewrite Hnone. cbn [map fst In].
        destruct (String.string_dec name n) as [->|Hne].
        -- rewrite Hfind1, Hfa.
           split; [intros [? _]; discriminate|].
           intros [_ Hn]. exfalso. apply Hn. split; [now left | discriminate].
        -- rewrite (Hnames1 n) by congruence. tauto.
      * intros n j' Hin Hfn. cbn [map fst In] in Hin.
        destruct (in_dec String.string_dec n (map fst rest)) as [Hr|Hr].
        -- destruct (Hbound n j' Hr Hfn) as (i' & Hfi & Hci).
           exists i'. split; [exact Hfi|]. rewrite Hci. apply Hlow1. eapply Hargs; eassumption.
        -- destruct Hin as [<-|Hin]; [|contradiction].
           assert (j' = j) by congruence. subst j'.
           exists i. split; [now rewrite (Hsame name Hr)|].
           transitivity (Some X); [|symmetry; exact HX].
           rewrite <- Hcell1. apply Hkeep; [apply (lookup_lt_Some _ _ _ Hcell1)|].
           intros n' Hn' Hf.
           assert (n' = name)
             by (eapply find_inj; [apply (si_nodup _ _ _ Hinv1) | eassumption ..]).
           subst. contradiction.
      * intros b' Hb'. rewrite Hmaps by exact Hb'. now apply Hmaps1.
      * congruence.
      * lia.
    + destruct def2 as [|d].
      * exists st. reflexivity.
      * specialize (IH st bs Hinv Hact HaN HN Hslots Hargs).
        destruct (auto_missing args rest) as [miss|]; [exact IH|].
        destruct IH as (st' & bs' & Hrest & Hinv' & Hslots' & Hkeep & Hsame & Hnone & Hbound
                        & Hmaps & Henvs & Hlen).
        exists st', bs'. split; [exact Hrest|]. split; [exact Hinv'|].
        split; [exact Hslots'|].
        split; [|split; [|split; [|split; [|split; [|split]]]]]; try assumption.
        -- intros j' Hj' Hfree. apply Hkeep; [exact Hj'|].
           intros n' Hn'. apply Hfree. now right.
        -- intros n Hn. cbn [map fst In] in Hn. apply Hsame. tauto.
        -- intros n. rewrite Hnone. cbn [map fst In].
           split; intros [Hn1 Hn2]; (split; [exact Hn1|]).
           ++ intros [[<-|Hin] Hfn]; [congruence | tauto].
           ++ intros [Hin Hfn]. apply Hn2. tauto.
        -- intros n j' Hin Hfn. cbn [map fst In] in Hin.
           destruct Hin as [<-|Hin]; [congruence | now apply Hbound].
Qed.

Lemma auto_missing_first_missing (args bs : Bindings) : forall formals,
  auto_missing args formals = None ->
  (forall name, In name (map fst formals) -> find name args <> None -> find name bs <> None) ->
  first_missing bs formals = None.
Proof.
  induction formals as [|[name def2] rest IH]; intros Hauto Hfound; [reflexivity|].
  cbn [auto_missing first_missing] in *. unfold formal_binding. cbn [fst snd].
  assert (Hrest : forall n, In n (map fst rest) -> find n args <> None -> find n bs <> None)
    by (intros n Hn; apply Hfound; now right).
  destruct (find name args) as [j|] eqn:Hfa.
  - specialize (Hfound name ltac:(now left) ltac:(rewrite Hfa; discriminate)).
    destruct (find name bs); [|contradiction].
    apply IH; [|exact Hrest]. now destruct def2.
  - destruct def2 as [|d]; cbv iota in Hauto; [discriminate|].
    destruct (find name bs); now apply IH.
Qed.

End AutoArgs.

Section AutoCall.
Context {Ly : Layout} (H : Host).

(** X26: [autoCallFunction] returns a value that is not a lambda, and a
    lambda with a variable pattern, as it is: the result cell receives a copy
    of the value, nothing is called, and the given arguments are ignored. *)
Theorem autoCallFunction_passthrough fuel st args fn res c :
  values st !! fn = Some c -> evaluated c ->
  (type c <> tLambda \/
   exists env x body, c = mkValue tLambda (uLambda env (VarPat x) body)) ->
  res < length (values st) ->
  autoCallFunction (funs H (S fuel)) args fn res st =
    Ok tt (mkState (<[res := c]> (values st)) (maps st) (envs st) (srcToStore st)).
Proof.
  intros Hfn Hev Hshape Hres. unfold autoCallFunction.
  change (r_forceValue (funs H (S fuel))) with (forceValue H (S fuel)).
  rewrite (bind_ok _ _ _ _ _ (forceValue_evaluated H fuel st fn c Hfn Hev)).
  rewrite (bind_ok _ _ _ _ _ (deref_ok _ _ _ Hfn)).
  destruct (decide (type c <> tLambda)) as [_|Hlam].
  - now apply copy_ok.
  - destruct Hshape as [Hne | (env & x & body & ->)]; [contradiction|].
    unfold get_lambda; cbn [payload]. rewrite bind_ret_l. cbn [fst snd].
    now apply copy_ok.
Qed.

(** X27: [autoCallFunction] on a lambda with an attribute-set pattern.
    If some formal is neither among the given arguments nor has a default,
    the [TypeError] "cannot auto-call a function that has an argument
    without a default value" is raised for the first such formal, before the
    function is called.  Otherwise the function is called on a new attribute
    set that holds exactly the formals found among the given arguments, each
    bound to a copy of the given cell; arguments that are not formals are
    dropped, and no formal of the call will be reported missing. *)
Theorem autoCallFunction_supplies_formals fuel st (args : Bindings) fn res envf formals ellipsis
    alias body :
  values st !! fn
    = Some (mkValue tLambda (uLambda envf (AttrsPat formals ellipsis alias) body)) ->
  (forall k j, find k args = Some j -> j < length (values st)) ->
  let actualArgs := length (values st) in
  let b := length (maps st) in
  match auto_missing args formals with
  | Some name =>
      exists st',
        autoCallFunction (funs H (S fuel)) args fn res st = Throw (AutoCallError name) st'
  | None =>
      exists st' bs,
        autoCallFunction (funs H (S fuel)) args fn res st
          = callFunction H (S fuel) fn actualArgs res st' /\
        values st' !! actualArgs = Some (mkValue tAttrs (uAttrs b)) /\
        maps st' !! b = Some bs /\
        (forall name, find name bs = None <->
           ~ (In name (map fst formals) /\ find name args <> None)) /\
        (forall name j, In name (map fst formals) -> find name args = Some j ->
           exists i, find name bs = Some i /\ values st' !! i = values st !! j) /\
        first_missing bs formals = None /\
        (forall j, j < length (values st) -> values st' !! j = values st !! j)
  end.
Proof.
  intros Hfn Hargs actualArgs b.
  set (st0 := mkState (values st ++ [mkValue tAttrs (uAttrs b)]) (maps st ++ [[]])
                      (envs st) (srcToStore st)).
  assert (Hprefix :
    autoCallFunction (funs H (S fuel)) args fn res st =
      (autoArgs args actualArgs formals ;; callFunction H (S fuel) fn actualArgs res) st0).
  { unfold autoCallFunction.
    change (r_forceValue (funs H (S fuel))) with (forceValue H (S fuel)).
    rewrite (bind_ok _ _ st tt st)
      by (eapply forceValue_forced; [exact Hfn | discriminate ..]).
    rewrite (bind_ok _ _ _ _ _ (deref_ok _ _ _ Hfn)). cbn [type].
    destruct (decide (tLambda <> tLambda)) as [Hne|_]; [contradiction|].
    unfold get_lambda; cbn [payload]. rewrite bind_ret_l. cbn [fst snd].
    rewrite (bind_ok _ _ _ _ _ (local_ok st)).
    unfold mkAttrs. rewrite !bind_assoc.
    unfold bind at 1. unfold newBindings at 1. cbn [values maps envs srcToStore].
    erewrite bind_ok; [| apply assign_ok; cbn [values]; rewrite length_app; simpl; lia].
    cbn [values maps envs srcToStore]. rewrite alloc1_fill. reflexivity. }
  rewrite Hprefix. clear Hprefix.
  assert (Hinv : slots_inv st0 b []).
  { constructor; cbn.
    - apply list_lookup_middle. reflexivity.
    - apply NoDup_nil_2.
    - intros c []. }
  assert (Hact : values st0 !! actualArgs = Some (mkValue tAttrs (uAttrs b)))
    by (cbn; apply list_lookup_middle; reflexivity).
  assert (Hlen0 : length (values st0) = S (length (values st)))
    by (cbn; rewrite length_app; simpl; lia).
  pose proof (autoArgs_spec args actualArgs b (length (values st0)) formals st0 [] Hinv Hact
                ltac:(unfold actualArgs; lia) ltac:(lia) ltac:(intros c [])
                ltac:(intros k j Hf; apply Hargs in Hf; lia)) as Hspec.
  destruct (auto_missing args formals) as [name|] eqn:Hauto.
  - destruct Hspec as (st' & Hthrow). exists st'.
    unfold bind at 1. now rewrite Hthrow.
  - destruct Hspec as (st' & bs' & Hrun & Hinv' & Hslots' & Hkeep & _ & Hnone & Hbound & _).
    exists st', bs'. rewrite (bind_ok _ _ _ _ _ Hrun).
    assert (Hkeep0 : forall j, j < length (values st0) -> values st' !! j = values st0 !! j).
    { intros j Hj. apply Hkeep; [exact Hj|]. intros n _. discriminate. }
    split; [reflexivity|].
    split; [rewrite Hkeep0 by (unfold actualArgs; lia); exact Hact|].
    split; [exact (si_map _ _ _ Hinv')|].
    assert (Hnone' : forall name, find name bs' = None <->
                       ~ (In name (map fst formals) /\ find name args <> None)).
    { intros n. rewrite Hnone. cbn [find]. tauto. }
    split; [exact Hnone'|].
    split; [|split].
    + intros n j Hin Hf. destruct (Hbound n j Hin Hf) as (i & Hfi & Hci).
      exists i. split; [exact Hfi|]. rewrite Hci. cbn [st0 values].
      apply lookup_app_l. eapply Hargs; eassumption.
    + apply (auto_missing_first_missing args bs' formals Hauto).
      intros n Hin Hfa Hfb. apply Hnone' in Hfb. tauto.
    + intros j Hj. rewrite Hkeep0 by lia. cbn [st0 values]. now apply lookup_app_l.
Qed.

End AutoCall.

(** ** Registering constants and primops *)

Section Registration.
Context {Ly : Layout}.

Lemma addPrimOp_addConstant baseEnv name arity primOp :
  addPrimOp baseEnv name arity primOp =
    (v <- local ;; assign v (mkValue tPrimOp (uPrimOp primOp arity)) ;;
     addConstant baseEnv name v).
Proof. reflexivity. Qed.

Lemma addConstant_aux st baseEnv name v cv E (bs : Bindings) bi bb (bbs : Bindings) :
  envs st !! baseEnv = Some E ->
  slots_inv st (bindings E) bs ->
  find "builtins"%string bs = Some bi ->
  values st !! bi = Some (mkValue tAttrs (uAttrs bb)) ->
  slots_inv st bb bbs ->
  bb <> bindings E ->
  ~ In bi (map snd bbs) ->
  name <> "builtins"%string ->
  values st !! v = Some cv ->
  exists st',
    addConstant baseEnv name v st = Ok tt st' /\
    env_binds st' baseEnv name = Some cv /\
    attr_cell st' bi (strip__ name) = Some cv /\
    env_binds st' baseEnv "builtins"%string = Some (mkValue tAttrs (uAttrs bb)).
Proof.
  intros HE Hinv Hbi Hbicell Hinvb Hne Hbi_free Hname Hv.
  unfold addConstant.
  rewrite (bind_ok _ _ _ _ _ (readEnv_ok _ _ _ HE)).
  destruct (slot_assign_step st (bindings E) bs name cv Hinv)
    as (st1 & bs1 & s & Hrun1 & Hinv1 & Hfind1 & Hcell1 & Hwhere1 & Hnames1 & Hkeep1
        & Hmaps1 & Henvs1 & Hlen1 & Hmem1).
  assert (Hrw1 : forall k : M unit,
            (s <- slot (bindings E) name ;; copy s v ;; k) st = k st1).
  { intros k.
    transitivity (((s <- slot (bindings E) name ;; copy s v) ;; k) st);
      [now rewrite bind_assoc|].
    unfold bind at 1. rewrite (slot_copy_step st _ bs name v cv Hinv Hv), Hrun1.
    reflexivity. }
  rewrite Hrw1.
  assert (Hbi1 : find "builtins"%string bs1 = Some bi).
  { rewrite Hnames1 by congruence. exact Hbi. }
  pose proof (lookup_lt_Some _ _ _ Hbicell) as Hbi_lt.
  pose proof (lookup_lt_Some _ _ _ Hv) as Hv_lt.
  assert (Hbicell1 : values st1 !! bi = Some (mkValue tAttrs (uAttrs bb))).
  { rewrite Hkeep1; [exact Hbicell | exact Hbi_lt |].
    intros Hf. apply Hname.
    eapply find_inj; [apply (si_nodup _ _ _ Hinv) | exact Hf | exact Hbi]. }
  assert (Hv1 : values st1 !! v = Some cv).
  { destruct (decide (s = v)) as [->|Hsv]; [exact Hcell1|].
    rewrite Hkeep1; [exact Hv | exact Hv_lt |].
    intros Hf. destruct Hwhere1 as [Hw | [Hw _]]; congruence. }
  unfold slot at 1. rewrite !bind_assoc.
  rewrite (bind_ok _ _ _ _ _ (readBindings_ok _ _ _ (si_map _ _ _ Hinv1))).
  rewrite Hbi1, bind_ret_l.
  rewrite (bind_ok _ _ _ _ _ (deref_ok _ _ _ Hbicell1)).
  unfold get_attrs; cbn [payload]. rewrite bind_ret_l.
  assert (Hinvb1 : slots_inv st1 bb bbs).
  { constructor.
    - rewrite Hmaps1 by exact Hne. exact (si_map _ _ _ Hinvb).
    - exact (si_nodup _ _ _ Hinvb).
    - intros c Hc. apply (si_valid _ _ _ Hinvb) in Hc. lia. }
  destruct (slot_assign_step st1 bb bbs (strip__ name) cv Hinvb1)
    as (st2 & bbs2 & s2 & Hrun2 & Hinv2 & Hfind2 & Hcell2 & Hwhere2 & Hnames2 & Hkeep2
        & Hmaps2 & Henvs2 & Hlen2 & Hmem2).
  rewrite (slot_copy_step st1 bb bbs (strip__ name) v cv Hinvb1 Hv1), Hrun2.
  exists st2. split; [reflexivity|].
  assert (Hbs2 : maps st2 !! bindings E = Some bs1).
  { rewrite Hmaps2 by congruence. exact (si_map _ _ _ Hinv1). }
  assert (HE2 : envs st2 !! baseEnv = Some E) by (rewrite Henvs2, Henvs1; exact HE).
  assert (Hbicell2 : values st2 !! bi = Some (mkValue tAttrs (uAttrs bb))).
  { rewrite Hkeep2; [exact Hbicell1 | lia |].
    intros Hf. apply Hbi_free. eapply find_In; eassumption. }
  split; [|split].
  - rewrite (env_binds_eq _ _ E bs1 name HE2 Hbs2), Hfind1.
    destruct (decide (s2 = s)) as [->|Hss]; [exact Hcell2|].
    rewrite Hkeep2; [exact Hcell1 | apply (lookup_lt_Some _ _ _ Hcell1) |].
    intros Hf. destruct Hwhere2 as [Hw | [Hw _]]; congruence.
  - unfold attr_cell. rewrite Hbicell2. rewrite (si_map _ _ _ Hinv2), Hfind2. exact Hcell2.
  - rewrite (env_binds_eq _ _ E bs1 _ HE2 Hbs2), Hbi1. exact Hbicell2.
Qed.

Lemma addPrimOp_aux st baseEnv name arity primOp E (bs : Bindings) bi bb (bbs : Bindings) :
  envs st !! baseEnv = Some E ->
  slots_inv st (bindings E) bs ->
  find "builtins"%string bs = Some bi ->
  values st !! bi = Some (mkValue tAttrs (uAttrs bb)) ->
  slots_inv st bb bbs ->
  bb <> bindings E ->
  ~ In bi (map snd bbs) ->
  name <> "builtins"%string ->
  exists st',
    addPrimOp baseEnv name arity primOp st = Ok tt st' /\
    env_binds st' baseEnv name = Some (mkValue tPrimOp (uPrimOp primOp arity)) /\
    attr_cell st' bi (strip__ name) = Some (mkValue tPrimOp (uPrimOp primOp arity)) /\
    env_binds st' baseEnv "builtins"%string = Some (mkValue tAttrs (uAttrs bb)).
Proof.
  intros HE Hinv Hbi Hbicell Hinvb Hne Hbi_free Hname.
  rewrite addPrimOp_addConstant.
  rewrite (bind_ok _ _ _ _ _ (local_ok st)).
  erewrite bind_ok; [| apply assign_ok; cbn [values]; rewrite length_app; simpl; lia].
  cbn [values maps envs srcToStore]. rewrite alloc1_fill.
  apply (addConstant_aux _ baseEnv name (length (values st)) _ E bs bi bb bbs);
    cbn [values maps envs]; try assumption.
  - destruct Hinv as [Hm Hnd Hval]. constructor; cbn [values maps]; try assumption.
    intros c Hc. apply Hval in Hc. rewrite length_app. lia.
  - now apply lookup_app_l_Some.
  - destruct Hinvb as [Hm Hnd Hval]. constructor; cbn [values maps]; try assumption.
    intros c Hc. apply Hval in Hc. rewrite length_app. lia.
  - apply list_lookup_middle. reflexivity.
Qed.

Lemma substring_all s : substring 0 (String.length s) s = s.
Proof. induction s as [|c s IH]; [reflexivity|]. simpl. now rewrite IH. Qed.

Lemma strip___prefixed s : strip__ ("__" ++ s) = s.
Proof.
  unfold strip__. simpl.
  replace (substring 0 0 s) with EmptyString by (now destruct s).
  simpl. rewrite Nat.sub_0_r. apply substring_all.
Qed.

End Registration.

(** ** Cloning and updating attribute sets *)

Section Clone.
Context {Ly : Layout}.

Lemma find_None_iff name (bs : Bindings) : find name bs = None <-> ~ In name (map fst bs).
Proof.
  induction bs as [|[k x] bs IH]; simpl; [tauto|].
  destruct (String.eqb_spec k name); [split; [discriminate | tauto]|].
  rewrite IH. tauto.
Qed.

Lemma find_of_In k i (bs : Bindings) : NoDup (map fst bs) -> In (k, i) bs -> find k bs = Some i.
Proof.
  induction bs as [|[k' x] bs IH]; simpl; [tauto|].
  intros Hnd Hin. apply NoDup_cons in Hnd as [Hk Hnd]. rewrite list_elem_of_In in Hk.
  destruct Hin as [[= -> ->]|Hin]; [now rewrite String.eqb_refl|].
  destruct (String.eqb_spec k' k) as [->|Hne]; [|auto].
  exfalso. apply Hk. apply in_map_iff. now exists (k, i).
Qed.

(** A loop that writes [X i] into the slot of [k], for each binding [(k, i)]
    of [l], while the cells in [frozen] stay as they are. *)
Lemma fill_loop_spec b (f : Sym * addr -> M unit) (X : addr -> Value)
    (frozen : addr -> Prop) (st0 : State) : forall (l : Bindings) st bs,
  (forall x, In x l -> forall st bs,
     slots_inv st b bs -> (forall j, frozen j -> values st !! j = values st0 !! j) ->
     f x st = (c <- slot b (fst x) ;; assign c (X (snd x))) st) ->
  slots_inv st b bs ->
  (forall j, frozen j -> j < length (values st) /\ ~ In j (map snd bs)) ->
  (forall j, frozen j -> values st !! j = values st0 !! j) ->
  exists st' bs',
    forM l f st = Ok tt st' /\
    slots_inv st' b bs' /\
    (forall j, frozen j -> values st' !! j = values st0 !! j) /\
    (forall name, find name bs' = None <-> find name bs = None /\ ~ In name (map fst l)) /\
    (forall name, ~ In name (map fst l) -> find name bs' = find name bs) /\
    (NoDup (map fst l) ->
     forall k i, In (k, i) l ->
       exists d, find k bs' = Some d /\ values st' !! d = Some (X i)) /\
    (forall j, j < length (values st) ->
       (forall name, In name (map fst l) -> find name bs <> Some j) ->
       values st' !! j = values st !! j) /\
    (forall b', b' <> b -> maps st' !! b' = maps st !! b') /\
    envs st' = envs st /\
    length (values st) <= length (values st') /\
    (forall name j, find name bs' = Some j ->
       find name bs = Some j \/ length (values st) <= j) /\
    (forall c, In c (map snd bs') -> In c (map snd bs) \/ length (values st) <= c).
Proof.
  induction l as [|[name i0] l IH]; intros st bs Hf Hinv Hfrozen Hsame0.
  - exists st, bs. split; [reflexivity|]. split; [exact Hinv|].
    repeat split; auto; try tauto.
    intros _ k i [].
  - destruct (slot_assign_step st b bs name (X i0) Hinv)
      as (st1 & bs1 & i & Hrun & Hinv1 & Hfind1 & Hcell1 & Hwhere1 & Hnames1 & Hkeep1 & Hmaps1
          & Henvs1 & Hlen1 & Hmem1).
    assert (Hhead : forM ((name, i0) :: l) f st = forM l f st1).
    { cbn [forM]. unfold bind at 1.
      rewrite (Hf (name, i0) ltac:(now left) st bs Hinv Hsame0). cbn [fst snd].
      now rewrite Hrun. }
    rewrite Hhead.
    assert (Hfrozen1 : forall j, frozen j -> j < length (values st1) /\ ~ In j (map snd bs1)).
    { intros j Hj. destruct (Hfrozen j Hj) as [Hlt Hnot]. split; [lia|].
      intros Hin. destruct (Hmem1 j Hin) as [Hold | ->]; [contradiction | lia]. }
    assert (Hsame1 : forall j, frozen j -> values st1 !! j = values st0 !! j).
    { intros j Hj. destruct (Hfrozen j Hj) as [Hlt Hnot].
      rewrite Hkeep1; [now apply Hsame0 | exact Hlt |].
      intros Hfj. apply Hnot. eapply find_In; eassumption. }
    destruct (IH st1 bs1 (fun x Hx => Hf x (or_intror Hx)) Hinv1 Hfrozen1 Hsame1)
      as (st' & bs' & Hrest & Hinv' & Hsame' & Hnone & Hsame & Hcells & Hkeep & Hmaps & Henvs
          & Hlen & Hnew & Hmem).
    exists st', bs'. split; [exact Hrest|]. split; [exact Hinv'|]. split; [exact Hsame'|].
    split; [|split; [|split; [|split; [|split; [|split; [|split; [|split]]]]]]].
    + intros n. rewrite Hnone. cbn [map fst In].
      destruct (String.string_dec name n) as [->|Hne].
      * rewrite Hfind1. split; [intros [? _]; discriminate | intros [_ Hn]; tauto].
      * rewrite (Hnames1 n) by congruence. tauto.
    + intros n Hn. cbn [map fst In] in Hn.
      rewrite Hsame by tauto. apply Hnames1. intros ->. tauto.
    + intros Hnd k i' Hin. cbn [map fst] in Hnd.
      apply NoDup_cons in Hnd as [Hname Hnd]. rewrite list_elem_of_In in Hname.
      destruct Hin as [[= <- <-]|Hin].
      * exists i. split; [now rewrite (Hsame name Hname)|].
        rewrite Hkeep; [exact Hcell1 | apply (lookup_lt_Some _ _ _ Hcell1) |].
        intros n' Hn' Hfn.
        assert (n' = name) by (eapply find_inj; [apply (si_nodup _ _ _ Hinv1) | eassumption ..]).
        subst. contradiction.
      * now apply Hcells.
    + intros j Hj Hfree.
      rewrite Hkeep.
      * apply Hkeep1; [exact Hj|]. apply Hfree. now left.
      * lia.
      * intros n' Hn' Hfn.
        destruct (String.string_dec n' name) as [->|Hne].
        -- rewrite Hfind1 in Hfn. injection Hfn as ->.
           destruct Hwhere1 as [Hw | [_ Hw]]; [|lia].
           apply (Hfree name); [now left | exact Hw].
        -- rewrite (Hnames1 n' Hne) in Hfn. apply (Hfree n'); [now right | exact Hfn].
    + intros b' Hb'. rewrite Hmaps by exact Hb'. now apply Hmaps1.
    + congruence.
    + lia.
    + intros n j Hfn. destruct (Hnew n j Hfn) as [Hf1 | Hge]; [|right; lia].
      destruct (String.string_dec n name) as [->|Hne].
      * rewrite Hfind1 in Hf1. injection Hf1 as ->.
        destruct Hwhere1 as [Hw | [_ Hw]]; [now left | right; lia].
      * left. now rewrite <- (Hnames1 n Hne).
    + intros c Hc. destruct (Hmem c Hc) as [Hin1 | Hge]; [|right; lia].
      destruct (Hmem1 c Hin1) as [Hold | ->]; [now left | right; lia].
Qed.

(** What [cloneAttrs] does, with the invariant of the new map. *)
Lemma cloneAttrs_spec st src dst sb (bs : Bindings) :
  values st !! src = Some (mkValue tAttrs (uAttrs sb)) ->
  maps st !! sb = Some bs ->
  NoDup (map fst bs) ->
  dst < length (values st) -> dst <> src ->
  exists st' bs',
    cloneAttrs src dst st = Ok tt st' /\
    values st' !! dst = Some (mkValue tAttrs (uAttrs (length (maps st)))) /\
    maps st' !! length (maps st) = Some bs' /\
    (forall name, find name bs' = None <-> find name bs = None) /\
    (forall k i, In (k, i) bs ->
       exists d, find k bs' = Some d /\ length (values st) <= d /\
                 values st' !! d = Some (mkValue tCopy (uVal i))) /\
    (forall j, j < length (values st) -> j <> dst -> values st' !! j = values st !! j) /\
    (forall b, b < length (maps st) -> maps st' !! b = maps st !! b) /\
    envs st' = envs st /\
    slots_inv st' (length (maps st)) bs' /\
    (forall c, In c (map snd bs') -> length (values st) <= c).
Proof.
  intros Hsrc Hsb Hnd Hdst Hne.
  pose proof (lookup_lt_Some _ _ _ Hsb) as Hsb_lt.
  unfold cloneAttrs, mkAttrs. rewrite !bind_assoc.
  unfold bind at 1. unfold newBindings at 1.
  erewrite bind_ok; [| apply assign_ok; exact Hdst].
  cbn [values maps envs srcToStore].
  set (b := length (maps st)).
  set (st0 := mkState (<[dst := mkValue tAttrs (uAttrs b)]> (values st))
                      (maps st ++ [[]]) (envs st) (srcToStore st)).
  assert (Hsrc0 : values st0 !! src = Some (mkValue tAttrs (uAttrs sb))).
  { cbn. rewrite list_lookup_insert_ne by exact Hne. exact Hsrc. }
  rewrite (bind_ok _ _ _ _ _ (deref_ok _ _ _ Hsrc0)).
  unfold get_attrs at 1; cbn [payload]. rewrite bind_ret_l.
  erewrite bind_ok; [| apply readBindings_ok; unfold st0; cbn [maps]; apply lookup_app_l_Some; exact Hsb].
  assert (Hinv : slots_inv st0 b []).
  { constructor; cbn.
    - apply list_lookup_middle. reflexivity.
    - apply NoDup_nil_2.
    - intros c []. }
  assert (Hdst0 : values st0 !! dst = Some (mkValue tAttrs (uAttrs b)))
    by (cbn; now apply list_lookup_insert_eq).
  destruct (fill_loop_spec b
              (fun '(k, i) => d <- deref dst ;; db <- get_attrs d ;; c <- slot db k ;; mkCopy c i)
              (fun i => mkValue tCopy (uVal i)) (fun j => j = dst) st0 bs st0 [])
    as (st' & bs' & Hrun & Hinv' & Hsame' & Hnone & _ & Hcells & Hkeep & Hmaps & Henvs & Hlen
        & Hnew & Hmem).
  { intros [k i] _ st1 bs1 _ Hfz. cbn [fst snd].
    erewrite bind_ok; [| apply deref_ok; etransitivity; [apply (Hfz dst eq_refl) | exact Hdst0]].
    unfold get_attrs; cbn [payload]. rewrite bind_ret_l. reflexivity. }
  { exact Hinv. }
  { intros j ->. split; [cbn; now rewrite length_insert | intros []]. }
  { reflexivity. }
  exists st', bs'. split; [exact Hrun|].
  assert (Hlen0 : length (values st0) = length (values st))
    by (cbn; now rewrite length_insert).
  assert (Hkeep0 : forall j, j < length (values st) -> values st' !! j = values st0 !! j).
  { intros j Hj. apply Hkeep; [lia|]. intros name _. discriminate. }
  repeat split.
  - etransitivity; [apply (Hsame' dst eq_refl) | exact Hdst0].
  - exact (si_map _ _ _ Hinv').
  - intros Hn. apply Hnone in Hn as [_ Hn]. now apply find_None_iff.
  - intros Hn. apply Hnone. split; [reflexivity | now apply find_None_iff].
  - intros k i Hin. destruct (Hcells Hnd k i Hin) as (d & Hfd & Hcd).
    exists d. split; [exact Hfd|]. split; [|exact Hcd].
    destruct (Hnew k d Hfd) as [Hold | Hge]; [discriminate | lia].
  - intros j Hj Hjd. rewrite Hkeep0 by exact Hj. cbn.
    apply list_lookup_insert_ne. congruence.
  - intros b' Hb'. rewrite Hmaps by (unfold b; lia). cbn. now apply lookup_app_l.
  - exact Henvs.
  - exact (si_map _ _ _ Hinv').
  - exact (si_nodup _ _ _ Hinv').
  - exact (si_valid _ _ _ Hinv').
  - intros c Hc. destruct (Hmem c Hc) as [[] | Hge]. lia.
Qed.

(** X29: [cloneAttrs] makes the destination an attribute set over a new
    map with the names of the source; each name is bound to a freshly
    allocated copy node that points to the source's cell for that name, so
    the values are shared and not forced.  The source cell, its map and all
    other cells are unchanged. *)
Theorem cloneAttrs_shallow_copy st src dst sb (bs : Bindings) :
  values st !! src = Some (mkValue tAttrs (uAttrs sb)) ->
  maps st !! sb = Some bs ->
  NoDup (map fst bs) ->
  dst < length (values st) -> dst <> src ->
  exists st' bs',
    cloneAttrs src dst st = Ok tt st' /\
    values st' !! dst = Some (mkValue tAttrs (uAttrs (length (maps st)))) /\
    maps st' !! length (maps st) = Some bs' /\
    (forall name, find name bs' = None <-> find name bs = None) /\
    (forall k i, In (k, i) bs ->
       exists d, find k bs' = Some d /\ length (values st) <= d /\
                 values st' !! d = Some (mkValue tCopy (uVal i))) /\
    (forall j, j < length (values st) -> j <> dst -> values st' !! j = values st !! j) /\
    (forall b, b < length (maps st) -> maps st' !! b = maps st !! b) /\
    envs st' = envs st.
Proof.
  intros Hsrc Hsb Hnd Hdst Hne.
  destruct (cloneAttrs_spec st src dst sb bs Hsrc Hsb Hnd Hdst Hne)
    as (st' & bs' & Hrun & Hd & Hb & Hnames & Hcopies & Hkeep & Hmaps & Henvs & _).
  exists st', bs'. repeat split; try assumption; now apply Hnames.
Qed.

End Clone.

Section Update.
Context {Ly : Layout} (H : Host).

(** X30: [e1 // e2] is right-biased.  Let the left operand evaluate to an
    attribute set with bindings [bs1] and the right operand to one with
    bindings [bs2], the evaluation of the right operand leaving the clone of
    the left one as it is.  Then the result is an attribute set whose names
    are those of [bs1] and those of [bs2]; every name of the right operand
    is bound to a copy of the right operand's cell, also when the left
    operand has the name; and a name that only the left operand has is bound
    to a copy node pointing at the left operand's cell. *)
Theorem eval_OpUpdate_right_biased fuel st env e1 e2 v st1 stc st2 b1 (bs1 : Bindings) b2
    (bs2 : Bindings) :
  let v2 := length (values st) in
  let b := length (maps st1) in
  eval H (S fuel) env e1 v2
    (mkState (values st ++ [fresh]) (maps st) (envs st) (srcToStore st)) = Ok tt st1 ->
  values st1 !! v2 = Some (mkValue tAttrs (uAttrs b1)) ->
  maps st1 !! b1 = Some bs1 ->
  NoDup (map fst bs1) ->
  v < length (values st1) -> v <> v2 ->
  cloneAttrs v2 v st1 = Ok tt stc ->
  eval H (S fuel) env e2 v2 stc = Ok tt st2 ->
  values st2 !! v = values stc !! v ->
  maps st2 !! b = maps stc !! b ->
  (forall d, length (values st1) <= d < length (values stc) ->
             values st2 !! d = values stc !! d) ->
  values st2 !! v2 = Some (mkValue tAttrs (uAttrs b2)) ->
  maps st2 !! b2 = Some bs2 ->
  NoDup (map fst bs2) ->
  (forall k i, In (k, i) bs2 ->
     i < length (values st2) /\ ~ (length (values st1) <= i < length (values stc))) ->
  exists st' bs',
    eval H (S (S fuel)) env (OpUpdate e1 e2) v st = Ok tt st' /\
    values st' !! v = Some (mkValue tAttrs (uAttrs b)) /\
    maps st' !! b = Some bs' /\
    (forall name, find name bs' = None <-> find name bs1 = None /\ find name bs2 = None) /\
    (forall k i, In (k, i) bs2 ->
       exists d, find k bs' = Some d /\ values st' !! d = values st2 !! i) /\
    (forall k i, In (k, i) bs1 -> find k bs2 = None ->
       exists d, find k bs' = Some d /\ values st' !! d = Some (mkValue tCopy (uVal i))).
Proof.
  intros v2 b He1 Hv2_1 Hbs1 Hnd1 Hv_lt Hv_ne Hclone He2 Hfv Hfm Hfd Hv2 Hbs2 Hnd2 Hsrc.
  destruct (cloneAttrs_spec st1 v2 v b1 bs1 Hv2_1 Hbs1 Hnd1 Hv_lt Hv_ne)
    as (stc' & bsc & Hrunc & Hvc & Hbsc & Hnamesc & Hcopies & _ & _ & _ & Hinvc & Hlow).
  rewrite Hclone in Hrunc. injection Hrunc as <-.
  fold b in Hvc, Hbsc, Hinvc.
  assert (Hrange : forall c, In c (map snd bsc) ->
                     length (values st1) <= c < length (values stc)).
  { intros c Hc. split; [now apply Hlow | now apply (si_valid _ _ _ Hinvc)]. }
  assert (Hv : values st2 !! v = Some (mkValue tAttrs (uAttrs b))).
  { etransitivity; [exact Hfv | exact Hvc]. }
  assert (Hinv : slots_inv st2 b bsc).
  { constructor.
    - etransitivity; [exact Hfm | exact Hbsc].
    - exact (si_nodup _ _ _ Hinvc).
    - intros c Hc. pose proof (Hrange c Hc) as Hr.
      destruct (lookup_lt_is_Some_2 (values stc) c (proj2 Hr)) as [x Hx].
      apply (lookup_lt_Some (values st2) c x).
      etransitivity; [apply Hfd; exact Hr | exact Hx]. }
  change (eval H (S (S fuel))) with (eval_ (S fuel) (funs H (S fuel))). cbn [eval_].
  rewrite (bind_ok _ _ _ _ _ (local_ok st)).
  change (r_eval (funs H (S fuel))) with (eval H (S fuel)).
  rewrite (bind_ok _ _ _ _ _ He1).
  rewrite (bind_ok _ _ _ _ _ Hclone).
  rewrite (bind_ok _ _ _ _ _ He2).
  rewrite (bind_ok _ _ _ _ _ (deref_ok _ _ _ Hv2)).
  unfold get_attrs at 1; cbn [payload]. rewrite bind_ret_l.
  rewrite (bind_ok _ _ _ _ _ (readBindings_ok _ _ _ Hbs2)).
  destruct (fill_loop_spec b
              (fun '(k, i) => c <- deref v ;; b <- get_attrs c ;; d <- slot b k ;; copy d i)
              (fun i => default fresh (values st2 !! i))
              (fun j => j = v \/ In j (map snd bs2)) st2 bs2 st2 bsc)
    as (st' & bs' & Hrun & Hinv' & Hsame' & Hnone & Hsame & Hcells & Hkeep & _).
  { intros [k i] Hin st3 bs3 Hinv3 Hfz. cbn [fst snd].
    erewrite bind_ok;
      [| apply deref_ok; etransitivity; [apply (Hfz v (or_introl eq_refl)) | exact Hv]].
    unfold get_attrs; cbn [payload]. rewrite bind_ret_l.
    apply (slot_copy_step st3 b bs3 k i _ Hinv3).
    rewrite Hfz by (right; apply in_map_iff; now exists (k, i)).
    destruct (Hsrc k i Hin) as [Hlt _].
    destruct (values st2 !! i) as [x|] eqn:Hx; [reflexivity|].
    apply lookup_ge_None in Hx. lia. }
  { exact Hinv. }
  { intros j [->|Hj].
    - split; [exact (lookup_lt_Some _ _ _ Hv)|].
      intros Hin. apply Hrange in Hin. lia.
    - apply in_map_iff in Hj as ([k i] & <- & Hin). cbn [snd].
      destruct (Hsrc k i Hin) as [Hlt Hout]. split; [exact Hlt|].
      intros Hin'. apply Hout. now apply Hrange. }
  { reflexivity. }
  exists st', bs'. split; [exact Hrun|].
  split; [etransitivity; [apply (Hsame' v (or_introl eq_refl)) | exact Hv]|].
  split; [exact (si_map _ _ _ Hinv')|].
  split; [|split].
  - intros n. rewrite Hnone, (find_None_iff n bs2), (Hnamesc n). tauto.
  - intros k i Hin. destruct (Hcells Hnd2 k i Hin) as (d & Hfd' & Hcd).
    exists d. split; [exact Hfd'|]. rewrite Hcd.
    destruct (Hsrc k i Hin) as [Hlt _].
    destruct (values st2 !! i) as [x|] eqn:Hx; [reflexivity|].
    apply lookup_ge_None in Hx. lia.
  - intros k i Hin Hk2. apply find_None_iff in Hk2.
    destruct (Hcopies k i Hin) as (d & Hfd' & Hd_low & Hcd).
    exists d. split; [now rewrite (Hsame k Hk2)|].
    pose proof (find_In _ _ _ Hfd') as Hd_in.
    transitivity (values st2 !! d).
    + apply Hkeep; [apply (si_valid _ _ _ Hinv); exact Hd_in|].
      intros n' Hn' Hfn'.
      assert (n' = k) by (eapply find_inj; [apply (si_nodup _ _ _ Hinv) | eassumption ..]).
      subst. contradiction.
    + etransitivity; [apply Hfd; now apply Hrange | exact Hcd].
Qed.

End Update.

(** * Summary of the further properties, with instances *)

(** ** Equality *)

(** X1: two evaluated values of different types are unequal: [eqValues]
    answers [false] after the type test, whatever the payloads are, and
    leaves the store unchanged. *)
Theorem eqValues_type_mismatch {Ly : Layout} (H : Host) fuel st a b ca cb :
  values st !! a = Some ca -> values st !! b = Some cb ->
  evaluated ca -> evaluated cb ->
  type ca <> type cb ->
  eqValues H (S (S fuel)) a b st = Ok false st.
Proof. exact (eqValues_type_mismatch_aux H fuel st a b ca cb). Qed.

Lemma eqValues_type_mismatch_witness :
  let st := mkState [vInt 1; vBool true] [] [] [] in
  eqValues exampleHost 2 0 1 st = Ok false st.
Proof.
  intros st.
  apply (eqValues_type_mismatch exampleHost 0 st 0 1 (vInt 1) (vBool true));
    try reflexivity; try (repeat split; discriminate).
Defined.

Lemma eqValues_strings_ignore_context_witness :
  let st := mkState [mkValue tString (uString "a"%string ["/nix/store/p"%string]);
                     mkValue tString (uString "a"%string [])] [] [] [] in
  eqValues exampleHost 2 0 1 st = Ok true st.
Proof.
  intros st.
  apply (eqValues_strings_ignore_context exampleHost 0 st 0 1 "a"%string ["/nix/store/p"%string]
           "a"%string []); reflexivity.
Defined.

Lemma eqValues_sizes_differ_witness :
  let st := mkState [mkValue tList (uList 1 2); mkValue tList (uList 0 0);
                     mkValue tThunk (uThunk 0 (Var "undefined"%string))] [] [] [] in
  eqValues exampleHost 2 0 1 st = Ok false st.
Proof.
  intros st.
  apply (proj1 (eqValues_sizes_differ exampleHost 0 st 0 1) 1 2 0 0);
    try reflexivity. lia.
Defined.


(** ** Coercion *)

(** X5: coercing a string returns its characters and adds the string's
    context to the context passed in: the resulting context holds the paths
    it held before and those of the string, and no others; the flags
    [coerceMore] and [copyToStore] play no role, and the store is
    unchanged. *)
Theorem coerceToString_string_adds_context {Ly : Layout} (H : Host) fuel st v s ctx context
    coerceMore copyToStore :
  values st !! v = Some (mkValue tString (uString s ctx)) ->
  exists context',
    coerceToString H (S (S fuel)) v context coerceMore copyToStore st = Ok (s, context') st /\
    forall p, In p context' <-> In p context \/ In p ctx.
Proof.
  intros Hv. eexists. split.
  - exact (coerceToString_string_aux H fuel st v s ctx context coerceMore copyToStore Hv).
  - intros p. apply in_fold_set_insert.
Qed.

Lemma coerceToString_string_adds_context_witness :
  let st := mkState [mkValue tString (uString "a"%string ["/q"%string])] [] [] [] in
  exists context',
    coerceToString exampleHost 2 0 ["/p"%string] false false st = Ok ("a"%string, context') st /\
    forall p, In p context' <-> In p ["/p"%string] \/ In p ["/q"%string].
Proof.
  intros st.
  apply (coerceToString_string_adds_context exampleHost 0 st 0 "a"%string ["/q"%string]
           ["/p"%string] false false).
  reflexivity.
Defined.

Lemma coerceToString_path_memoised_witness :
  let st := mkState [mkValue tPath (uPath "/src/a"%string)] [] [] [] in
  let st1 := mkState [mkValue tPath (uPath "/src/a"%string)] [] []
                     [("/src/a"%string, "/nix/store/src/a"%string)%string] in
  coerceToString exampleHost 2 0 [] false true st
    = Ok ("/nix/store/src/a"%string, ["/nix/store/src/a"%string]) st1 /\
  coerceToString exampleHost 2 0 [] false true st1
    = Ok ("/nix/store/src/a"%string, ["/nix/store/src/a"%string]) st1.
Proof.
  intros st st1.
  assert (Hd : dstPath_of exampleHost (canonPath exampleHost "/src/a"%string) <> ""%string)
    by (vm_compute; discriminate).
  destruct (coerceToString_path_memoised exampleHost 0 st 0 "/src/a"%string [] false
              eq_refl eq_refl eq_refl Hd) as [Hfirst Hagain].
  split; [exact Hfirst | exact (Hagain 0 [] false)].
Defined.

Lemma coerceToString_rejects_derivation_files_witness :
  let st := mkState [mkValue tPath (uPath "/src/a.drv"%string)] [] [] [] in
  coerceToString exampleHost 2 0 [] false true st
    = Throw (mkError cEvalError "file names are not allowed to end in `.drv'"%string) st.
Proof.
  intros st.
  apply (coerceToString_rejects_derivation_files exampleHost 0 st 0 "/src/a.drv"%string [] false);
    reflexivity.
Defined.

Lemma coerceToString_coerceMore_scalars_witness :
  let st := mkState [vInt (-12); vBool false] [] [] [] in
  coerceToString exampleHost 2 0 [] true false st = Ok ("-12"%string, []) st /\
  coerceToString exampleHost 2 1 [] true false st = Ok (""%string, []) st.
Proof.
  intros st. split.
  - apply (proj1 (coerceToString_coerceMore_scalars exampleHost 0 st 0 [] false) (-12)%Z).
    reflexivity.
  - apply (proj1 (proj2 (coerceToString_coerceMore_scalars exampleHost 0 st 1 [] false)) false).
    reflexivity.
Defined.

Lemma coerceToString_strict_rejects_witness :
  let st := mkState [vInt 1] [] [] [] in
  coerceToString exampleHost 2 0 [] false false st
    = Throw (mkError cTypeError "cannot coerce an integer to a string"%string) st.
Proof.
  intros st.
  apply (coerceToString_strict_rejects exampleHost 0 st 0 (vInt 1) "an integer"%string [] false);
    try reflexivity; try discriminate.
  repeat split; discriminate.
Defined.

Lemma coerceToPath_result_absolute_witness :
  let st := mkState [mkValue tPath (uPath "/src/a"%string)] [] [] [] in
  coerceToPath (funs exampleHost 2) 0 [] st = Ok ("/src/a"%string, []) st /\
  exists rest, "/src/a"%string = String "/"%char rest.
Proof.
  intros st.
  assert (Hrun : coerceToPath (funs exampleHost 2) 0 [] st = Ok ("/src/a"%string, []) st)
    by (vm_compute; reflexivity).
  split; [exact Hrun|].
  exact (coerceToPath_result_absolute (funs exampleHost 2) 0 [] st ("/src/a"%string, []) st
           Hrun).
Defined.

(** X11: [coerceToPath] rejects a string that does not start with ['/']
    (the empty string included) with the [EvalError] "string `<s>' doesn't
    represent an absolute path"; a path value is returned in canonical form
    without being copied to the store: [srcToStore] and the context are
    unchanged. *)
Theorem coerceToPath_strings_and_paths {Ly : Layout} (H : Host) fuel st v context :
  (forall s ctx,
     values st !! v = Some (mkValue tString (uString s ctx)) ->
     is_absolute s = false ->
     coerceToPath (funs H (S (S fuel))) v context st
       = Throw (mkError cEvalError
                  ("string `"%string ++ s ++ "' doesn't represent an absolute path"%string)%string) st) /\
  (forall p,
     values st !! v = Some (mkValue tPath (uPath p)) ->
     is_absolute (canonPath H p) = true ->
     coerceToPath (funs H (S (S fuel))) v context st = Ok (canonPath H p, context) st).
Proof.
  split.
  - intros s ctx. apply coerceToPath_relative_aux.
  - intros p. apply coerceToPath_path_aux.
Qed.

Lemma coerceToPath_strings_and_paths_witness :
  let st := mkState [mkValue tString (uString "a/b"%string []); mkValue tPath (uPath "/src/a"%string)]
                    [] [] [] in
  coerceToPath (funs exampleHost 2) 0 [] st
    = Throw (mkError cEvalError "string `a/b' doesn't represent an absolute path"%string) st /\
  coerceToPath (funs exampleHost 2) 1 [] st = Ok ("/src/a"%string, []) st.
Proof.
  intros st. split.
  - apply (proj1 (coerceToPath_strings_and_paths exampleHost 0 st 0 []) "a/b"%string []);
      reflexivity.
  - apply (proj2 (coerceToPath_strings_and_paths exampleHost 0 st 1 []) "/src/a"%string);
      reflexivity.
Defined.

(** ** Strings and derivations *)

(** X12: the three ways to demand a string, on a string value with context
    [ctx].  [forceString] returns the characters; [forceString] with a
    context returns them and adds [ctx] to the context passed in;
    [forceStringNoCtx] returns them when [ctx] is empty and otherwise raises
    the [EvalError] "the string `<s>' is not allowed to refer to a store path
    (such as `<p>')" naming the first path of [ctx].  The store is
    unchanged. *)
Theorem forceString_variants {Ly : Layout} (H : Host) fuel st v s ctx context :
  values st !! v = Some (mkValue tString (uString s ctx)) ->
  let R := funs H (S fuel) in
  forceString R v st = Ok s st /\
  (exists context',
     forceStringCtx R v context st = Ok (s, context') st /\
     forall p, In p context' <-> In p context \/ In p ctx) /\
  forceStringNoCtx R v st =
    match ctx with
    | [] => Ok s st
    | p :: _ =>
        Throw (mkError cEvalError
                 ("the string `"%string ++ s
                    ++ "' is not allowed to refer to a store path (such as `"%string
                    ++ p ++ "')"%string)%string) st
    end.
Proof.
  intros Hv R. subst R. split; [|split].
  - exact (forceString_string H fuel st v s ctx Hv).
  - eexists. split.
    + unfold forceStringCtx.
      rewrite (bind_ok _ _ _ _ _ (forceString_string H fuel st v s ctx Hv)).
      rewrite (bind_ok _ _ _ _ _ (deref_ok _ _ _ Hv)).
      unfold get_string; cbn [payload]. rewrite bind_ret_l. reflexivity.
    + intros p. apply in_fold_set_insert.
  - exact (forceStringNoCtx_aux H fuel st v s ctx Hv).
Qed.

Lemma forceString_variants_witness :
  let st := mkState [mkValue tString (uString "a"%string ["/q"%string])] [] [] [] in
  forceString (funs exampleHost 1) 0 st = Ok "a"%string st /\
  forceStringNoCtx (funs exampleHost 1) 0 st
    = Throw (mkError cEvalError
               "the string `a' is not allowed to refer to a store path (such as `/q')"%string) st.
Proof.
  intros st.
  destruct (forceString_variants exampleHost 0 st 0 "a"%string ["/q"%string] [] eq_refl)
    as (Hs & _ & Hn).
  split; [exact Hs | exact Hn].
Defined.

Lemma isDerivation_cases_witness :
  let st := mkState [mkValue tAttrs (uAttrs 0); mkValue tString (uString "derivation"%string []);
                     vInt 1]
                    [[("type"%string, 1)]] [] [] in
  EvalState_isDerivation (funs exampleHost 1) 0 st = Ok true st /\
  EvalState_isDerivation (funs exampleHost 1) 2 st = Ok false st.
Proof.
  intros st.
  split.
  - apply (proj1 (proj2 (proj2 (isDerivation_cases exampleHost 0 st 0)))
             0 [("type"%string, 1)] 1 "derivation"%string); reflexivity.
  - apply (proj1 (isDerivation_cases exampleHost 0 st 2) (vInt 1));
      [reflexivity | discriminate].
Defined.


Lemma attr_cell_eq {Ly : Layout} st v b (bs : Bindings) name i :
  values st !! v = Some (mkValue tAttrs (uAttrs b)) ->
  maps st !! b = Some bs -> find name bs = Some i ->
  attr_cell st v name = values st !! i.
Proof. intros Hv Hb Hf. unfold attr_cell. now rewrite Hv, Hb, Hf. Qed.

(** ** Calls *)

Lemma callFunction_rejects_non_function_witness :
  let st := mkState [vInt 1; vInt 2; fresh] [] [] [] in
  callFunction exampleHost 1 0 1 2 st =
    Throw (mkError cTypeError
             "attempt to call something which is neither a function nor a primop (built-in operation) but an integer"%string)
          st.
Proof.
  intros st.
  apply (callFunction_rejects_non_function exampleHost 0 st 0 1 2 (vInt 1) "an integer"%string);
    try reflexivity; discriminate.
Defined.

Lemma callFunction_attrs_pattern_witness :
  let formals := [("x"%string, NoDefaultValue); ("y"%string, DefaultValue_ (Int 2))] in
  let st := mkState [mkValue tLambda (uLambda 0 (AttrsPat formals false "args"%string) (Var "x"%string));
                     mkValue tAttrs (uAttrs 0); vInt 7; fresh]
                    [[("x"%string, 2)]] [mkEnv None 0] [] in
  exists st',
    callFunction exampleHost 2 0 1 3 st = eval exampleHost 1 1 (Var "x"%string) 3 st' /\
    env_binds st' 1 "x"%string = Some (mkValue tCopy (uVal 2)) /\
    env_binds st' 1 "y"%string = Some (mkValue tThunk (uThunk 1 (Int 2))) /\
    env_binds st' 1 "args"%string = Some (mkValue tAttrs (uAttrs 0)).
Proof.
  intros formals st.
  assert (Hnd : NoDup (map fst formals)).
  { apply NoDup_cons_2; [|apply NoDup_singleton].
    rewrite list_elem_of_In. intros [E|[]]. discriminate E. }
  destruct (callFunction_attrs_pattern exampleHost 0 st 0 1 3 0 formals false "args"%string (Var "x"%string)
              0 [("x"%string, 2)] eq_refl eq_refl eq_refl Hnd)
    as (st' & Hrun & _ & Hbinds & Halias).
  exists st'. split; [exact Hrun|]. split; [|split].
  - apply (Hbinds ("x"%string, NoDefaultValue)). left; reflexivity.
  - apply (Hbinds ("y"%string, DefaultValue_ (Int 2))). right; left; reflexivity.
  - apply Halias; [discriminate|]. intros [E|[E|[]]]; discriminate E.
Defined.

(** ** Demands and forcing *)

Lemma typed_demands_reject_witness :
  let st := mkState [vInt 1] [] [] [] in
  forceBool (funs exampleHost 1) 0 st
    = Throw (mkError cTypeError "value is an integer while a Boolean was expected"%string) st /\
  forceAttrs (funs exampleHost 1) 0 st
    = Throw (mkError cTypeError "value is an integer while an attribute set was expected"%string) st.
Proof.
  intros st.
  assert (Hev : evaluated (vInt 1)) by (repeat split; discriminate).
  destruct (typed_demands_reject exampleHost 0 st 0 (vInt 1) eq_refl Hev)
    as (t & Ht & _ & Hbool & Hattrs & _).
  assert (t = "an integer"%string) as -> by (injection Ht as <-; reflexivity).
  split; [apply Hbool | apply Hattrs]; discriminate.
Defined.

Lemma forceValue_self_reference_detected_witness :
  let st := mkState [mkValue tThunk (uThunk 0 (Var "x"%string))] [[("x"%string, 0)]] [mkEnv None 0] [] in
  forceValue exampleHost 3 0 st = Throw InfiniteRecursion st.
Proof.
  intros st.
  apply (forceValue_self_reference_detected exampleHost 0 st 0 0 "x"%string (mkEnv None 0)
           [("x"%string, 0)]); reflexivity.
Defined.

Lemma forceValue_copy_of_evaluated_witness :
  forceValue exampleHost 2 0 (mkState [mkValue tCopy (uVal 1); vInt 5] [] [] [])
    = Ok tt (mkState [vInt 5; vInt 5] [] [] []).
Proof.
  apply (forceValue_copy_of_evaluated exampleHost 0
           (mkState [mkValue tCopy (uVal 1); vInt 5] [] [] []) 0 1 (vInt 5));
    try reflexivity.
  repeat split; discriminate.
Defined.

(** ** Literals and operators *)

Lemma eval_List_is_lazy_witness :
  eval exampleHost 1 0 (List [Var "undefined"%string; Int 1]) 0 (mkState [fresh] [] [] [])
    = Ok tt (mkState [mkValue tList (uList 2 1);
                      mkValue tThunk (uThunk 0 (Var "undefined"%string));
                      mkValue tThunk (uThunk 0 (Int 1))] [] [] []).
Proof.
  apply (eval_List_is_lazy exampleHost 0 (mkState [fresh] [] [] []) 0
           [Var "undefined"%string; Int 1] 0).
  simpl. lia.
Defined.

Lemma eval_OpConcat_copies_elements_witness :
  exists st',
    eval exampleHost 2 0 (OpConcat (List [Int 1]) (List [Var "u"%string; Int 2])) 0
         (mkState [fresh] [] [] []) = Ok tt st' /\
    values st' !! 0 = Some (mkValue tList (uList 3 6)) /\
    values st' !! 6 = Some (mkValue tThunk (uThunk 0 (Int 1))) /\
    values st' !! 7 = Some (mkValue tThunk (uThunk 0 (Var "u"%string))) /\
    values st' !! 8 = Some (mkValue tThunk (uThunk 0 (Int 2))).
Proof.
  set (st := mkState [fresh] [] [] []).
  set (st1 := mkState [fresh; mkValue tList (uList 1 2); mkValue tThunk (uThunk 0 (Int 1))]
                      [] [] []).
  set (st2 := mkState [fresh; mkValue tList (uList 1 2); mkValue tThunk (uThunk 0 (Int 1));
                       mkValue tList (uList 2 4); mkValue tThunk (uThunk 0 (Var "u"%string));
                       mkValue tThunk (uThunk 0 (Int 2))] [] [] []).
  destruct (eval_OpConcat_copies_elements exampleHost 0 st 0 (List [Int 1])
              (List [Var "u"%string; Int 2]) 0 st1 st2 1 2 2 4)
    as (st' & Hrun & _ & Hold & Hfirst & Hsecond);
    try reflexivity; try (simpl; lia).
  exists st'. split; [exact Hrun|].
  split; [exact (Hold 0 ltac:(simpl; lia))|].
  split; [exact (Hfirst 0 ltac:(lia))|].
  split; [exact (Hsecond 0 ltac:(lia)) | exact (Hsecond 1 ltac:(lia))].
Defined.

Lemma eval_Attrs_is_lazy_witness :
  exists st',
    eval exampleHost 1 0 (Attrs [("a"%string, Var "undefined"%string)]) 0 (mkState [fresh] [] [] [])
      = Ok tt st' /\
    attr_cell st' 0 "a"%string = Some (thunk 0 (Var "undefined"%string)).
Proof.
  destruct (eval_Attrs_is_lazy exampleHost 0 (mkState [fresh] [] [] []) 0
              [("a"%string, Var "undefined"%string)] 0 ltac:(simpl; lia))
    as (st' & bs & Hrun & Hv & Hbs & _ & Hthunks & _).
  exists st'. split; [exact Hrun|].
  destruct (Hthunks (NoDup_singleton _) "a"%string (Var "undefined"%string) ltac:(now left))
    as (i & Hfi & Hci).
  transitivity (values st' !! i); [exact (attr_cell_eq st' 0 _ _ _ _ Hv Hbs Hfi) | exact Hci].
Defined.

Lemma eval_Rec_shares_bindings_witness :
  exists st',
    eval exampleHost 1 0 (Rec [("x"%string, Var "x"%string)] [("y"%string, Int 1)]) 0 (mkState [fresh] [] [] [])
      = Ok tt st' /\
    values st' !! 0 = Some (mkValue tAttrs (uAttrs 0)) /\
    envs st' = [mkEnv (Some 0) 0] /\
    attr_cell st' 0 "x"%string = Some (thunk 0 (Var "x"%string)) /\
    attr_cell st' 0 "y"%string = Some (thunk 0 (Int 1)).
Proof.
  assert (Hnd : NoDup (map fst ([("x"%string, Var "x"%string)] ++ [("y"%string, Int 1)]))).
  { apply NoDup_cons_2; [|apply NoDup_singleton].
    rewrite list_elem_of_In. intros [E|[]]. discriminate E. }
  destruct (eval_Rec_shares_bindings exampleHost 0 (mkState [fresh] [] [] []) 0
              [("x"%string, Var "x"%string)] [("y"%string, Int 1)] 0 ltac:(simpl; lia) Hnd)
    as (st' & bs & Hrun & Hv & Henvs & Hbs & _ & Hrec & Hnonrec).
  exists st'. split; [exact Hrun|]. split; [exact Hv|]. split; [exact Henvs|].
  destruct (Hrec "x"%string (Var "x"%string) ltac:(now left)) as (i & Hfi & Hci).
  destruct (Hnonrec "y"%string (Int 1) ltac:(now left)) as (j & Hfj & Hcj).
  split.
  - transitivity (values st' !! i); [exact (attr_cell_eq st' 0 _ _ _ _ Hv Hbs Hfi) | exact Hci].
  - transitivity (values st' !! j); [exact (attr_cell_eq st' 0 _ _ _ _ Hv Hbs Hfj) | exact Hcj].
Defined.

Lemma eval_Select_outcomes_witness :
  let st1 := mkState [fresh; mkValue tAttrs (uAttrs 0); mkValue tThunk (uThunk 0 (Int 1))]
                     [[("a"%string, 2)]] [] [] in
  eval exampleHost 2 0 (Select (Attrs [("a"%string, Int 1)]) "b"%string) 0 (mkState [fresh] [] [] [])
    = Throw (AttrMissing "b"%string) st1.
Proof.
  intros st1.
  apply (eval_Select_outcomes exampleHost 0 (mkState [fresh] [] [] []) 0
           (Attrs [("a"%string, Int 1)]) "b"%string 0 st1 0 [("a"%string, 2)]); reflexivity.
Defined.

(** ** Automatic calls *)

Lemma autoCallFunction_passthrough_witness :
  autoCallFunction (funs exampleHost 1) [("x"%string, 0)] 0 1 (mkState [vInt 1; fresh] [] [] [])
    = Ok tt (mkState [vInt 1; vInt 1] [] [] []).
Proof.
  apply (autoCallFunction_passthrough exampleHost 0 (mkState [vInt 1; fresh] [] [] [])
           [("x"%string, 0)] 0 1 (vInt 1)).
  - reflexivity.
  - repeat split; discriminate.
  - left. discriminate.
  - simpl. lia.
Defined.

Lemma autoCallFunction_supplies_formals_witness :
  let st := mkState [mkValue tLambda
                       (uLambda 0 (AttrsPat [("x"%string, NoDefaultValue)] false sNoAlias) (Var "x"%string));
                     fresh] [] [mkEnv None 0] [] in
  exists st', autoCallFunction (funs exampleHost 1) [] 0 1 st = Throw (AutoCallError "x"%string) st'.
Proof.
  intros st.
  apply (autoCallFunction_supplies_formals exampleHost 0 st [] 0 1 0
           [("x"%string, NoDefaultValue)] false sNoAlias (Var "x"%string)).
  - reflexivity.
  - intros k j Hf. discriminate Hf.
Defined.

(** ** Registration *)

(** X28: registering a constant or a primop under [name] in a base
    environment that has its [builtins] attribute set makes the value visible
    twice: as the variable [name] of the base environment, and as the
    attribute of [builtins] whose name is [name] without a leading ["__"];
    [builtins] itself stays bound to its attribute set. *)
Theorem registration_under_both_names {Ly : Layout} st baseEnv name E (bs : Bindings) bi bb
    (bbs : Bindings) :
  envs st !! baseEnv = Some E ->
  slots_inv st (bindings E) bs ->
  find "builtins"%string bs = Some bi ->
  values st !! bi = Some (mkValue tAttrs (uAttrs bb)) ->
  slots_inv st bb bbs ->
  bb <> bindings E ->
  ~ In bi (map snd bbs) ->
  name <> "builtins"%string ->
  (forall v cv, values st !! v = Some cv ->
     exists st',
       addConstant baseEnv name v st = Ok tt st' /\
       env_binds st' baseEnv name = Some cv /\
       attr_cell st' bi (strip__ name) = Some cv /\
       env_binds st' baseEnv "builtins"%string = Some (mkValue tAttrs (uAttrs bb))) /\
  (forall arity primOp,
     exists st',
       addPrimOp baseEnv name arity primOp st = Ok tt st' /\
       env_binds st' baseEnv name = Some (mkValue tPrimOp (uPrimOp primOp arity)) /\
       attr_cell st' bi (strip__ name) = Some (mkValue tPrimOp (uPrimOp primOp arity)) /\
       env_binds st' baseEnv "builtins"%string = Some (mkValue tAttrs (uAttrs bb))).
Proof.
  intros HE Hinv Hbi Hbicell Hinvb Hne Hfree Hname. split.
  - intros v cv Hv. now apply (addConstant_aux st baseEnv name v cv E bs bi bb bbs).
  - intros arity primOp. now apply (addPrimOp_aux st baseEnv name arity primOp E bs bi bb bbs).
Qed.

Lemma registration_under_both_names_witness :
  exists st',
    addPrimOp baseEnv "__sub"%string 2 "prim_sub"%string initState = Ok tt st' /\
    env_binds st' baseEnv "__sub"%string = Some (mkValue tPrimOp (uPrimOp "prim_sub"%string 2)) /\
    attr_cell st' 0 "sub"%string = Some (mkValue tPrimOp (uPrimOp "prim_sub"%string 2)).
Proof.
  assert (Hinv : slots_inv initState 0 [("__add"%string, 2); ("builtins"%string, 0)]).
  { constructor; [reflexivity | |].
    - apply NoDup_cons_2; [|apply NoDup_singleton].
      rewrite list_elem_of_In. intros [E|[]]. discriminate E.
    - intros c [<-|[<-|[]]]; vm_compute; lia. }
  assert (Hinvb : slots_inv initState 1 [("add"%string, 3)]).
  { constructor; [reflexivity | apply NoDup_singleton |].
    intros c [<-|[]]. vm_compute. lia. }
  destruct (proj2 (registration_under_both_names (@initState exampleLayout) baseEnv "__sub"%string (mkEnv None 0)
                     [("__add"%string, 2); ("builtins"%string, 0)] 0 1 [("add"%string, 3)]
                     eq_refl Hinv eq_refl eq_refl Hinvb ltac:(discriminate)
                     ltac:(intros [E|[]]; discriminate E) ltac:(discriminate))
                  2%N "prim_sub"%string)
    as (st' & Hrun & Hvar & Hattr & _).
  exists st'. split; [exact Hrun|]. split; [exact Hvar | exact Hattr].
Defined.

(** ** Cloning and update *)

Lemma cloneAttrs_shallow_copy_witness :
  let st := mkState [mkValue tAttrs (uAttrs 0); vInt 1; fresh] [[("a"%string, 1)]] [] [] in
  exists st',
    cloneAttrs 0 2 st = Ok tt st' /\
    attr_cell st' 2 "a"%string = Some (mkValue tCopy (uVal 1)) /\
    attr_cell st' 0 "a"%string = Some (vInt 1).
Proof.
  intros st.
  destruct (cloneAttrs_shallow_copy st 0 2 0 [("a"%string, 1)] eq_refl eq_refl
              (NoDup_singleton _) ltac:(simpl; lia) ltac:(discriminate))
    as (st' & bs' & Hrun & Hdst & Hbs' & _ & Hcopies & Hkeep & Hmaps & _).
  exists st'. split; [exact Hrun|].
  destruct (Hcopies "a"%string 1 ltac:(now left)) as (d & Hfd & _ & Hcd).
  split.
  - transitivity (values st' !! d); [exact (attr_cell_eq st' 2 _ _ _ _ Hdst Hbs' Hfd) | exact Hcd].
  - transitivity (values st' !! 1).
    + apply (attr_cell_eq st' 0 0 [("a"%string, 1)]).
      * exact (Hkeep 0 ltac:(simpl; lia) ltac:(discriminate)).
      * exact (Hmaps 0 ltac:(simpl; lia)).
      * reflexivity.
    + exact (Hkeep 1 ltac:(simpl; lia) ltac:(discriminate)).
Defined.

Lemma eval_OpUpdate_right_biased_witness :
  exists st',
    eval exampleHost 2 0
         (OpUpdate (Attrs [("a"%string, Int 1); ("b"%string, Int 2)])
                   (Attrs [("b"%string, Int 3)]))
         0 (mkState [fresh] [] [] []) = Ok tt st' /\
    attr_cell st' 0 "a"%string = Some (mkValue tCopy (uVal 2)) /\
    attr_cell st' 0 "b"%string = Some (thunk 0 (Int 3)).
Proof.
  set (st := mkState [fresh] [] [] []).
  set (st1 := mkState [fresh; mkValue tAttrs (uAttrs 0); thunk 0 (Int 1); thunk 0 (Int 2)]
                      [[("a"%string, 2); ("b"%string, 3)]] [] []).
  set (stc := mkState [mkValue tAttrs (uAttrs 1); mkValue tAttrs (uAttrs 0);
                       thunk 0 (Int 1); thunk 0 (Int 2);
                       mkValue tCopy (uVal 2); mkValue tCopy (uVal 3)]
                      [[("a"%string, 2); ("b"%string, 3)];
                       [("a"%string, 4); ("b"%string, 5)]] [] []).
  set (st2 := mkState [mkValue tAttrs (uAttrs 1); mkValue tAttrs (uAttrs 2);
                       thunk 0 (Int 1); thunk 0 (Int 2);
                       mkValue tCopy (uVal 2); mkValue tCopy (uVal 3); thunk 0 (Int 3)]
                      [[("a"%string, 2); ("b"%string, 3)];
                       [("a"%string, 4); ("b"%string, 5)]; [("b"%string, 6)]] [] []).
  assert (Hnd1 : NoDup (map fst [("a"%string, 2); ("b"%string, 3)])).
  { apply NoDup_cons_2; [|apply NoDup_singleton].
    rewrite list_elem_of_In. intros [E|[]]. discriminate E. }
  destruct (eval_OpUpdate_right_biased (Ly := exampleLayout) exampleHost 0 st 0
              (Attrs [("a"%string, Int 1); ("b"%string, Int 2)]) (Attrs [("b"%string, Int 3)])
              0 st1 stc st2 0 [("a"%string, 2); ("b"%string, 3)] 2 [("b"%string, 6)]
              eq_refl eq_refl eq_refl Hnd1 ltac:(simpl; lia) ltac:(discriminate)
              eq_refl eq_refl eq_refl eq_refl)
    as (st' & bs' & Hrun & Hv & Hbs' & _ & Hright & Hleft).
  { intros d Hd. simpl in Hd.
    assert (d = 4 \/ d = 5) as [-> | ->] by lia; reflexivity. }
  { reflexivity. }
  { reflexivity. }
  { apply NoDup_singleton. }
  { intros k i [[= <- <-]|[]]. simpl. lia. }
  exists st'. split; [exact Hrun|].
  destruct (Hright "b"%string 6 ltac:(now left)) as (d & Hfd & Hcd).
  destruct (Hleft "a"%string 2 ltac:(now left) eq_refl) as (d' & Hfd' & Hcd').
  split.
  - transitivity (values st' !! d'); [exact (attr_cell_eq st' 0 _ _ _ _ Hv Hbs' Hfd') | exact Hcd'].
  - transitivity (values st' !! d); [exact (attr_cell_eq st' 0 _ _ _ _ Hv Hbs' Hfd) | exact Hcd].
Defined.
